(** * gograte: numbered SQL migration files and psql argument lists

    A shallow embedding of [gograte.go] and of the parts of the Go
    standard library it calls ([strings.Index], [strconv.Atoi],
    [strconv.Itoa], [fmt.Sprintf], [net/url], [sort.Sort]).

    Go strings are byte sequences: they are modelled by [string]
    (a list of 8-bit [ascii] characters).  Go's [int] is the 64-bit
    signed integer of the usual platforms and is modelled by [Z], with
    the range written out where the code depends on it.  A Go function
    that returns [(T, error)] is modelled by a function into
    [outcome T]; a run-time panic is an outcome of its own. *)

From Stdlib Require Import ZArith List String Ascii Bool Lia.
From Stdlib Require Import Permutation Sorted DecimalString DecimalZ.
Import ListNotations.

Open Scope string_scope.
Open Scope Z_scope.

(** ** Errors, panics and outcomes *)

(** [strconv.ErrSyntax] and [strconv.ErrRange]. *)
Inductive numErr : Type := ErrSyntax | ErrRange.

(** The error values the program can hand to its caller. *)
Inductive error : Type :=
| NumError (Func Num : string) (Err : numErr)  (* *strconv.NumError *)
| errorString (s : string)                     (* fmt.Errorf *)
| PathError (Op Path : string)                 (* *fs.PathError, from package os *)
| jsonError (msg : string).                    (* errors of encoding/json *)

(** Run-time errors of the Go runtime. *)
Inductive runtimeError : Type :=
| sliceBoundsOutOfRange (hi len : Z)   (* s[:hi] with hi outside 0..len *)
| indexOutOfRange (i len : Z).         (* s[i] with i outside 0..len-1 *)

(** What a call does: it returns normally with a nil error, returns a
    non-nil error, or panics.  [OutOfFuel] is the recursion bound of
    the model of a loop running out; the loops of the program are
    shown never to produce it. *)
Inductive outcome (A : Type) : Type :=
| Returns (a : A)
| Fails (e : error)
| Panics (p : runtimeError)
| OutOfFuel.

Arguments Returns {A} a.
Arguments Fails {A} e.
Arguments Panics {A} p.
Arguments OutOfFuel {A}.

Definition bind {A B : Type} (m : outcome A) (k : A -> outcome B) : outcome B :=
  match m with
  | Returns a => k a
  | Fails e => Fails e
  | Panics p => Panics p
  | OutOfFuel => OutOfFuel
  end.

Notation "x <- m ;; k" := (bind m (fun x => k))
  (at level 61, m at next level, right associativity).
Notation "' pat <- m ;; k" := (bind m (fun x => match x with pat => k end))
  (at level 61, pat pattern, m at next level, right associativity).

(** [len(s)] of a string. *)
Definition len (s : string) : Z := Z.of_nat (String.length s).

(** The slice expression [s[:hi]]: it panics unless [0 <= hi <= len(s)]. *)
Definition slice_to (s : string) (hi : Z) : outcome string :=
  if (hi <? 0) || (len s <? hi)
  then Panics (sliceBoundsOutOfRange hi (len s))
  else Returns (substring 0 (Z.to_nat hi) s).

(** ** Package strings *)

Module strings.

(** [strings.Index(s, substr)]: the index of the first instance of
    [substr] in [s], or -1 if [substr] is not present in [s]. *)
Definition Index (s substr : string) : Z :=
  match String.index 0 substr s with
  | Some n => Z.of_nat n
  | None => -1
  end.

End strings.

(** ** Package strconv *)

Module strconv.

(** [strconv.IntSize]: the size in bits of an [int]. *)
Definition intSize : Z := 64.

Definition maxUint64 : Z := 2 ^ 64 - 1.

Definition syntaxError (fn str : string) : error := NumError fn str ErrSyntax.

(** The byte of a character, and [ch - '0'] on bytes (modulo 256). *)
Definition byte_of (c : ascii) : Z := Z.of_nat (nat_of_ascii c).
Definition sub_zero (c : ascii) : Z := (byte_of c - 48) mod 256.

(** The loop of the fast path of [Atoi]:
    [for _, ch := range []byte(s) { ch -= '0'; if ch > 9 { return syntax error }; n = n*10 + int(ch) }].
    [None] is the syntax error. *)
Fixpoint atoi_fast_loop (s : string) (n : Z) : option Z :=
  match s with
  | EmptyString => Some n
  | String ch s' =>
      let d := sub_zero ch in
      if 9 <? d then None else atoi_fast_loop s' (n * 10 + d)
  end.

(** The loop of [ParseUint] at base 10 and bit size 64: digits are
    accumulated in a [uint64]; [cutoff] is the smallest number such
    that [cutoff*10 > maxUint64]. *)
Definition cutoff10 : Z := maxUint64 / 10 + 1.

Fixpoint parseUint_loop (s : string) (n : Z) : numErr + Z :=
  match s with
  | EmptyString => inr n
  | String c s' =>
      if (48 <=? byte_of c) && (byte_of c <=? 57) then
        let d := byte_of c - 48 in
        if cutoff10 <=? n then inl ErrRange (* n*base overflows *)
        else
          let n := n * 10 in
          let n1 := (n + d) mod 2 ^ 64 in
          if (n1 <? n) || (maxUint64 <? n1) then inl ErrRange (* n+d overflows *)
          else parseUint_loop s' n1
      else
        (* a letter is a digit of a base above 10, an underscore is
           allowed with base 0 only, anything else is no digit *)
        inl ErrSyntax
  end.

(** [ParseUint(s, 10, 0)], the only way [Atoi] reaches it. *)
Definition ParseUint10 (s : string) : numErr + Z :=
  match s with
  | EmptyString => inl ErrSyntax
  | _ => parseUint_loop s 0
  end.

(** [ParseInt(s, 10, 0)]: a leading sign is picked off, the rest is
    converted unsigned and checked against the range of [int]. *)
Definition ParseInt10 (s : string) : numErr + Z :=
  match s with
  | EmptyString => inl ErrSyntax
  | String c s' =>
      let neg := Ascii.eqb c "-" in
      let s1 := if Ascii.eqb c "+" || neg then s' else s in
      match ParseUint10 s1 with
      | inl e => inl e
      | inr un =>
          let cutoff := 2 ^ (intSize - 1) in
          if negb neg && (cutoff <=? un) then inl ErrRange
          else if neg && (cutoff <? un) then inl ErrRange
          else inr (if neg then - un else un)
      end
  end.

(** [strconv.Atoi(s)]. *)
Definition Atoi (s : string) : outcome Z :=
  let sLen := len s in
  if (0 <? sLen) && (sLen <? 19) then
    (* fast path for small integers that fit the int type *)
    match s with
    | EmptyString => Fails (syntaxError "Atoi" s)
    | String c s' =>
        let signed := Ascii.eqb c "-" || Ascii.eqb c "+" in
        let s1 := if signed then s' else s in
        if signed && (len s1 <? 1) then Fails (syntaxError "Atoi" s)
        else
          match atoi_fast_loop s1 0 with
          | None => Fails (syntaxError "Atoi" s)
          | Some n => Returns (if Ascii.eqb c "-" then - n else n)
          end
    end
  else
    (* slow path for invalid, big, or underscored integers *)
    match ParseInt10 s with
    | inl e => Fails (NumError "Atoi" s e)
    | inr i64 => Returns i64
    end.

(** [strconv.Itoa(i)]: the decimal representation of [i], with a
    leading minus sign when [i] is negative. *)
Definition Itoa (i : Z) : string := NilZero.string_of_int (Z.to_int i).

End strconv.

(** ** Package fmt *)

Module fmt.

(** The operands the program passes to [Sprintf]. *)
Inductive operand : Type :=
| Str (s : string)
| Int (i : Z).

Definition typeName (a : operand) : string :=
  match a with Str _ => "string" | Int _ => "int" end.

Definition valueOf (a : operand) : string :=
  match a with Str s => s | Int i => strconv.Itoa i end.

(** What [Sprintf] appends when operands are left over:
    [%!(EXTRA type=value, type=value)]. *)
Fixpoint extraList (a : list operand) : string :=
  match a with
  | [] => EmptyString
  | [x] => typeName x ++ "=" ++ valueOf x
  | x :: rest => typeName x ++ "=" ++ valueOf x ++ ", " ++ extraList rest
  end.

Definition extra (a : list operand) : string :=
  match a with
  | [] => EmptyString
  | _ => "%!(EXTRA " ++ extraList a ++ ")"
  end.

(** One verb applied to one operand: [%s] prints a string, [%d] an
    integer in base 10; a verb that does not fit its operand prints
    [%!verb(type=value)]. *)
Definition printVerb (verb : ascii) (a : operand) : string :=
  match a with
  | Str s =>
      if Ascii.eqb verb "s" then s
      else "%!" ++ String verb ("(string=" ++ s ++ ")")
  | Int i =>
      if Ascii.eqb verb "d" then strconv.Itoa i
      else "%!" ++ String verb ("(int=" ++ strconv.Itoa i ++ ")")
  end.

(** [fmt.Sprintf(format, a...)] for formats built from plain text and
    the verbs [%s], [%d] and [%%] without flags, the formats of this
    program. *)
Fixpoint Sprintf (format : string) (a : list operand) : string :=
  match format with
  | EmptyString => extra a
  | String c rest =>
      if Ascii.eqb c "%" then
        match rest with
        | EmptyString => "%!(NOVERB)" ++ extra a
        | String verb rest' =>
            if Ascii.eqb verb "%" then String "%" (Sprintf rest' a)
            else
              match a with
              | [] => "%!" ++ String verb ("(MISSING)" ++ Sprintf rest' [])
              | x :: a' => printVerb verb x ++ Sprintf rest' a'
              end
        end
      else String c (Sprintf rest a)
  end.

(** [fmt.Errorf(format, a...)] *)
Definition Errorf (format : string) (a : list operand) : error :=
  errorString (Sprintf format a).

End fmt.

(** ** Package net/url *)

Module url.

Definition nonEmpty (s : string) : bool := negb (String.eqb s EmptyString).

(** The part of a URL a string is escaped for. *)
Inductive encoding : Type :=
| encodePath
| encodePathSegment
| encodeHost
| encodeZone
| encodeUserPassword
| encodeQueryComponent
| encodeFragment.

Definition isAlnum (c : ascii) : bool :=
  let b := strconv.byte_of c in
  (97 <=? b) && (b <=? 122) || (65 <=? b) && (b <=? 90) || (48 <=? b) && (b <=? 57).

Definition oneOf (c : ascii) (set : string) : bool :=
  existsb (Ascii.eqb c) (list_ascii_of_string set).

(** The double quote character. *)
Definition dquote : ascii := ascii_of_nat 34.

(** [shouldEscape(c, mode)]: whether the byte [c] is written as [%XX]
    in the part [mode] of a URL. *)
Definition shouldEscape (c : ascii) (mode : encoding) : bool :=
  if isAlnum c then false                       (* unreserved: alphanum *)
  else if match mode with encodeHost | encodeZone => oneOf c "!$&'()*+,;=:[]<>" || Ascii.eqb c dquote | _ => false end
  then false                                    (* what a host allows *)
  else if oneOf c "-_.~" then false             (* unreserved: mark *)
  else if oneOf c "$&+,/:;=?@" then             (* reserved *)
    match mode with
    | encodePath => Ascii.eqb c "?"
    | encodePathSegment => oneOf c "/;,?"
    | encodeUserPassword => oneOf c "@/?:"
    | encodeQueryComponent => true
    | encodeFragment => false
    | encodeHost | encodeZone => true
    end
  else if match mode with encodeFragment => oneOf c "!()*" | _ => false end
  then false
  else true.                                    (* everything else *)

Definition upperhex (n : Z) : ascii :=
  match get (Z.to_nat n) "0123456789ABCDEF" with
  | Some c => c
  | None => "0"%char
  end.

(** [escape(s, mode)]: every byte that [shouldEscape] becomes [%XX],
    except that a space becomes [+] in a query component. *)
Fixpoint escape (s : string) (mode : encoding) : string :=
  match s with
  | EmptyString => EmptyString
  | String c s' =>
      if shouldEscape c mode then
        match mode with
        | encodeQueryComponent =>
            if Ascii.eqb c " " then String "+" (escape s' mode)
            else String "%" (String (upperhex (strconv.byte_of c / 16))
                   (String (upperhex (strconv.byte_of c mod 16)) (escape s' mode)))
        | _ => String "%" (String (upperhex (strconv.byte_of c / 16))
                 (String (upperhex (strconv.byte_of c mod 16)) (escape s' mode)))
        end
      else String c (escape s' mode)
  end.

(** [url.QueryEscape(s)] *)
Definition QueryEscape (s : string) : string := escape s encodeQueryComponent.

(** [type Userinfo struct { username, password string; passwordSet bool }] *)
Record Userinfo : Type := mkUserinfo {
  username : string;
  password : string;
  passwordSet : bool
}.

(** [url.User(username)]: a [Userinfo] with the user name and no password. *)
Definition User (username : string) : Userinfo := mkUserinfo username EmptyString false.

(** [func (u *Userinfo) String() string] *)
Definition Userinfo_String (u : Userinfo) : string :=
  let s := escape (username u) encodeUserPassword in
  if passwordSet u then s ++ ":" ++ escape (password u) encodeUserPassword else s.

(** [type URL struct]: the fields [RawPath] and [RawFragment], hints
    for an encoding the caller prefers, are left out; no URL of the
    program sets them, and with them empty [EscapedPath] and
    [EscapedFragment] are as below. *)
Record URL : Type := mkURL {
  Scheme : string;
  Opaque : string;
  URL_User : option Userinfo;
  Host : string;
  Path : string;
  OmitHost : bool;
  ForceQuery : bool;
  RawQuery : string;
  Fragment : string
}.

Definition set_RawQuery (u : URL) (q : string) : URL :=
  mkURL (Scheme u) (Opaque u) (URL_User u) (Host u) (Path u)
        (OmitHost u) (ForceQuery u) q (Fragment u).

(** [func (u *URL) EscapedPath() string] *)
Definition EscapedPath (u : URL) : string :=
  if String.eqb (Path u) "*" then "*" else escape (Path u) encodePath.

(** [func (u *URL) EscapedFragment() string] *)
Definition EscapedFragment (u : URL) : string := escape (Fragment u) encodeFragment.

(** The first path segment, up to the first [/]. *)
Fixpoint firstSegment (p : string) : string :=
  match p with
  | EmptyString => EmptyString
  | String c p' => if Ascii.eqb c "/" then EmptyString else String c (firstSegment p')
  end.

Definition startsWithSlash (p : string) : bool :=
  match p with
  | String c _ => Ascii.eqb c "/"
  | EmptyString => false
  end.

Definition isSome {A : Type} (o : option A) : bool :=
  match o with Some _ => true | None => false end.

(** [func (u *URL) String() string]: the URL reassembled,
    [scheme://userinfo@host/path?query#fragment] in the general form. *)
Definition URL_String (u : URL) : string :=
  let buf := if nonEmpty (Scheme u) then Scheme u ++ ":" else EmptyString in
  let buf :=
    if nonEmpty (Opaque u) then buf ++ Opaque u
    else
      let buf :=
        if nonEmpty (Scheme u) || nonEmpty (Host u) || isSome (URL_User u) then
          if OmitHost u && negb (nonEmpty (Host u)) && negb (isSome (URL_User u))
          then buf (* omit empty host *)
          else
            let buf :=
              if nonEmpty (Host u) || nonEmpty (Path u) || isSome (URL_User u)
              then buf ++ "//" else buf in
            let buf :=
              match URL_User u with
              | Some ui => buf ++ Userinfo_String ui ++ "@"
              | None => buf
              end in
            if nonEmpty (Host u) then buf ++ escape (Host u) encodeHost else buf
        else buf in
      let path := EscapedPath u in
      let buf :=
        if nonEmpty path && negb (startsWithSlash path) && nonEmpty (Host u)
        then buf ++ "/" else buf in
      let buf :=
        if negb (nonEmpty buf) && oneOf ":" (firstSegment path)
        then buf ++ "./" else buf in
      buf ++ path in
  let buf :=
    if ForceQuery u || nonEmpty (RawQuery u) then buf ++ "?" ++ RawQuery u else buf in
  if nonEmpty (Fragment u) then buf ++ "#" ++ EscapedFragment u else buf.

(** [type Values map[string][]string]: the map is kept as an
    association list in ascending key order, the order in which
    [Encode] walks it. *)
Definition Values : Type := list (string * list string).

(** [func (v Values) Set(key, value string)]: [v[key] = []string{value}]. *)
Fixpoint Set_ (v : Values) (key value : string) : Values :=
  match v with
  | [] => [(key, [value])]
  | (k, vs) :: v' =>
      match String.compare key k with
      | Lt => (key, [value]) :: (k, vs) :: v'
      | Eq => (key, [value]) :: v'
      | Gt => (k, vs) :: Set_ v' key value
      end
  end.

(** The pairs [key=value] of one key, joined to [buf] with [&]. *)
Fixpoint encodeKey (buf keyEscaped : string) (vs : list string) : string :=
  match vs with
  | [] => buf
  | v :: vs' =>
      let buf := if nonEmpty buf then buf ++ "&" else buf in
      encodeKey (buf ++ keyEscaped ++ "=" ++ QueryEscape v) keyEscaped vs'
  end.

(** [func (v Values) Encode() string]: the query in "URL encoded"
    form ([bar=baz&foo=quux]), sorted by key. *)
Definition Encode (v : Values) : string :=
  fold_left (fun buf kv => encodeKey buf (QueryEscape (fst kv)) (snd kv)) v EmptyString.

(** [m[key] = append(m[key], value)] *)
Fixpoint Add (v : Values) (key value : string) : Values :=
  match v with
  | [] => [(key, [value])]
  | (k, vs) :: v' =>
      match String.compare key k with
      | Lt => (key, [value]) :: (k, vs) :: v'
      | Eq => (k, (vs ++ [value])%list) :: v'
      | Gt => (k, vs) :: Add v' key value
      end
  end.

Definition ishex (c : ascii) : bool :=
  let b := strconv.byte_of c in
  (48 <=? b) && (b <=? 57) || (97 <=? b) && (b <=? 102) || (65 <=? b) && (b <=? 70).

Definition unhex (c : ascii) : Z :=
  let b := strconv.byte_of c in
  if (48 <=? b) && (b <=? 57) then b - 48
  else if (97 <=? b) && (b <=? 102) then b - 97 + 10
  else if (65 <=? b) && (b <=? 70) then b - 65 + 10
  else 0.

(** [url.QueryUnescape(s)]: [%XX] becomes the byte, [+] a space;
    [None] is the [EscapeError] of a [%] not followed by two
    hexadecimal digits. *)
Fixpoint QueryUnescape (s : string) : option string :=
  match s with
  | EmptyString => Some EmptyString
  | String c s' =>
      if Ascii.eqb c "%" then
        match s' with
        | String a (String b s'') =>
            if ishex a && ishex b then
              option_map
                (String (ascii_of_nat (Z.to_nat (unhex a * 16 + unhex b))))
                (QueryUnescape s'')
            else None
        | _ => None
        end
      else if Ascii.eqb c "+" then option_map (String " ") (QueryUnescape s')
      else option_map (String c) (QueryUnescape s')
  end.

(** [strings.Cut(s, sep)] for a separator of one byte, without the
    flag that says whether the separator was found. *)
Fixpoint cut (s : string) (sep : ascii) : string * string :=
  match s with
  | EmptyString => (EmptyString, EmptyString)
  | String c s' =>
      if Ascii.eqb c sep then (EmptyString, s')
      else let (before, after) := cut s' sep in (String c before, after)
  end.

(** The pieces of [s] between the occurrences of [sep]. *)
Fixpoint pieces (s : string) (sep : ascii) (cur : string) : list string :=
  match s with
  | EmptyString => [cur]
  | String c s' =>
      if Ascii.eqb c sep then cur :: pieces s' sep EmptyString
      else pieces s' sep (cur ++ String c EmptyString)
  end.

(** One round of the loop of [parseQuery]: a piece with a semicolon,
    an empty piece and a piece that does not unescape are skipped. *)
Definition parsePair (m : Values) (piece : string) : Values :=
  if oneOf ";" piece then m
  else if negb (nonEmpty piece) then m
  else
    let (key, value) := cut piece "=" in
    match QueryUnescape key, QueryUnescape value with
    | Some key, Some value => Add m key value
    | _, _ => m
    end.

(** [func (u *URL) Query() Values]: [RawQuery] parsed, malformed
    pairs dropped without a word. *)
Definition Query (u : URL) : Values :=
  if nonEmpty (RawQuery u) then fold_left parsePair (pieces (RawQuery u) "&" EmptyString) []
  else [].

End url.
(** ** Package sort *)

Module sort.

(** [type Interface interface { Len() int; Less(i, j int) bool; Swap(i, j int) }].
    A Go implementation swaps in place; here [Swap] returns the
    collection after the swap.  [Less] and [Swap] may panic (an index
    out of range). *)
Class Interface (T : Type) : Type := {
  Len : T -> Z;
  Less : T -> Z -> Z -> outcome bool;
  Swap : T -> Z -> Z -> outcome T
}.

(** [math/bits.Len(x)]: the number of bits needed to represent [x];
    0 for [x = 0]. *)
Definition bits_Len (x : Z) : Z := if x <=? 0 then 0 else Z.log2 x + 1.

Inductive sortedHint : Type := unknownHint | increasingHint | decreasingHint.

Definition sortedHint_eqb (x y : sortedHint) : bool :=
  match x, y with
  | unknownHint, unknownHint => true
  | increasingHint, increasingHint => true
  | decreasingHint, decreasingHint => true
  | _, _ => false
  end.

(** [func (r *xorshift) Next() uint64] on the 64-bit state [r]:
    [r ^= r << 13; r ^= r >> 7; r ^= r << 17]. *)
Definition xorshift_Next (r : Z) : Z :=
  let r := Z.lxor r (Z.shiftl r 13 mod 2 ^ 64) in
  let r := Z.lxor r (Z.shiftr r 7) in
  Z.lxor r (Z.shiftl r 17 mod 2 ^ 64).

(** [func nextPowerOfTwo(length int) uint] *)
Definition nextPowerOfTwo (length : Z) : Z := Z.shiftl 1 (bits_Len length).

Section Pdqsort.

Context {T : Type} `{Interface T}.

(** The inner loop of [insertionSort]:
    [for j := i; j > a && data.Less(j, j-1); j-- { data.Swap(j, j-1) }] *)
Fixpoint insertionSort_inner (fuel : nat) (data : T) (a j : Z) : outcome T :=
  match fuel with
  | O => OutOfFuel
  | S fuel =>
      if a <? j then
        lt <- Less data j (j - 1) ;;
        if lt : bool then
          data <- Swap data j (j - 1) ;;
          insertionSort_inner fuel data a (j - 1)
        else Returns data
      else Returns data
  end.

(** The outer loop of [insertionSort]: [for i := a + 1; i < b; i++]. *)
Fixpoint insertionSort_outer (fuel : nat) (data : T) (a b i : Z) : outcome T :=
  match fuel with
  | O => OutOfFuel
  | S fuel =>
      if i <? b then
        data <- insertionSort_inner (Z.to_nat (i - a) + 1) data a i ;;
        insertionSort_outer fuel data a b (i + 1)
      else Returns data
  end.

(** [insertionSort] sorts [data[a:b]] using insertion sort. *)
Definition insertionSort (data : T) (a b : Z) : outcome T :=
  insertionSort_outer (Z.to_nat (b - a) + 1) data a b (a + 1).

(** The loop of [siftDown]. *)
Fixpoint siftDown_loop (fuel : nat) (data : T) (root hi first : Z) : outcome T :=
  match fuel with
  | O => OutOfFuel
  | S fuel =>
      let child := 2 * root + 1 in
      if hi <=? child then Returns data
      else
        child <- (if child + 1 <? hi then
                    lt <- Less data (first + child) (first + child + 1) ;;
                    Returns (if lt : bool then child + 1 else child)
                  else Returns child) ;;
        lt <- Less data (first + root) (first + child) ;;
        if lt : bool then
          data <- Swap data (first + root) (first + child) ;;
          siftDown_loop fuel data child hi first
        else Returns data
  end.

(** [siftDown] implements the heap property on [data[lo:hi]];
    [first] is an offset into the array where the root of the heap lies. *)
Definition siftDown (data : T) (lo hi first : Z) : outcome T :=
  siftDown_loop (Z.to_nat (hi - lo) + 1) data lo hi first.

(** [for i := (hi - 1) / 2; i >= 0; i-- { siftDown(data, i, hi, first) }] *)
Fixpoint heapSort_build (fuel : nat) (data : T) (i hi first : Z) : outcome T :=
  match fuel with
  | O => OutOfFuel
  | S fuel =>
      if 0 <=? i then
        data <- siftDown data i hi first ;;
        heapSort_build fuel data (i - 1) hi first
      else Returns data
  end.

(** [for i := hi - 1; i >= 0; i-- { data.Swap(first, first+i); siftDown(data, lo, i, first) }] *)
Fixpoint heapSort_pop (fuel : nat) (data : T) (i lo first : Z) : outcome T :=
  match fuel with
  | O => OutOfFuel
  | S fuel =>
      if 0 <=? i then
        data <- Swap data first (first + i) ;;
        data <- siftDown data lo i first ;;
        heapSort_pop fuel data (i - 1) lo first
      else Returns data
  end.

Definition heapSort (data : T) (a b : Z) : outcome T :=
  let first := a in
  let lo := 0 in
  let hi := b - a in
  (* Build heap with greatest element at top. *)
  data <- heapSort_build (Z.to_nat hi + 2) data (Z.quot (hi - 1) 2) hi first ;;
  (* Pop elements, largest first, into end of data. *)
  heapSort_pop (Z.to_nat hi + 1) data (hi - 1) lo first.

(** [for i <= j && data.Less(i, a) { i++ }] *)
Fixpoint scan_less (fuel : nat) (data : T) (a i j : Z) : outcome Z :=
  match fuel with
  | O => OutOfFuel
  | S fuel =>
      if i <=? j then
        lt <- Less data i a ;;
        if lt : bool then scan_less fuel data a (i + 1) j else Returns i
      else Returns i
  end.

(** [for i <= j && !data.Less(j, a) { j-- }] *)
Fixpoint scan_notless (fuel : nat) (data : T) (a i j : Z) : outcome Z :=
  match fuel with
  | O => OutOfFuel
  | S fuel =>
      if i <=? j then
        lt <- Less data j a ;;
        if lt : bool then Returns j else scan_notless fuel data a i (j - 1)
      else Returns j
  end.

(** The second loop of [partition]: [for { ...; if i > j { break }; data.Swap(i, j); i++; j-- }] *)
Fixpoint partition_loop (fuel : nat) (data : T) (a i j : Z) : outcome (T * Z) :=
  match fuel with
  | O => OutOfFuel
  | S fuel =>
      i <- scan_less (Z.to_nat (j - i) + 2) data a i j ;;
      j <- scan_notless (Z.to_nat (j - i) + 2) data a i j ;;
      if j <? i then Returns (data, j)
      else
        data <- Swap data i j ;;
        partition_loop fuel data a (i + 1) (j - 1)
  end.

(** [partition] does one quicksort partition.  Let [p = data[pivot]]:
    it moves elements in [data[a:b]] around, so that [data[i]<p] and
    [data[j]>=p] for [i<newpivot] and [j>newpivot]; on return,
    [data[newpivot] = p]. *)
Definition partition (data : T) (a b pivot : Z) : outcome (T * Z * bool) :=
  data <- Swap data a pivot ;;
  let i := a + 1 in
  let j := b - 1 in
  i <- scan_less (Z.to_nat (j - i) + 2) data a i j ;;
  j <- scan_notless (Z.to_nat (j - i) + 2) data a i j ;;
  if j <? i then
    data <- Swap data j a ;;
    Returns (data, j, true)
  else
    data <- Swap data i j ;;
    '(data, j) <- partition_loop (Z.to_nat (j - i) + 2) data a (i + 1) (j - 1) ;;
    data <- Swap data j a ;;
    Returns (data, j, false).

(** [for i <= j && !data.Less(a, i) { i++ }] *)
Fixpoint scan_notgreater (fuel : nat) (data : T) (a i j : Z) : outcome Z :=
  match fuel with
  | O => OutOfFuel
  | S fuel =>
      if i <=? j then
        lt <- Less data a i ;;
        if lt : bool then Returns i else scan_notgreater fuel data a (i + 1) j
      else Returns i
  end.

(** [for i <= j && data.Less(a, j) { j-- }] *)
Fixpoint scan_greater (fuel : nat) (data : T) (a i j : Z) : outcome Z :=
  match fuel with
  | O => OutOfFuel
  | S fuel =>
      if i <=? j then
        lt <- Less data a j ;;
        if lt : bool then scan_greater fuel data a i (j - 1) else Returns j
      else Returns j
  end.

Fixpoint partitionEqual_loop (fuel : nat) (data : T) (a i j : Z) : outcome (T * Z) :=
  match fuel with
  | O => OutOfFuel
  | S fuel =>
      i <- scan_notgreater (Z.to_nat (j - i) + 2) data a i j ;;
      j <- scan_greater (Z.to_nat (j - i) + 2) data a i j ;;
      if j <? i then Returns (data, i)
      else
        data <- Swap data i j ;;
        partitionEqual_loop fuel data a (i + 1) (j - 1)
  end.

(** [partitionEqual] partitions [data[a:b]] into elements equal to
    [data[pivot]] followed by elements greater than [data[pivot]].  It
    assumes that [data[a:b]] does not contain elements smaller than
    [data[pivot]]. *)
Definition partitionEqual (data : T) (a b pivot : Z) : outcome (T * Z) :=
  data <- Swap data a pivot ;;
  partitionEqual_loop (Z.to_nat (b - a) + 2) data a (a + 1) (b - 1).

(** [for i < b && !data.Less(i, i-1) { i++ }] *)
Fixpoint scan_ordered (fuel : nat) (data : T) (i b : Z) : outcome Z :=
  match fuel with
  | O => OutOfFuel
  | S fuel =>
      if i <? b then
        lt <- Less data i (i - 1) ;;
        if lt : bool then Returns i else scan_ordered fuel data (i + 1) b
      else Returns i
  end.

(** [for j := i - 1; j >= 1; j-- { if !data.Less(j, j-1) { break }; data.Swap(j, j-1) }] *)
Fixpoint shift_left (fuel : nat) (data : T) (j : Z) : outcome T :=
  match fuel with
  | O => OutOfFuel
  | S fuel =>
      if 1 <=? j then
        lt <- Less data j (j - 1) ;;
        if lt : bool then
          data <- Swap data j (j - 1) ;;
          shift_left fuel data (j - 1)
        else Returns data
      else Returns data
  end.

(** [for j := i + 1; j < b; j++ { if !data.Less(j, j-1) { break }; data.Swap(j, j-1) }] *)
Fixpoint shift_right (fuel : nat) (data : T) (j b : Z) : outcome T :=
  match fuel with
  | O => OutOfFuel
  | S fuel =>
      if j <? b then
        lt <- Less data j (j - 1) ;;
        if lt : bool then
          data <- Swap data j (j - 1) ;;
          shift_right fuel data (j + 1) b
        else Returns data
      else Returns data
  end.

(** The loop [for j := 0; j < maxSteps; j++] of [partialInsertionSort]. *)
Fixpoint partialInsertionSort_loop (fuel : nat) (data : T) (a b i j : Z)
  : outcome (T * bool) :=
  let maxSteps := 5 in
  let shortestShifting := 50 in
  match fuel with
  | O => OutOfFuel
  | S fuel =>
      if j <? maxSteps then
        i <- scan_ordered (Z.to_nat (b - i) + 1) data i b ;;
        if i =? b then Returns (data, true)
        else if b - a <? shortestShifting then Returns (data, false)
        else
          data <- Swap data i (i - 1) ;;
          (* Shift the smaller one to the left. *)
          data <- (if 2 <=? i - a then shift_left (Z.to_nat i + 1) data (i - 1)
                   else Returns data) ;;
          (* Shift the greater one to the right. *)
          data <- (if 2 <=? b - i then shift_right (Z.to_nat (b - i) + 1) data (i + 1) b
                   else Returns data) ;;
          partialInsertionSort_loop fuel data a b i (j + 1)
      else Returns (data, false)
  end.

(** [partialInsertionSort] partially sorts a slice, returns [true] if
    the slice is sorted at the end. *)
Definition partialInsertionSort (data : T) (a b : Z) : outcome (T * bool) :=
  partialInsertionSort_loop 6 data a b (a + 1) 0.

(** The loop [for i := 0; i < 3; i++] of [breakPatterns]. *)
Fixpoint breakPatterns_loop (fuel : nat) (data : T)
    (a length modulus idx random i : Z) : outcome T :=
  match fuel with
  | O => OutOfFuel
  | S fuel =>
      if i <? 3 then
        let random := xorshift_Next random in
        let other := Z.land random (modulus - 1) in
        let other := if length <=? other then other - length else other in
        data <- Swap data (idx - 1 + i) (a + other) ;;
        breakPatterns_loop fuel data a length modulus idx random (i + 1)
      else Returns data
  end.

(** [breakPatterns] scatters some elements around in an attempt to
    break some patterns that might cause imbalanced partitions in
    quicksort. *)
Definition breakPatterns (data : T) (a b : Z) : outcome T :=
  let length := b - a in
  if 8 <=? length then
    let random := length in
    let modulus := nextPowerOfTwo length in
    let idx := a + Z.quot length 4 * 2 - 1 in
    breakPatterns_loop 4 data a length modulus idx random 0
  else Returns data.

(** [order2] returns [x,y] where [data[x] <= data[y]], where
    [x,y=a,b] or [x,y=b,a]; the counter [swaps] is threaded through. *)
Definition order2 (data : T) (a b swaps : Z) : outcome (Z * Z * Z) :=
  lt <- Less data b a ;;
  if lt : bool then Returns (b, a, swaps + 1) else Returns (a, b, swaps).

(** [median] returns [x] where [data[x]] is the median of
    [data[a],data[b],data[c]], where [x] is [a], [b], or [c]. *)
Definition median (data : T) (a b c swaps : Z) : outcome (Z * Z) :=
  '(a, b, swaps) <- order2 data a b swaps ;;
  '(b, c, swaps) <- order2 data b c swaps ;;
  '(a, b, swaps) <- order2 data a b swaps ;;
  Returns (b, swaps).

(** [medianAdjacent] finds the median of [data[a - 1], data[a], data[a + 1]]. *)
Definition medianAdjacent (data : T) (a swaps : Z) : outcome (Z * Z) :=
  median data (a - 1) a (a + 1) swaps.

(** [choosePivot] chooses a pivot in [data[a:b]]:
    [0,8) chooses a static pivot, [8,shortestNinther) uses the simple
    median-of-three method, [shortestNinther,∞) the Tukey ninther
    method. *)
Definition choosePivot (data : T) (a b : Z) : outcome (Z * sortedHint) :=
  let shortestNinther := 50 in
  let maxSwaps := 4 * 3 in
  let l := b - a in
  let swaps := 0 in
  let i := a + Z.quot l 4 * 1 in
  let j := a + Z.quot l 4 * 2 in
  let k := a + Z.quot l 4 * 3 in
  '(j, swaps) <-
    (if 8 <=? l then
       '(i, j, k, swaps) <-
         (if shortestNinther <=? l then
            '(i, swaps) <- medianAdjacent data i swaps ;;
            '(j, swaps) <- medianAdjacent data j swaps ;;
            '(k, swaps) <- medianAdjacent data k swaps ;;
            Returns (i, j, k, swaps)
          else Returns (i, j, k, swaps)) ;;
       (* Find the median among i, j, k and stores it into j. *)
       median data i j k swaps
     else Returns (j, swaps)) ;;
  Returns (j, if swaps =? 0 then increasingHint
              else if swaps =? maxSwaps then decreasingHint
              else unknownHint).

(** [for i < j { data.Swap(i, j); i++; j-- }] *)
Fixpoint reverseRange_loop (fuel : nat) (data : T) (i j : Z) : outcome T :=
  match fuel with
  | O => OutOfFuel
  | S fuel =>
      if i <? j then
        data <- Swap data i j ;;
        reverseRange_loop fuel data (i + 1) (j - 1)
      else Returns data
  end.

Definition reverseRange (data : T) (a b : Z) : outcome T :=
  reverseRange_loop (Z.to_nat (b - a) + 1) data a (b - 1).

(** [pdqsort] sorts [data[a:b]]: pattern-defeating quicksort.
    [limit] is the number of allowed bad (very unbalanced) pivots
    before falling back to heapsort.  One round of [fuel] is one turn
    of the [for] loop; the recursive call starts the loop afresh with
    both flags true. *)
Fixpoint pdqsort_loop (fuel : nat) (data : T) (a b limit : Z)
    (wasBalanced wasPartitioned : bool) : outcome T :=
  let maxInsertion := 12 in
  match fuel with
  | O => OutOfFuel
  | S fuel =>
      let length := b - a in
      if length <=? maxInsertion then insertionSort data a b
      else if limit =? 0 then
        (* Fall back to heapsort if too many bad choices were made. *)
        heapSort data a b
      else
        (* If the last partitioning was imbalanced, we need to breakPatterns. *)
        '(data, limit) <-
          (if negb wasBalanced then
             data <- breakPatterns data a b ;;
             Returns (data, limit - 1)
           else Returns (data, limit)) ;;
        '(pivot, hint) <- choosePivot data a b ;;
        '(data, pivot, hint) <-
          (if sortedHint_eqb hint decreasingHint then
             data <- reverseRange data a b ;;
             Returns (data, (b - 1) - (pivot - a), increasingHint)
           else Returns (data, pivot, hint)) ;;
        (* The slice is likely already sorted. *)
        '(data, sorted) <-
          (if wasBalanced && wasPartitioned && sortedHint_eqb hint increasingHint
           then partialInsertionSort data a b
           else Returns (data, false)) ;;
        if sorted : bool then Returns data
        else
          (* Probably the slice contains many duplicate elements. *)
          dups <- (if 0 <? a then
                     lt <- Less data (a - 1) pivot ;;
                     Returns (negb lt)
                   else Returns false) ;;
          if dups : bool then
            '(data, mid) <- partitionEqual data a b pivot ;;
            pdqsort_loop fuel data mid b limit wasBalanced wasPartitioned
          else
            '(data, mid, alreadyPartitioned) <- partition data a b pivot ;;
            let wasPartitioned := alreadyPartitioned in
            let leftLen := mid - a in
            let rightLen := b - mid in
            let balanceThreshold := Z.quot length 8 in
            if leftLen <? rightLen then
              let wasBalanced := balanceThreshold <=? leftLen in
              data <- pdqsort_loop fuel data a mid limit true true ;;
              pdqsort_loop fuel data (mid + 1) b limit wasBalanced wasPartitioned
            else
              let wasBalanced := balanceThreshold <=? rightLen in
              data <- pdqsort_loop fuel data (mid + 1) b limit true true ;;
              pdqsort_loop fuel data a mid limit wasBalanced wasPartitioned
  end.

Definition pdqsort (data : T) (a b limit : Z) : outcome T :=
  pdqsort_loop (Z.to_nat (b - a) + 1) data a b limit true true.

(** [sort.Sort(data)] sorts [data] in ascending order as determined
    by the [Less] method. *)
Definition Sort (data : T) : outcome T :=
  let n := Len data in
  if n <=? 1 then Returns data
  else
    let limit := bits_Len n in
    pdqsort data 0 n limit.

End Pdqsort.

End sort.
(** ** Slices *)

(** The index expression [s[i]] on a slice: it panics unless
    [0 <= i < len(s)]. *)
Definition index {A : Type} (s : list A) (i : Z) : outcome A :=
  if i <? 0 then Panics (indexOutOfRange i (Z.of_nat (List.length s)))
  else
    match nth_error s (Z.to_nat i) with
    | Some x => Returns x
    | None => Panics (indexOutOfRange i (Z.of_nat (List.length s)))
    end.

(** The slice with element [n] replaced by [x]. *)
Fixpoint update {A : Type} (s : list A) (n : nat) (x : A) : list A :=
  match s, n with
  | [], _ => []
  | _ :: s', O => x :: s'
  | y :: s', S n' => y :: update s' n' x
  end.

(** The built-in [append(s, x)] on slices. *)
Definition append {A : Type} (s : list A) (x : A) : list A := (s ++ [x])%list.

(** The assignment [s[i] = x]: it panics unless [0 <= i < len(s)]. *)
Definition store {A : Type} (s : list A) (i : Z) (x : A) : outcome (list A) :=
  if (i <? 0) || (Z.of_nat (List.length s) <=? i)
  then Panics (indexOutOfRange i (Z.of_nat (List.length s)))
  else Returns (update s (Z.to_nat i) x).

(** ** The migration files *)

(** [type ddlFile struct { filename string; fileNumber int }] *)
Record ddlFile : Type := mkDdlFile {
  filename : string;
  fileNumber : Z
}.

(** [func newDDLFile(f string) (ddlFile, error)] *)
Definition newDDLFile (f : string) : outcome ddlFile :=
  let i := strings.Index f "-" in
  fileNumber <- slice_to f i ;;
  fn <- strconv.Atoi fileNumber ;;
  Returns (mkDdlFile f fn).

(** [type byFileNumber []ddlFile] implements [sort.Interface] based on
    the [fileNumber] field. *)
Definition byFileNumber : Type := list ddlFile.

(** [func (bfn byFileNumber) Len() int { return len(bfn) }] *)
Definition byFileNumber_Len (bfn : byFileNumber) : Z := Z.of_nat (List.length bfn).

(** [func (bfn byFileNumber) Swap(i, j int) { bfn[i], bfn[j] = bfn[j], bfn[i] }] *)
Definition byFileNumber_Swap (bfn : byFileNumber) (i j : Z) : outcome byFileNumber :=
  x <- index bfn j ;;
  y <- index bfn i ;;
  bfn <- store bfn i x ;;
  store bfn j y.

(** [func (bfn byFileNumber) Less(i, j int) bool { return bfn[i].fileNumber < bfn[j].fileNumber }] *)
Definition byFileNumber_Less (bfn : byFileNumber) (i j : Z) : outcome bool :=
  x <- index bfn i ;;
  y <- index bfn j ;;
  Returns (fileNumber x <? fileNumber y).

#[export] Instance byFileNumber_Interface : sort.Interface byFileNumber := {|
  sort.Len := byFileNumber_Len;
  sort.Less := byFileNumber_Less;
  sort.Swap := byFileNumber_Swap
|}.

(** An entry of a directory, as [os.ReadDir] returns it: what
    [file.Name()] and [file.IsDir()] give. *)
Record DirEntry : Type := mkDirEntry {
  Name : string;
  IsDir : bool
}.

(** The loop of [readDDLFiles] over the entries of the directory:
    [for _, file := range files { if file.IsDir() { continue }; df, err = newDDLFile(file.Name()); if err != nil { return nil, err }; ddlFiles = append(ddlFiles, df) }] *)
Fixpoint readDDLFiles_loop (files : list DirEntry) (ddlFiles : list ddlFile)
  : outcome (list ddlFile) :=
  match files with
  | [] => Returns ddlFiles
  | file :: files' =>
      if IsDir file then readDDLFiles_loop files' ddlFiles
      else
        df <- newDDLFile (Name file) ;;
        readDDLFiles_loop files' (append ddlFiles df)
  end.

(** [type PostgreSQLDSN struct]: a PostgreSQL datasource name. *)
Record PostgreSQLDSN : Type := mkPostgreSQLDSN {
  Host : string;
  Port : Z;
  DBName : string;
  SearchPath : string;
  User : string;
  Password : string
}.

(** [func (dsn PostgreSQLDSN) ConnectionURI() string] *)
Definition ConnectionURI (dsn : PostgreSQLDSN) : string :=
  let uriSchemeDesignator := "postgresql" in
  let h := Host dsn in
  let h := if negb (Port dsn =? 0) then h ++ ":" ++ strconv.Itoa (Port dsn) else h in
  let u := {| url.Scheme := uriSchemeDesignator;
              url.Opaque := EmptyString;
              url.URL_User := Some (url.User (User dsn));
              url.Host := h;
              url.Path := DBName dsn;
              url.OmitHost := false;
              url.ForceQuery := false;
              url.RawQuery := EmptyString;
              url.Fragment := EmptyString |} in
  let u :=
    if url.nonEmpty (SearchPath dsn) then
      let q := url.Query u in
      let q := url.Set_ q "options"
                 (fmt.Sprintf "-csearch_path=%s" [fmt.Str (SearchPath dsn)]) in
      url.set_RawQuery u (url.Encode q)
    else u in
  url.URL_String u.

(** [func (dsn PostgreSQLDSN) KeywordValueConnectionString() string] *)
Definition KeywordValueConnectionString (dsn : PostgreSQLDSN) : string :=
  (* if db connection does not have a password, the password parameter
     must be removed from the string *)
  let s :=
    if String.eqb (Password dsn) EmptyString then
      fmt.Sprintf "host=%s port=%d dbname=%s user=%s sslmode=disable"
        [fmt.Str (Host dsn); fmt.Int (Port dsn); fmt.Str (DBName dsn); fmt.Str (User dsn)]
    else
      fmt.Sprintf "host=%s port=%d dbname=%s user=%s password=%s sslmode=disable"
        [fmt.Str (Host dsn); fmt.Int (Port dsn); fmt.Str (DBName dsn); fmt.Str (User dsn);
         fmt.Str (Password dsn)] in
  (* if search path needs to be explicitly set, will be added to the
     end of the datasource string *)
  if String.eqb (SearchPath dsn) EmptyString then s
  else s ++ " " ++ fmt.Sprintf "search_path=%s" [fmt.Str (SearchPath dsn)].

(** [type ConfigFile struct]: the configuration file. *)
Module ConfigFile.

Record Database : Type := mkDatabase {
  Host : string;
  Port : Z;
  Name : string;
  User : string;
  Password : string;
  SearchPath : string
}.

Record Config : Type := mkConfig {
  database : Database;
  MigrationScriptsDir : string
}.

Record t : Type := mk { config : Config }.

End ConfigFile.

(** [func newPostgreSQLDSN(f ConfigFile) PostgreSQLDSN] *)
Definition newPostgreSQLDSN (f : ConfigFile.t) : PostgreSQLDSN :=
  let db := ConfigFile.database (ConfigFile.config f) in
  {| Host := ConfigFile.Host db;
     Port := ConfigFile.Port db;
     DBName := ConfigFile.Name db;
     SearchPath := ConfigFile.SearchPath db;
     User := ConfigFile.User db;
     Password := ConfigFile.Password db |}.

(** The loop of [PSQLArgs] over the files:
    [for _, file := range ddlFiles { args = append(args, "-f"); args = append(args, dir+"/"+file.filename) }] *)
Fixpoint PSQLArgs_loop (dir : string) (ddlFiles : list ddlFile) (args : list string)
  : list string :=
  match ddlFiles with
  | [] => args
  | file :: ddlFiles' =>
      let args := append args "-f" in
      let args := append args (dir ++ "/" ++ filename file) in
      PSQLArgs_loop dir ddlFiles' args
  end.

(** The file system and the JSON decoder the program runs against. *)
Section Program.

(** [os.ReadFile(name)]: the contents of the file, or an error. *)
Variable os_ReadFile : string -> outcome string.

(** [os.ReadDir(name)]: the entries of the directory, or an error. *)
Variable os_ReadDir : string -> outcome (list DirEntry).

(** [json.Unmarshal(b, &f)] on a fresh [ConfigFile]: the decoded
    configuration, or an error. *)
Variable json_Unmarshal : string -> outcome ConfigFile.t.

(** [func readDDLFiles(dir string) (ddlFiles []ddlFile, err error)]
    reads and returns sorted DDL files from the up or down directory. *)
Definition readDDLFiles (dir : string) : outcome (list ddlFile) :=
  files <- os_ReadDir dir ;;
  ddlFiles <- readDDLFiles_loop files [] ;;
  sort.Sort (ddlFiles : byFileNumber).

(** [func NewConfigFile(configFilePath string) (ConfigFile, error)] *)
Definition NewConfigFile (configFilePath : string) : outcome ConfigFile.t :=
  b <- os_ReadFile configFilePath ;;
  json_Unmarshal b.

(** [func PSQLArgs(up bool, profile string) ([]string, error)] takes a
    slice of DDL files to be executed and builds a sequence of command
    line arguments using the appropriate flags psql needs to execute
    files. *)
Definition PSQLArgs (up : bool) (profile : string) : outcome (list string) :=
  (* regular config path - relative to project root *)
  let configFilePath := "./config/" ++ profile ++ ".json" in
  (* read JSON config file *)
  f <- NewConfigFile configFilePath ;;
  (* determine directory from config file *)
  let dir := ConfigFile.MigrationScriptsDir (ConfigFile.config f) in
  let dir := if up then dir ++ "/up" else dir ++ "/down" in
  ddlFiles <- readDDLFiles dir ;;
  if Z.of_nat (List.length ddlFiles) =? 0 then
    Fails (fmt.Errorf "there are no DDL files to process in %s" [fmt.Str dir])
  else
    (* command line args for psql are constructed *)
    let args := ["-w"; "-d"; ConnectionURI (newPostgreSQLDSN f); "-c";
                 "select current_database(), current_user, version()"] in
    Returns (PSQLArgs_loop dir ddlFiles args).

End Program.

(** [CUEPaths] returns the paths for config files processed through
    CUE: the inputs and the output. *)
Record ConfigCueFilePaths : Type := mkConfigCueFilePaths {
  Input : list string;
  Output : string
}.

Definition CUEPaths (profile : string) : ConfigCueFilePaths :=
  let schemaInput := "./config/cue/schema.cue" in
  let profileInput := "./config/cue/" ++ profile ++ ".cue" in
  let profileOutput := "./config/" ++ profile ++ ".json" in
  {| Input := [schemaInput; profileInput]; Output := profileOutput |}.
(** ** [ddlFile.String] *)

(** [func (df ddlFile) String() string] *)
Definition ddlFile_String (df : ddlFile) : string :=
  fmt.Sprintf "%s: %d" [fmt.Str (filename df); fmt.Int (fileNumber df)].

(** * The magefile

    The mage targets of the repository call [gograte.CUEPaths] and
    [gograte.PSQLArgs] and run the commands [cue] and [psql] through
    [sh.Run] of [github.com/magefile/mage/sh]. *)

(** ** Package sh *)

Module sh.

(** A command line: the program and its arguments. *)
Record command : Type := mkCommand {
  cmd : string;
  args : list string
}.

(** A computation that runs commands takes the commands run before it
    to the commands run after it, with its outcome. *)
Definition shell (A : Type) : Type := list command -> list command * outcome A.

(** A computation that runs no command. *)
Definition pure {A : Type} (o : outcome A) : shell A := fun ran => (ran, o).

(** [x, err := m; if err != nil { return err }; k x] *)
Definition andThen {A B : Type} (m : shell A) (k : A -> shell B) : shell B :=
  fun ran =>
    let (ran', o) := m ran in
    match o with
    | Returns a => k a ran'
    | Fails e => (ran', Fails e)
    | Panics p => (ran', Panics p)
    | OutOfFuel => (ran', OutOfFuel)
    end.

Section Run.

(** What a command does when it is run after the commands [ran]:
    [Returns tt] is the [nil] error of a command that exits with
    status 0, [Fails err] the error of one that does not start or
    exits with another status. *)
Variable exec : list command -> command -> outcome unit.

(** [sh.Run(cmd, args...)] *)
Definition Run (cmd : string) (args : list string) : shell unit :=
  fun ran => (append ran (mkCommand cmd args), exec ran (mkCommand cmd args)).

End Run.

End sh.

Notation "x <~ m ;; k" := (sh.andThen m (fun x => k))
  (at level 61, m at next level, right associativity).

(** ** The targets *)

Module magefile.

Section Targets.

Variable os_ReadFile : string -> outcome string.
Variable os_ReadDir : string -> outcome (list DirEntry).
Variable json_Unmarshal : string -> outcome ConfigFile.t.
Variable exec : list sh.command -> sh.command -> outcome unit.

(** [func CueGenConfig(profile string) (err error)] generates a
    configuration file using CUE. *)
Definition CueGenConfig (profile : string) : sh.shell unit :=
  let paths := CUEPaths profile in
  (* Vet input files *)
  let vetArgs := ["vet"] in
  let vetArgs := (vetArgs ++ Input paths)%list in
  ok <~ sh.Run exec "cue" vetArgs ;;
  (* format input files *)
  let fmtArgs := ["fmt"] in
  let fmtArgs := (fmtArgs ++ Input paths)%list in
  ok <~ sh.Run exec "cue" fmtArgs ;;
  (* Export output files *)
  let exportArgs := ["export"] in
  let exportArgs := (exportArgs ++ Input paths)%list in
  let exportArgs := (exportArgs ++ ["--force"; "--out"; "json"; "--outfile"; Output paths])%list in
  ok <~ sh.Run exec "cue" exportArgs ;;
  sh.pure (Returns tt).

(** [func Up(profile string) (err error)] uses the psql cli to execute
    DDL scripts found in the up directory. *)
Definition Up (profile : string) : sh.shell unit :=
  args <~ sh.pure (PSQLArgs os_ReadFile os_ReadDir json_Unmarshal true profile) ;;
  ok <~ sh.Run exec "psql" args ;;
  sh.pure (Returns tt).

(** [func Down(profile string) (err error)] uses the psql cli to
    execute drop statement DDL scripts found in the down directory. *)
Definition Down (profile : string) : sh.shell unit :=
  args <~ sh.pure (PSQLArgs os_ReadFile os_ReadDir json_Unmarshal false profile) ;;
  ok <~ sh.Run exec "psql" args ;;
  sh.pure (Returns tt).

End Targets.

End magefile.
(** * Notions used to state the properties *)

(** Every character of [s] passes the test [p]. *)
Fixpoint all_chars (p : ascii -> bool) (s : string) : bool :=
  match s with
  | EmptyString => true
  | String c s' => p c && all_chars p s'
  end.

Definition isDigit (c : ascii) : bool :=
  (48 <=? strconv.byte_of c) && (strconv.byte_of c <=? 57).

(** The name of the database as [URL.String] writes it into the path. *)
Definition escapedName (name : string) : string :=
  if String.eqb name "*" then "*" else url.escape name url.encodePath.

Definition notDash (c : ascii) : bool := negb (Ascii.eqb c "-").

(** The number that the decimal digits [s] denote, read after the
    digits whose value is [n]. *)
Fixpoint decimal_from (s : string) (n : Z) : Z :=
  match s with
  | EmptyString => n
  | String c s' => decimal_from s' (n * 10 + (strconv.byte_of c - 48))
  end.

Definition decimal (s : string) : Z := decimal_from s 0.

(** The largest [int]. *)
Definition maxInt : Z := 2 ^ (strconv.intSize - 1) - 1.

(** The entry is a subdirectory, or a file whose name parses. *)
Definition parses (e : DirEntry) : Prop :=
  IsDir e = true \/ exists df, newDDLFile (Name e) = Returns df.

(** The files of a listing, parsed in the order of the listing:
    [Some] of the parsed files when every file parses. *)
Fixpoint parsedFiles (files : list DirEntry) : option (list ddlFile) :=
  match files with
  | [] => Some []
  | e :: files' =>
      if IsDir e then parsedFiles files'
      else
        match newDDLFile (Name e), parsedFiles files' with
        | Returns df, Some dfs => Some (df :: dfs)
        | _, _ => None
        end
  end.

(** The separator [URL.String] puts between host and path. *)
Definition pathSeparator (host path : string) : string :=
  if url.nonEmpty path && negb (url.startsWithSlash path) && url.nonEmpty host
  then "/" else EmptyString.

(** ** Slices of files as arrays *)

(** The zero value of [ddlFile]. *)
Definition zeroFile : ddlFile := mkDdlFile EmptyString 0.

(** [len(l)], and the file and the ordering key at index [i]. *)
Definition size (l : list ddlFile) : Z := Z.of_nat (List.length l).
Definition at_ (l : list ddlFile) (i : Z) : ddlFile := nth (Z.to_nat i) l zeroFile.
Definition key (l : list ddlFile) (i : Z) : Z := fileNumber (at_ l i).

(** The slice after the elements at [i] and [j] changed places. *)
Definition swapped (l : list ddlFile) (i j : Z) : list ddlFile :=
  update (update l (Z.to_nat i) (at_ l j)) (Z.to_nat j) (at_ l i).

(** [l'] is [l] after some swaps of elements with indices in [[a, b)]. *)
Inductive swaps (a b : Z) : list ddlFile -> list ddlFile -> Prop :=
| swaps_refl (l : list ddlFile) : swaps a b l l
| swaps_step (l l' : list ddlFile) (i j : Z) :
    a <= i < b -> a <= j < b -> 0 <= i < size l -> 0 <= j < size l ->
    swaps a b (swapped l i j) l' -> swaps a b l l'.

(** The keys at the indices of [[a, b)] do not decrease. *)
Definition sorted_range (l : list ddlFile) (a b : Z) : Prop :=
  forall i j, a <= i -> i < j -> j < b -> key l i <= key l j.

(** The element before [[a, b)], if there is one, is not above any
    element of [[a, b)]. *)
Definition lower_bound (l : list ddlFile) (a b : Z) : Prop :=
  0 < a -> forall k, a <= k < b -> key l (a - 1) <= key l k.

(** The heap of [heapSort]: node [r] of the heap is the element at
    [first + r], its children are the nodes [2r+1] and [2r+2]; from
    node [lo] on, no child below [hi] is above its parent. *)
Definition heap_from (l : list ddlFile) (first lo hi : Z) : Prop :=
  forall r c, lo <= r -> c = 2 * r + 1 \/ c = 2 * r + 2 -> c < hi ->
    key l (first + c) <= key l (first + r).

(** The range [[a, b)] is split at [mid] by the key [v]: nothing
    before [mid] is above [v], the key at [mid] is [v], nothing after
    [mid] is below [v]. *)
Definition split_at (l : list ddlFile) (a mid b v : Z) : Prop :=
  (forall k, a <= k < mid -> key l k <= v)
  /\ key l mid = v
  /\ (forall k, mid < k < b -> v <= key l k).

(** ** The notions of the specification *)

(** The directory [PSQLArgs] reads for a direction: the migration
    scripts directory of the configuration with [/up] or [/down]. *)
Definition migrationDir (f : ConfigFile.t) (up : bool) : string :=
  ConfigFile.MigrationScriptsDir (ConfigFile.config f)
  ++ (if up then "/up" else "/down").

(** The arguments [-f <dir>/<filename>] of a list of files. *)
Definition fileArgs (dir : string) (files : list ddlFile) : list string :=
  flat_map (fun file => ["-f"; dir ++ "/" ++ filename file]) files.

(** A file entry whose name [newDDLFile] does not turn into a file. *)
Definition failsToParse (e : DirEntry) : Prop :=
  IsDir e = false /\ forall df, newDDLFile (Name e) <> Returns df.


(** The keyword/value string of the specification. *)
Definition keywordValueShape (dsn : PostgreSQLDSN) : string :=
  "host=" ++ Host dsn ++ " port=" ++ strconv.Itoa (Port dsn)
  ++ " dbname=" ++ DBName dsn ++ " user=" ++ User dsn
  ++ (if String.eqb (Password dsn) EmptyString then EmptyString
      else " password=" ++ Password dsn)
  ++ " sslmode=disable"
  ++ (if String.eqb (SearchPath dsn) EmptyString then EmptyString
      else " search_path=" ++ SearchPath dsn).

(** The datasource name with another password. *)
Definition withPassword (dsn : PostgreSQLDSN) (pw : string) : PostgreSQLDSN :=
  mkPostgreSQLDSN (Host dsn) (Port dsn) (DBName dsn) (SearchPath dsn) (User dsn) pw.

(** ** A configuration and a file system to run the program on *)

(** The datasource name of the examples of the specification. *)
Definition localDSN : PostgreSQLDSN :=
  mkPostgreSQLDSN "localhost" 5432 "mydb" "public" "alice" EmptyString.

Definition localConfig : ConfigFile.t :=
  ConfigFile.mk
    (ConfigFile.mkConfig
       (ConfigFile.mkDatabase "localhost" 5432 "mydb" "alice" EmptyString "public")
       "migrations").

(** A file system with the one configuration file [./config/local.json]
    and a JSON decoder that knows its contents. *)
Definition local_ReadFile (name : string) : outcome string :=
  if String.eqb name "./config/local.json" then Returns "local config"
  else Fails (PathError "open" name).

Definition local_Unmarshal (b : string) : outcome ConfigFile.t :=
  if String.eqb b "local config" then Returns localConfig
  else Fails (jsonError "invalid character").

(** The directory [migrations/up] with the given entries. *)
Definition local_ReadDir (entries : list DirEntry) (name : string)
  : outcome (list DirEntry) :=
  if String.eqb name "migrations/up" then Returns entries
  else Fails (PathError "open" name).

Definition file (name : string) : DirEntry := mkDirEntry name false.
Definition subdirectory (name : string) : DirEntry := mkDirEntry name true.

(** A base-10 integer as [strconv.Atoi] reads it: decimal digits,
    at least one, after an optional sign. *)
Definition isInteger (s : string) : Prop :=
  exists sign digits,
    s = sign ++ digits
    /\ (sign = EmptyString \/ sign = "+" \/ sign = "-")
    /\ digits <> EmptyString
    /\ all_chars isDigit digits = true.

(** Files [<key>-<name>.sql] for a list of keys and names. *)
Definition numbered (l : list (Z * string)) : list ddlFile :=
  map (fun kn => mkDdlFile (strconv.Itoa (fst kn) ++ "-" ++ snd kn ++ ".sql") (fst kn)) l.
(** ** Further notions *)

(** [k] zeros. *)
Fixpoint zeros (k : nat) : string :=
  match k with
  | O => EmptyString
  | S k' => String "0" (zeros k')
  end.

(** The entries of a listing that are files. *)
Definition fileEntries (entries : list DirEntry) : list DirEntry :=
  filter (fun e => negb (IsDir e)) entries.

(** An index of the slice. *)
Definition inRange (bfn : byFileNumber) (i : Z) : Prop :=
  0 <= i < byFileNumber_Len bfn.

(** No character of [s] is one of [set]. *)
Definition noneOf (set : string) (s : string) : bool :=
  all_chars (fun c => negb (url.oneOf c set)) s.

(** The configuration with another password. *)
Definition withConfigPassword (f : ConfigFile.t) (pw : string) : ConfigFile.t :=
  let c := ConfigFile.config f in
  let db := ConfigFile.database c in
  ConfigFile.mk
    (ConfigFile.mkConfig
       (ConfigFile.mkDatabase (ConfigFile.Host db) (ConfigFile.Port db) (ConfigFile.Name db)
          (ConfigFile.User db) pw (ConfigFile.SearchPath db))
       (ConfigFile.MigrationScriptsDir c)).

(** The command lines of the targets. *)
Definition cueVet (profile : string) : sh.command :=
  sh.mkCommand "cue" ["vet"; "./config/cue/schema.cue"; "./config/cue/" ++ profile ++ ".cue"].

Definition cueFmt (profile : string) : sh.command :=
  sh.mkCommand "cue" ["fmt"; "./config/cue/schema.cue"; "./config/cue/" ++ profile ++ ".cue"].

Definition cueExport (profile : string) : sh.command :=
  sh.mkCommand "cue"
    ["export"; "./config/cue/schema.cue"; "./config/cue/" ++ profile ++ ".cue";
     "--force"; "--out"; "json"; "--outfile"; "./config/" ++ profile ++ ".json"].

Definition psql (args : list string) : sh.command := sh.mkCommand "psql" args.

(** A shell in which every command succeeds, and one in which the
    commands whose first argument is [verb] fail. *)
Definition allSucceed (ran : list sh.command) (c : sh.command) : outcome unit := Returns tt.

Definition failsAt (verb : string) (ran : list sh.command) (c : sh.command) : outcome unit :=
  match sh.args c with
  | v :: _ => if String.eqb v verb then Fails (errorString "exit status 1") else Returns tt
  | [] => Returns tt
  end.

(** A base-10 integer, decided: digits, at least one, after an
    optional sign. *)
Definition isIntegerb (s : string) : bool :=
  match s with
  | EmptyString => false
  | String c s' =>
      if Ascii.eqb c "+" || Ascii.eqb c "-"
      then url.nonEmpty s' && all_chars isDigit s'
      else all_chars isDigit s
  end.

(** The datasource name with another search path. *)
Definition withSearchPath (dsn : PostgreSQLDSN) (sp : string) : PostgreSQLDSN :=
  mkPostgreSQLDSN (Host dsn) (Port dsn) (DBName dsn) sp (User dsn) (Password dsn).

(** A file system that has every file, each with the same contents but
    [./config/local.json], and a decoder for the configuration with a
    password. *)
Definition full_ReadFile (name : string) : outcome string :=
  if String.eqb name "./config/local.json" then Returns "local config"
  else Returns "{}".

Definition secret_Unmarshal (b : string) : outcome ConfigFile.t :=
  if String.eqb b "local config" then Returns (withConfigPassword localConfig "secret")
  else Fails (jsonError "invalid character").

(** Every directory with the given entries. *)
Definition any_ReadDir (entries : list DirEntry) (name : string)
  : outcome (list DirEntry) := Returns entries.
(** * Facts about the library models *)

(** ** Strings *)

Lemma append_nil_r (s : string) : s ++ EmptyString = s.
Proof. induction s as [|c s IH]; cbn; [reflexivity | now rewrite IH]. Qed.

Lemma append_assoc (s t u : string) : (s ++ t) ++ u = s ++ (t ++ u).
Proof. induction s as [|c s IH]; cbn; [reflexivity | now rewrite IH]. Qed.

Lemma length_append (s t : string) :
  String.length (s ++ t) = (String.length s + String.length t)%nat.
Proof. induction s as [|c s IH]; cbn; [reflexivity | now rewrite IH]. Qed.

Lemma substring_0_append (s t : string) :
  substring 0 (String.length s) (s ++ t) = s.
Proof.
  induction s as [|c s IH]; cbn.
  - now destruct t.
  - now rewrite IH.
Qed.

(** Strings put in right-nested form, literals unfolded. *)
Ltac norm_string :=
  repeat (progress (cbn; rewrite ?append_assoc, ?append_nil_r)).

Lemma all_chars_append p s t :
  all_chars p (s ++ t) = all_chars p s && all_chars p t.
Proof.
  induction s as [|c s IH]; cbn; [reflexivity|].
  now rewrite IH, andb_assoc.
Qed.

(** ** [strconv.Itoa] *)

Lemma string_of_uint_digits (d : Decimal.uint) :
  all_chars isDigit (NilEmpty.string_of_uint d) = true.
Proof. induction d; cbn; auto. Qed.

Lemma Itoa_chars (i : Z) :
  all_chars (fun c => isDigit c || Ascii.eqb c "-") (strconv.Itoa i) = true.
Proof.
  assert (D : forall d, all_chars (fun c => isDigit c || Ascii.eqb c "-")
                          (NilZero.string_of_uint d) = true).
  { intros d. assert (E := string_of_uint_digits d).
    assert (M : forall s, all_chars isDigit s = true ->
                all_chars (fun c => isDigit c || Ascii.eqb c "-") s = true).
    { induction s as [|c s IH]; cbn; [reflexivity|].
      intros A. apply andb_true_iff in A as [A1 A2].
      now rewrite A1, IH. }
    destruct d; cbn; try reflexivity; apply (M _ E). }
  unfold strconv.Itoa, NilZero.string_of_int.
  destruct (Z.to_int i) as [d|d]; [apply D|].
  cbn [all_chars]. now rewrite D.
Qed.

(** ** [net/url] escaping *)

Lemma escape_append (s t : string) (mode : url.encoding) :
  url.escape (s ++ t) mode = url.escape s mode ++ url.escape t mode.
Proof.
  induction s as [|c s IH]; cbn; [reflexivity|].
  rewrite IH. destruct (url.shouldEscape c mode); [|reflexivity].
  destruct mode; cbn; try reflexivity.
  destruct (Ascii.eqb c " "); reflexivity.
Qed.

Lemma escape_id (s : string) (mode : url.encoding) :
  all_chars (fun c => negb (url.shouldEscape c mode)) s = true ->
  url.escape s mode = s.
Proof.
  induction s as [|c s IH]; cbn; [reflexivity|].
  intros A. apply andb_true_iff in A as [A1 A2].
  apply negb_true_iff in A1. rewrite A1, IH; auto.
Qed.

Lemma all_chars_impl (p q : ascii -> bool) (s : string) :
  (forall c, p c = true -> q c = true) ->
  all_chars p s = true -> all_chars q s = true.
Proof.
  intros I. induction s as [|c s IH]; cbn; [reflexivity|].
  intros A. apply andb_true_iff in A as [A1 A2].
  now rewrite (I _ A1), IH.
Qed.

Lemma host_keeps_digits (c : ascii) :
  isDigit c || Ascii.eqb c "-" = true ->
  negb (url.shouldEscape c url.encodeHost) = true.
Proof.
  destruct c as [[] [] [] [] [] [] [] []]; vm_compute; congruence.
Qed.

Lemma escape_host_Itoa (i : Z) :
  url.escape (strconv.Itoa i) url.encodeHost = strconv.Itoa i.
Proof.
  apply escape_id.
  apply (all_chars_impl _ _ _ host_keeps_digits), Itoa_chars.
Qed.


Lemma nonEmpty_eqb s : url.nonEmpty s = negb (String.eqb s EmptyString).
Proof. reflexivity. Qed.


Lemma nonEmpty_escape s mode : url.nonEmpty (url.escape s mode) = url.nonEmpty s.
Proof.
  destruct s as [|c s]; cbn; [reflexivity|].
  destruct (url.shouldEscape c mode); [|reflexivity].
  destruct mode; try reflexivity. destruct (Ascii.eqb c " "); reflexivity.
Qed.

Lemma startsWithSlash_escape_path s :
  url.startsWithSlash (url.escape s url.encodePath) = url.startsWithSlash s.
Proof.
  destruct s as [|c s]; cbn; [reflexivity|].
  destruct (url.shouldEscape c url.encodePath) eqn:E; [|reflexivity].
  cbn. destruct (Ascii.eqb_spec c "/") as [->|N]; [discriminate E | reflexivity].
Qed.

Lemma nonEmpty_escapedName p : url.nonEmpty (escapedName p) = url.nonEmpty p.
Proof.
  unfold escapedName. destruct (String.eqb_spec p "*") as [->|N];
    [reflexivity | apply nonEmpty_escape].
Qed.

Lemma startsWithSlash_escapedName p :
  url.startsWithSlash (escapedName p) = url.startsWithSlash p.
Proof.
  unfold escapedName. destruct (String.eqb_spec p "*") as [->|N];
    [reflexivity | apply startsWithSlash_escape_path].
Qed.

(** The query of a URL whose only parameter is [options]. *)
Lemma Encode_options (value : string) :
  url.Encode (url.Set_ [] "options" value) = "options=" ++ url.QueryEscape value.
Proof. reflexivity. Qed.

Lemma QueryEscape_search_path (sp : string) :
  url.QueryEscape ("-csearch_path=" ++ sp) = "-csearch_path%3D" ++ url.QueryEscape sp.
Proof. unfold url.QueryEscape. rewrite escape_append. reflexivity. Qed.
(** ** [strings.Index] with the separator of the file names *)

Lemma prefix_dash (c : ascii) (t : string) :
  prefix "-" (String c t) = Ascii.eqb c "-".
Proof.
  change (prefix "-" (String c t))
    with (if ascii_dec "-" c then prefix EmptyString t else false).
  destruct (ascii_dec "-" c) as [<-|N].
  - now destruct t.
  - symmetry. apply Ascii.eqb_neq. congruence.
Qed.

Lemma index_0_String (sub : string) (c : ascii) (t : string) :
  String.index 0 sub (String c t)
  = if prefix sub (String c t) then Some 0%nat
    else match String.index 0 sub t with
         | Some n => Some (S n)
         | None => None
         end.
Proof. reflexivity. Qed.

Lemma index_dash_append (s rest : string) :
  all_chars notDash s = true ->
  String.index 0 "-" (s ++ String "-" rest) = Some (String.length s).
Proof.
  induction s as [|c s IH]; intros A.
  - change (EmptyString ++ String "-" rest) with (String "-" rest).
    now rewrite index_0_String, prefix_dash.
  - change (all_chars notDash (String c s))
      with (notDash c && all_chars notDash s) in A.
    apply andb_true_iff in A as [A1 A2].
    change (String c s ++ String "-" rest) with (String c (s ++ String "-" rest)).
    rewrite index_0_String, prefix_dash.
    unfold notDash in A1. apply negb_true_iff in A1. rewrite A1.
    now rewrite (IH A2).
Qed.

Lemma index_dash_absent (s : string) :
  all_chars notDash s = true -> String.index 0 "-" s = None.
Proof.
  induction s as [|c s IH]; intros A; [reflexivity|].
  change (all_chars notDash (String c s))
    with (notDash c && all_chars notDash s) in A.
  apply andb_true_iff in A as [A1 A2].
  rewrite index_0_String, prefix_dash.
  unfold notDash in A1. apply negb_true_iff in A1. rewrite A1.
  now rewrite (IH A2).
Qed.

Lemma Index_dash_append (s rest : string) :
  all_chars notDash s = true ->
  strings.Index (s ++ String "-" rest) "-" = len s.
Proof. intros A. unfold strings.Index. now rewrite index_dash_append. Qed.

Lemma Index_dash_absent (s : string) :
  all_chars notDash s = true -> strings.Index s "-" = -1.
Proof. intros A. unfold strings.Index. now rewrite index_dash_absent. Qed.

Lemma slice_to_append (s t : string) : slice_to (s ++ t) (len s) = Returns s.
Proof.
  unfold slice_to, len. rewrite length_append, Nat2Z.id, substring_0_append.
  replace (Z.of_nat (String.length s) <? 0) with false by (symmetry; apply Z.ltb_ge; lia).
  replace (Z.of_nat (String.length s + String.length t) <? Z.of_nat (String.length s))
    with false by (symmetry; apply Z.ltb_ge; lia).
  reflexivity.
Qed.

(** ** [strconv.Atoi] on decimal digits *)

Lemma isDigit_range (c : ascii) :
  isDigit c = true -> 48 <= strconv.byte_of c <= 57.
Proof. unfold isDigit. intros D. apply andb_true_iff in D. lia. Qed.

Lemma isDigit_not_sign (c : ascii) :
  isDigit c = true -> Ascii.eqb c "-" = false /\ Ascii.eqb c "+" = false.
Proof.
  intros D. split; apply Ascii.eqb_neq; intros ->; discriminate D.
Qed.

Lemma digits_notDash (s : string) :
  all_chars isDigit s = true -> all_chars notDash s = true.
Proof.
  apply all_chars_impl. intros c D. unfold notDash.
  now rewrite (proj1 (isDigit_not_sign c D)).
Qed.

Lemma decimal_from_ge (s : string) (n : Z) :
  all_chars isDigit s = true -> 0 <= n -> n <= decimal_from s n.
Proof.
  revert n. induction s as [|c s IH]; intros n A N; cbn; [lia|].
  cbn in A. apply andb_true_iff in A as [A1 A2].
  apply isDigit_range in A1.
  specialize (IH (n * 10 + (strconv.byte_of c - 48)) A2). lia.
Qed.

Lemma atoi_fast_loop_digits (s : string) (n : Z) :
  all_chars isDigit s = true ->
  strconv.atoi_fast_loop s n = Some (decimal_from s n).
Proof.
  revert n. induction s as [|c s IH]; intros n A; cbn; [reflexivity|].
  cbn in A. apply andb_true_iff in A as [A1 A2].
  apply isDigit_range in A1.
  unfold strconv.sub_zero.
  rewrite Z.mod_small by lia.
  replace (9 <? strconv.byte_of c - 48) with false by (symmetry; apply Z.ltb_ge; lia).
  now apply IH.
Qed.

Lemma parseUint_loop_digits (s : string) (n : Z) :
  all_chars isDigit s = true -> 0 <= n ->
  decimal_from s n <= strconv.maxUint64 ->
  strconv.parseUint_loop s n = inr (decimal_from s n).
Proof.
  revert n. induction s as [|c s IH]; intros n A N M; cbn [strconv.parseUint_loop decimal_from];
    [reflexivity|].
  cbn [all_chars] in A. apply andb_true_iff in A as [A1 A2].
  fold (isDigit c). rewrite A1.
  apply isDigit_range in A1.
  cbn [decimal_from] in M.
  assert (G := decimal_from_ge s (n * 10 + (strconv.byte_of c - 48)) A2 ltac:(lia)).
  unfold strconv.maxUint64 in *.
  assert (C : n < strconv.cutoff10).
  { unfold strconv.cutoff10, strconv.maxUint64.
    change ((2 ^ 64 - 1) / 10 + 1) with 1844674407370955162.
    change (2 ^ 64 - 1) with 18446744073709551615 in *. lia. }
  replace (strconv.cutoff10 <=? n) with false by (symmetry; apply Z.leb_gt; lia).
  cbv zeta.
  rewrite Z.mod_small by (change (2 ^ 64) with 18446744073709551616 in *; lia).
  replace (n * 10 + (strconv.byte_of c - 48) <? n * 10) with false
    by (symmetry; apply Z.ltb_ge; lia).
  replace (2 ^ 64 - 1 <? n * 10 + (strconv.byte_of c - 48)) with false
    by (symmetry; apply Z.ltb_ge; lia).
  cbn [orb]. apply IH; [assumption | lia | assumption].
Qed.

Lemma Atoi_digits (s : string) :
  s <> EmptyString -> all_chars isDigit s = true -> decimal s <= maxInt ->
  strconv.Atoi s = Returns (decimal s).
Proof.
  intros NE A M. unfold strconv.Atoi.
  destruct s as [|c s]; [congruence|].
  assert (A' := A). cbn [all_chars] in A'. apply andb_true_iff in A' as [A1 A2].
  destruct (isDigit_not_sign c A1) as [S1 S2].
  destruct ((0 <? len (String c s)) && (len (String c s) <? 19)).
  - rewrite S1, S2. cbn [orb andb].
    rewrite atoi_fast_loop_digits by assumption. reflexivity.
  - unfold strconv.ParseInt10. rewrite S1, S2. cbn [orb negb andb].
    unfold strconv.ParseUint10.
    unfold maxInt, strconv.intSize in M. change (2 ^ (64 - 1) - 1) with 9223372036854775807 in M.
    rewrite parseUint_loop_digits;
      [| assumption | lia
       | fold (decimal (String c s)); unfold strconv.maxUint64;
         change (2 ^ 64 - 1) with 18446744073709551615; lia].
    fold (decimal (String c s)).
    unfold strconv.intSize. change (2 ^ (64 - 1)) with 9223372036854775808.
    replace (9223372036854775808 <=? decimal (String c s)) with false
      by (symmetry; apply Z.leb_gt; lia).
    reflexivity.
Qed.

Lemma Atoi_plus_digits (s : string) :
  s <> EmptyString -> all_chars isDigit s = true -> decimal s <= maxInt ->
  strconv.Atoi (String "+" s) = Returns (decimal s).
Proof.
  intros NE A M. unfold strconv.Atoi.
  destruct ((0 <? len (String "+" s)) && (len (String "+" s) <? 19)).
  - cbn [Ascii.eqb Bool.eqb orb andb].
    assert (L : (len s <? 1) = false).
    { destruct s; [congruence|]. unfold len. cbn [String.length]. apply Z.ltb_ge. lia. }
    change ((("+" =? "-")%char || ("+" =? "+")%char)) with true. cbn iota.
    rewrite L. cbn [andb].
    rewrite atoi_fast_loop_digits by assumption. reflexivity.
  - unfold strconv.ParseInt10.
    change (("+" =? "-")%char) with false. change (("+" =? "+")%char) with true.
    cbn [orb negb andb].
    unfold strconv.ParseUint10.
    unfold maxInt, strconv.intSize in M. change (2 ^ (64 - 1) - 1) with 9223372036854775807 in M.
    destruct s as [|c s]; [congruence|].
    rewrite parseUint_loop_digits;
      [| assumption | lia
       | fold (decimal (String c s)); unfold strconv.maxUint64;
         change (2 ^ 64 - 1) with 18446744073709551615; lia].
    fold (decimal (String c s)).
    unfold strconv.intSize. change (2 ^ (64 - 1)) with 9223372036854775808.
    replace (9223372036854775808 <=? decimal (String c s)) with false
      by (symmetry; apply Z.leb_gt; lia).
    reflexivity.
Qed.

(** What [strconv.Atoi] turns into a number is an integer in base 10. *)

Lemma byte_of_range (c : ascii) : 0 <= strconv.byte_of c < 256.
Proof. unfold strconv.byte_of. assert (B := nat_ascii_bounded c). lia. Qed.

Lemma atoi_fast_loop_Some (s : string) (n m : Z) :
  strconv.atoi_fast_loop s n = Some m -> all_chars isDigit s = true.
Proof.
  revert n. induction s as [|c s IH]; intros n E; [reflexivity|].
  cbn [strconv.atoi_fast_loop] in E. cbv zeta in E.
  destruct (Z.ltb_spec 9 (strconv.sub_zero c)) as [|Le]; [discriminate|].
  cbn [all_chars]. rewrite (IH _ E), andb_true_r.
  unfold isDigit. unfold strconv.sub_zero in Le.
  assert (B := byte_of_range c).
  apply andb_true_iff. split; [apply Z.leb_le | apply Z.leb_le];
    Z.to_euclidean_division_equations; lia.
Qed.

Lemma parseUint_loop_inr (s : string) (n m : Z) :
  strconv.parseUint_loop s n = inr m -> all_chars isDigit s = true.
Proof.
  revert n. induction s as [|c s IH]; intros n E; [reflexivity|].
  cbn [strconv.parseUint_loop] in E. cbn [all_chars]. fold (isDigit c) in E.
  destruct (isDigit c); [|discriminate]. cbn [andb].
  destruct (strconv.cutoff10 <=? n); [discriminate|]. cbv zeta in E.
  match type of E with (if ?t then _ else _) = _ => destruct t end; [discriminate|].
  apply (IH _ E).
Qed.

Lemma Atoi_Returns_isInteger (s : string) (v : Z) :
  strconv.Atoi s = Returns v -> isInteger s.
Proof.
  unfold strconv.Atoi. intros E.
  destruct ((0 <? len s) && (len s <? 19)).
  - destruct s as [|c s]; [discriminate|].
    set (signed := ((c =? "-")%char || (c =? "+")%char)) in *.
    assert (Sg : signed = true -> c = "+"%char \/ c = "-"%char).
    { unfold signed. intros O. apply orb_true_iff in O as [O | O];
        apply Ascii.eqb_eq in O; auto. }
    destruct signed.
    + cbn [andb] in E.
      destruct (Z.ltb_spec (len s) 1) as [|L]; [discriminate|].
      destruct (strconv.atoi_fast_loop s 0) eqn:A; [|discriminate].
      exists (String c EmptyString), s. split; [reflexivity|].
      split; [destruct (Sg eq_refl) as [-> | ->]; auto|].
      split; [intros ->; unfold len in L; cbn in L; lia|].
      apply (atoi_fast_loop_Some _ _ _ A).
    + cbn [andb] in E.
      destruct (strconv.atoi_fast_loop (String c s) 0) eqn:A; [|discriminate].
      exists EmptyString, (String c s). split; [reflexivity|].
      split; [auto|]. split; [discriminate|].
      apply (atoi_fast_loop_Some _ _ _ A).
  - destruct (strconv.ParseInt10 s) as [e|i64] eqn:P; [discriminate|].
    unfold strconv.ParseInt10 in P.
    destruct s as [|c s]; [discriminate|].
    set (signed := ((c =? "+")%char || (c =? "-")%char)) in *.
    assert (Sg : signed = true -> c = "+"%char \/ c = "-"%char).
    { unfold signed. intros O. apply orb_true_iff in O as [O | O];
        apply Ascii.eqb_eq in O; auto. }
    destruct (strconv.ParseUint10 (if signed then s else String c s)) as [e|un] eqn:U;
      [discriminate|].
    unfold strconv.ParseUint10 in U.
    destruct signed.
    + destruct s as [|d s]; [discriminate|].
      exists (String c EmptyString), (String d s). split; [reflexivity|].
      split; [destruct (Sg eq_refl) as [-> | ->]; auto|].
      split; [discriminate|].
      apply (parseUint_loop_inr _ _ _ U).
    + exists EmptyString, (String c s). split; [reflexivity|].
      split; [auto|]. split; [discriminate|].
      apply (parseUint_loop_inr _ _ _ U).
Qed.

(** [decimal] reads back what [strconv.Itoa] prints. *)

Lemma decimal_from_of_uint_acc (d : Decimal.uint) (acc : positive) :
  decimal_from (NilEmpty.string_of_uint d) (Z.pos acc) = Z.pos (Pos.of_uint_acc d acc).
Proof.
  revert acc. induction d; intros acc; cbn [NilEmpty.string_of_uint decimal_from Pos.of_uint_acc];
    [reflexivity | ..];
    match goal with
    | |- decimal_from _ ?n = Z.pos (Pos.of_uint_acc _ ?a) =>
        replace n with (Z.pos a) by (vm_compute strconv.byte_of; lia)
    end; apply IHd.
Qed.

Lemma decimal_from_of_uint (d : Decimal.uint) :
  decimal_from (NilEmpty.string_of_uint d) 0 = Z.of_uint d.
Proof.
  unfold Z.of_uint.
  induction d; cbn [NilEmpty.string_of_uint decimal_from Pos.of_uint];
    [reflexivity | exact IHd | ..];
    match goal with
    | |- decimal_from _ ?n = Z.of_N (N.pos (Pos.of_uint_acc _ ?a)) =>
        replace n with (Z.pos a) by (vm_compute; reflexivity)
    end; apply decimal_from_of_uint_acc.
Qed.

Lemma decimal_Itoa (n : Z) : 0 <= n -> decimal (strconv.Itoa n) = n.
Proof.
  intros N. destruct n as [|p|p]; [reflexivity | | lia].
  unfold decimal, strconv.Itoa. cbn [Z.to_int NilZero.string_of_int].
  assert (E := DecimalZ.of_to (Z.pos p)). cbn [Z.to_int Z.of_int] in E.
  transitivity (Z.of_uint (Pos.to_uint p)); [|exact E].
  destruct (Pos.to_uint p) eqn:U; rewrite <- decimal_from_of_uint; reflexivity.
Qed.

Lemma Itoa_digits (n : Z) :
  0 <= n -> strconv.Itoa n <> EmptyString /\ all_chars isDigit (strconv.Itoa n) = true.
Proof.
  intros N. unfold strconv.Itoa.
  destruct n as [|p|p]; [split; [discriminate | reflexivity] | | lia].
  cbn [Z.to_int NilZero.string_of_int].
  assert (D := string_of_uint_digits (Pos.to_uint p)).
  destruct (Pos.to_uint p) eqn:U; cbn [NilZero.string_of_uint]; split;
    try discriminate; try reflexivity; exact D.
Qed.
(** ** [newDDLFile] *)

(** A name without the separator: the slice expression panics. *)
Lemma newDDLFile_no_separator (f : string) :
  all_chars notDash f = true ->
  newDDLFile f = Panics (sliceBoundsOutOfRange (-1) (len f)).
Proof.
  intros A. unfold newDDLFile. rewrite Index_dash_absent by assumption.
  reflexivity.
Qed.

(** A name with the separator: what [strconv.Atoi] says of the part
    before the first separator decides. *)
Lemma newDDLFile_split (pre rest : string) :
  all_chars notDash pre = true ->
  newDDLFile (pre ++ String "-" rest)
  = (fn <- strconv.Atoi pre ;; Returns (mkDdlFile (pre ++ String "-" rest) fn)).
Proof.
  intros A. unfold newDDLFile.
  rewrite Index_dash_append by assumption.
  rewrite slice_to_append. reflexivity.
Qed.

(** [strconv.Atoi] returns a number or a [NumError]; it does not panic. *)
Lemma Atoi_total (s : string) :
  (exists v, strconv.Atoi s = Returns v)
  \/ (exists k, strconv.Atoi s = Fails (NumError "Atoi" s k)).
Proof.
  unfold strconv.Atoi.
  destruct ((0 <? len s) && (len s <? 19)).
  - destruct s as [|c s]; [right; eexists; reflexivity|].
    destruct (((c =? "-")%char || (c =? "+")%char)
              && (len (if (c =? "-")%char || (c =? "+")%char then s else String c s) <? 1));
      [right; eexists; reflexivity|].
    destruct (strconv.atoi_fast_loop _ 0); [left | right]; eexists; reflexivity.
  - destruct (strconv.ParseInt10 s); [right | left]; eexists; reflexivity.
Qed.

(** A name with the separator whose part before it is no integer in
    base 10: the error of [strconv.Atoi] is returned. *)
Lemma newDDLFile_bad_prefix (pre rest : string) :
  all_chars notDash pre = true -> ~ isInteger pre ->
  exists k, newDDLFile (pre ++ String "-" rest) = Fails (NumError "Atoi" pre k).
Proof.
  intros A N. rewrite newDDLFile_split by assumption.
  destruct (Atoi_total pre) as [[v E] | [k E]].
  - exfalso. apply N. apply (Atoi_Returns_isInteger pre v E).
  - exists k. now rewrite E.
Qed.

(** Every name splits at its first separator, if it has one. *)
Lemma split_at_dash (f : string) :
  all_chars notDash f = true
  \/ exists pre rest, f = pre ++ String "-" rest /\ all_chars notDash pre = true.
Proof.
  induction f as [|c f IH]; [left; reflexivity|].
  destruct (Ascii.eqb_spec c "-") as [->|N].
  - right. exists EmptyString, f. split; reflexivity.
  - assert (D : notDash c = true)
      by (unfold notDash; apply negb_true_iff, Ascii.eqb_neq, N).
    destruct IH as [A | (pre & rest & -> & A)].
    + left. cbn [all_chars]. now rewrite D, A.
    + right. exists (String c pre), rest. split; [reflexivity|].
      cbn [all_chars]. now rewrite D, A.
Qed.

(** [newDDLFile] never runs out of fuel: it has no loop of its own. *)
Lemma newDDLFile_outcomes (f : string) :
  (exists df, newDDLFile f = Returns df)
  \/ (exists err, newDDLFile f = Fails err)
  \/ (exists p, newDDLFile f = Panics p).
Proof.
  destruct (split_at_dash f) as [A | (pre & rest & -> & A)].
  - right; right. eexists. now apply newDDLFile_no_separator.
  - rewrite newDDLFile_split by assumption.
    destruct (Atoi_total pre) as [[v E] | [k E]]; rewrite E.
    + left. eexists; reflexivity.
    + right; left. eexists; reflexivity.
Qed.

(** ** The loop of [readDDLFiles] *)

Lemma readDDLFiles_loop_parsed (files : list DirEntry) (dfs acc : list ddlFile) :
  parsedFiles files = Some dfs ->
  readDDLFiles_loop files acc = Returns (acc ++ dfs)%list.
Proof.
  revert dfs acc. induction files as [|e files IH]; intros dfs acc P; cbn in *.
  - injection P as <-. now rewrite app_nil_r.
  - destruct (IsDir e); [now apply IH|].
    destruct (newDDLFile (Name e)) as [df| | |]; try discriminate.
    destruct (parsedFiles files) as [dfs'|]; [|discriminate].
    injection P as <-. cbn [bind]. unfold append.
    rewrite (IH dfs' _ eq_refl), <- app_assoc. reflexivity.
Qed.

Lemma parsedFiles_all_dirs (files : list DirEntry) :
  (forall e, In e files -> IsDir e = true) -> parsedFiles files = Some [].
Proof.
  induction files as [|e files IH]; intros D; cbn; [reflexivity|].
  rewrite (D e (or_introl eq_refl)). apply IH. intros e' I. apply D. now right.
Qed.

(** The loop stops at the first file that does not parse, with what
    [newDDLFile] did on it. *)
Lemma readDDLFiles_loop_first_failure
    (l1 : list DirEntry) (bad : DirEntry) (l2 : list DirEntry) (acc : list ddlFile) :
  Forall parses l1 -> IsDir bad = false ->
  (forall err, newDDLFile (Name bad) = Fails err ->
     readDDLFiles_loop (l1 ++ bad :: l2) acc = Fails err)
  /\ (forall p, newDDLFile (Name bad) = Panics p ->
     readDDLFiles_loop (l1 ++ bad :: l2) acc = Panics p).
Proof.
  intros F B. revert acc.
  induction F as [|e l1 [D | [df E]] _ IH]; intros acc; cbn [app readDDLFiles_loop].
  - rewrite B. split; intros x E; rewrite E; reflexivity.
  - rewrite D. apply IH.
  - destruct (IsDir e); [apply IH|]. rewrite E. cbn [bind]. apply IH.
Qed.


(** [sort.Sort] leaves a slice of at most one file alone. *)
Lemma Sort_short (l : byFileNumber) :
  (List.length l <= 1)%nat -> sort.Sort l = Returns l.
Proof.
  intros L. unfold sort.Sort. cbn [sort.Len byFileNumber_Interface].
  unfold byFileNumber_Len.
  replace (Z.of_nat (List.length l) <=? 1) with true by (symmetry; apply Z.leb_le; lia).
  reflexivity.
Qed.
(** ** Slices as arrays: [Less] and [Swap] of [byFileNumber] *)

Lemma length_update {A : Type} (s : list A) (n : nat) (x : A) :
  List.length (update s n x) = List.length s.
Proof.
  revert n. induction s as [|y s IH]; intros [|n]; cbn; auto.
Qed.

Lemma nth_update {A : Type} (s : list A) (n m : nat) (x d : A) :
  (n < List.length s)%nat ->
  nth m (update s n x) d = if Nat.eqb m n then x else nth m s d.
Proof.
  revert n m. induction s as [|y s IH]; intros [|n] [|m] L; cbn in *;
    try lia; try reflexivity.
  apply IH. lia.
Qed.

Lemma index_spec (l : list ddlFile) (i : Z) :
  0 <= i < size l -> index l i = Returns (at_ l i).
Proof.
  intros R. unfold index, at_, size in *.
  replace (i <? 0) with false by (symmetry; apply Z.ltb_ge; lia).
  destruct (nth_error l (Z.to_nat i)) as [x|] eqn:E.
  - now rewrite (nth_error_nth _ _ zeroFile E).
  - apply nth_error_None in E. lia.
Qed.

Lemma store_spec (l : list ddlFile) (i : Z) (x : ddlFile) :
  0 <= i < size l -> store l i x = Returns (update l (Z.to_nat i) x).
Proof.
  intros R. unfold store, size in *.
  replace (i <? 0) with false by (symmetry; apply Z.ltb_ge; lia).
  replace (Z.of_nat (List.length l) <=? i) with false by (symmetry; apply Z.leb_gt; lia).
  reflexivity.
Qed.

Lemma size_update (l : list ddlFile) (n : nat) (x : ddlFile) :
  size (update l n x) = size l.
Proof. unfold size. now rewrite length_update. Qed.

Lemma size_swapped (l : list ddlFile) (i j : Z) : size (swapped l i j) = size l.
Proof. unfold swapped. now rewrite !size_update. Qed.

Lemma Less_spec (l : byFileNumber) (i j : Z) :
  0 <= i < size l -> 0 <= j < size l ->
  sort.Less l i j = Returns (key l i <? key l j).
Proof.
  intros I J. cbn [sort.Less byFileNumber_Interface]. unfold byFileNumber_Less.
  rewrite (index_spec l i I), (index_spec l j J). reflexivity.
Qed.

Lemma Swap_spec (l : byFileNumber) (i j : Z) :
  0 <= i < size l -> 0 <= j < size l ->
  sort.Swap l i j = Returns (swapped l i j).
Proof.
  intros I J. cbn [sort.Swap byFileNumber_Interface]. unfold byFileNumber_Swap.
  rewrite (index_spec l j J), (index_spec l i I). cbn [bind].
  rewrite (store_spec l i _ I). cbn [bind].
  rewrite store_spec by (rewrite size_update; exact J).
  reflexivity.
Qed.

Lemma at_swapped (l : list ddlFile) (i j k : Z) :
  0 <= i < size l -> 0 <= j < size l -> 0 <= k ->
  at_ (swapped l i j) k
  = if k =? j then at_ l i else if k =? i then at_ l j else at_ l k.
Proof.
  intros I J K. unfold swapped, at_, size in *.
  rewrite nth_update by (rewrite length_update; lia).
  rewrite nth_update by lia.
  destruct (Z.eqb_spec k j) as [->|N1].
  - now rewrite Nat.eqb_refl.
  - replace (Nat.eqb (Z.to_nat k) (Z.to_nat j)) with false
      by (symmetry; apply Nat.eqb_neq; lia).
    destruct (Z.eqb_spec k i) as [->|N2].
    + now rewrite Nat.eqb_refl.
    + replace (Nat.eqb (Z.to_nat k) (Z.to_nat i)) with false
        by (symmetry; apply Nat.eqb_neq; lia).
      reflexivity.
Qed.

Lemma key_swapped (l : list ddlFile) (i j k : Z) :
  0 <= i < size l -> 0 <= j < size l -> 0 <= k ->
  key (swapped l i j) k
  = if k =? j then key l i else if k =? i then key l j else key l k.
Proof.
  intros I J K. unfold key. rewrite at_swapped by assumption.
  destruct (k =? j), (k =? i); reflexivity.
Qed.

Lemma Permutation_update_cons (t : list ddlFile) (n : nat) (x : ddlFile) :
  (n < List.length t)%nat ->
  Permutation (nth n t zeroFile :: update t n x) (x :: t).
Proof.
  revert n. induction t as [|h t IH]; intros [|n] L; cbn in *; try lia.
  - apply perm_swap.
  - rewrite perm_swap. rewrite (IH n) by lia. apply perm_swap.
Qed.

Lemma Permutation_swapped (l : list ddlFile) (i j : Z) :
  0 <= i < size l -> 0 <= j < size l -> Permutation l (swapped l i j).
Proof.
  intros I J. unfold swapped, at_, size in *.
  assert (G : forall (l : list ddlFile) (n m : nat),
             (n < List.length l)%nat -> (m < List.length l)%nat ->
             Permutation l (update (update l n (nth m l zeroFile)) m (nth n l zeroFile))).
  { clear. induction l as [|h t IH]; intros [|n] [|m] Ln Lm; cbn in *; try lia.
    - reflexivity.
    - symmetry. apply Permutation_update_cons. lia.
    - symmetry. apply Permutation_update_cons. lia.
    - constructor. apply IH; lia. }
  apply G; lia.
Qed.

(** ** Runs of swaps inside a range *)

Lemma swaps_one (a b : Z) (l : list ddlFile) (i j : Z) :
  a <= i < b -> a <= j < b -> 0 <= i < size l -> 0 <= j < size l ->
  swaps a b l (swapped l i j).
Proof. intros. apply (swaps_step a b l _ i j); auto. apply swaps_refl. Qed.

Lemma swaps_trans (a b : Z) (l1 l2 l3 : list ddlFile) :
  swaps a b l1 l2 -> swaps a b l2 l3 -> swaps a b l1 l3.
Proof.
  induction 1 as [l | l l' i j Hi Hj Ri Rj S IH]; intros T; [assumption|].
  apply (swaps_step a b l _ i j); auto.
Qed.

Lemma swaps_weaken (a b a' b' : Z) (l l' : list ddlFile) :
  a' <= a -> b <= b' -> swaps a b l l' -> swaps a' b' l l'.
Proof.
  intros A B. induction 1 as [l | l l' i j Hi Hj Ri Rj S IH]; [apply swaps_refl|].
  apply (swaps_step a' b' l _ i j); auto; lia.
Qed.

Lemma swaps_size (a b : Z) (l l' : list ddlFile) :
  swaps a b l l' -> size l' = size l.
Proof.
  induction 1; [reflexivity|]. now rewrite IHswaps, size_swapped.
Qed.

Lemma swaps_Permutation (a b : Z) (l l' : list ddlFile) :
  swaps a b l l' -> Permutation l l'.
Proof.
  induction 1 as [l | l l' i j Hi Hj Ri Rj S IH]; [reflexivity|].
  etransitivity; [apply (Permutation_swapped l i j)|]; auto.
Qed.

(** Outside the range nothing moves. *)
Lemma swaps_frame (a b : Z) (l l' : list ddlFile) :
  swaps a b l l' -> forall k, 0 <= k -> ~ (a <= k < b) -> at_ l' k = at_ l k.
Proof.
  induction 1; intros k K N; [reflexivity|].
  rewrite IHswaps by assumption. rewrite at_swapped by assumption.
  destruct (Z.eqb_spec k j); [lia|]. destruct (Z.eqb_spec k i); [lia|]. reflexivity.
Qed.

Lemma swaps_frame_key (a b : Z) (l l' : list ddlFile) :
  swaps a b l l' -> forall k, 0 <= k -> ~ (a <= k < b) -> key l' k = key l k.
Proof. intros S k K N. unfold key. now rewrite (swaps_frame a b l l' S). Qed.

(** What holds of every element of the range holds after the swaps. *)
Lemma swaps_all (a b : Z) (l l' : list ddlFile) (P : ddlFile -> Prop) :
  swaps a b l l' -> 0 <= a ->
  (forall k, a <= k < b -> P (at_ l k)) -> (forall k, a <= k < b -> P (at_ l' k)).
Proof.
  induction 1; intros A Q k K; [auto|].
  apply IHswaps; [assumption | | assumption].
  intros k' K'. rewrite at_swapped by (assumption || lia).
  destruct (k' =? j); [auto|]. destruct (k' =? i); auto.
Qed.

Lemma swaps_all_key (a b : Z) (l l' : list ddlFile) (P : Z -> Prop) :
  swaps a b l l' -> 0 <= a ->
  (forall k, a <= k < b -> P (key l k)) -> (forall k, a <= k < b -> P (key l' k)).
Proof.
  intros S A Q. apply (swaps_all a b l l' (fun f => P (fileNumber f)) S A Q).
Qed.

(** Swaps inside the range keep the element before the range below it. *)
Lemma swaps_lower_bound (a b a' b' : Z) (l l' : list ddlFile) :
  swaps a' b' l l' -> 0 <= a -> a <= a' -> b' <= b ->
  lower_bound l a b -> lower_bound l' a b.
Proof.
  intros S A A' B LB P k K.
  assert (S' : swaps a b l l') by (eapply swaps_weaken; eauto).
  rewrite (swaps_frame_key a b l l' S' (a - 1)) by lia.
  apply (swaps_all_key a b l l' (fun x => key l (a - 1) <= x) S' A); auto.
Qed.
(** ** The sorting routines of [sort.Sort] on a slice of files *)

(** Keys after a swap, read off index by index. *)
Ltac swapped_keys :=
  repeat rewrite key_swapped by lia;
  repeat match goal with
         | |- context [?x =? ?y] => destruct (Z.eqb_spec x y)
         end;
  try lia; subst; try lia.

(** A goal on keys closed by one of the hypotheses on keys. *)
Ltac by_order :=
  solve [ lia
        | match goal with
          | H : sorted_range _ _ _ |- _ => apply H; lia
          | H : forall x y : Z, _ |- _ => apply H; lia
          | H : forall k : Z, _ |- _ => apply H; lia
          end ].

Lemma insertionSort_inner_spec (fuel : nat) (l : byFileNumber) (a i j : Z) :
  0 <= a -> a <= j <= i -> i < size l -> (Z.to_nat (j - a) < fuel)%nat ->
  sorted_range l a j -> sorted_range l j (i + 1) ->
  (forall x y, a <= x < j -> j < y <= i -> key l x <= key l y) ->
  exists l', sort.insertionSort_inner fuel l a j = Returns l'
    /\ swaps a (i + 1) l l' /\ sorted_range l' a (i + 1).
Proof.
  revert l j. induction fuel as [|fuel IH]; intros l j A J I F S1 S2 S3; [lia|].
  cbn [sort.insertionSort_inner].
  destruct (Z.ltb_spec a j) as [Lt|Ge].
  - rewrite Less_spec by lia. cbn [bind].
    destruct (Z.ltb_spec (key l j) (key l (j - 1))) as [Lk|Gk].
    + rewrite Swap_spec by lia. cbn [bind].
      destruct (IH (swapped l j (j - 1)) (j - 1)) as (l' & E & W & S); try lia.
      * rewrite size_swapped. lia.
      * intros x y X Y Y'. swapped_keys; by_order.
      * intros x y X Y Y'. swapped_keys; by_order.
      * intros x y X Y. swapped_keys; by_order.
      * exists l'. split; [exact E|]. split; [|exact S].
        apply (swaps_step a (i + 1) l l' j (j - 1)); auto; lia.
    + exists l. split; [reflexivity|]. split; [apply swaps_refl|].
      intros x y X Y Y'.
      destruct (Z.lt_ge_cases y j); [apply S1; lia|].
      destruct (Z.lt_ge_cases x j); [|apply S2; lia].
      destruct (Z.eq_dec y j) as [->|]; [|apply S3; lia].
      destruct (Z.eq_dec x (j - 1)) as [->|]; [lia|].
      specialize (S1 x (j - 1)). lia.
  - exists l. split; [reflexivity|]. split; [apply swaps_refl|].
    intros x y X Y Y'. apply S2; lia.
Qed.

(** Side conditions on indices and empty ranges. *)
Ltac side :=
  solve [ lia | assumption
        | rewrite ?size_swapped; lia
        | intros ? ? ? ? ?; lia
        | intros ? ? ? ?; lia
        | intros ? ?; lia ].

Lemma insertionSort_outer_spec (fuel : nat) (l : byFileNumber) (a b i : Z) :
  0 <= a -> a < i -> b <= size l -> (Z.to_nat (b - i) < fuel)%nat ->
  sorted_range l a i ->
  exists l', sort.insertionSort_outer fuel l a b i = Returns l'
    /\ swaps a b l l' /\ sorted_range l' a b.
Proof.
  revert l i. induction fuel as [|fuel IH]; intros l i A I B F S; [lia|].
  cbn [sort.insertionSort_outer].
  destruct (Z.ltb_spec i b) as [Lt|Ge].
  - destruct (insertionSort_inner_spec (Z.to_nat (i - a) + 1) l a i i)
      as (l1 & E1 & W1 & S1); [side..|].
    rewrite E1. cbn [bind].
    assert (Z1 := swaps_size _ _ _ _ W1).
    destruct (IH l1 (i + 1)) as (l' & E & W & S'); [side..|].
    exists l'. split; [exact E|]. split; [|exact S'].
    eapply swaps_trans; [|exact W].
    apply (swaps_weaken a (i + 1)); [lia | lia | exact W1].
  - exists l. split; [reflexivity|]. split; [apply swaps_refl|].
    intros x y X Y Y'. apply S; lia.
Qed.

(** [insertionSort] sorts [data[a:b]]. *)
Lemma insertionSort_spec (l : byFileNumber) (a b : Z) :
  0 <= a -> b <= size l ->
  exists l', sort.insertionSort l a b = Returns l'
    /\ swaps a b l l' /\ sorted_range l' a b.
Proof.
  intros A B. unfold sort.insertionSort.
  apply insertionSort_outer_spec; side.
Qed.

(** On a sorted range the insertion sort swaps nothing. *)
Lemma insertionSort_outer_sorted (fuel : nat) (l : byFileNumber) (a b i : Z) :
  0 <= a -> a < i -> b <= size l -> (Z.to_nat (b - i) < fuel)%nat ->
  sorted_range l a b ->
  sort.insertionSort_outer fuel l a b i = Returns l.
Proof.
  revert i. induction fuel as [|fuel IH]; intros i A I B F Srt; [lia|].
  cbn [sort.insertionSort_outer].
  destruct (Z.ltb_spec i b) as [Lt|Ge]; [|reflexivity].
  replace (Z.to_nat (i - a) + 1)%nat with (S (Z.to_nat (i - a))) by lia.
  cbn [sort.insertionSort_inner].
  destruct (Z.ltb_spec a i) as [_|]; [|lia].
  rewrite Less_spec by lia. cbn [bind].
  destruct (Z.ltb_spec (key l i) (key l (i - 1))) as [Lk|Gk].
  - specialize (Srt (i - 1) i). lia.
  - cbn [bind]. apply IH; side.
Qed.

Lemma insertionSort_sorted (l : byFileNumber) (a b : Z) :
  0 <= a -> b <= size l -> sorted_range l a b ->
  sort.insertionSort l a b = Returns l.
Proof.
  intros A B S. unfold sort.insertionSort.
  apply insertionSort_outer_sorted; side.
Qed.

(** *** [partition] *)

Lemma scan_less_spec (fuel : nat) (l : byFileNumber) (a i j : Z) :
  0 <= a < size l -> 0 <= i -> j < size l -> (Z.to_nat (j + 1 - i) < fuel)%nat ->
  exists i', sort.scan_less fuel l a i j = Returns i'
    /\ i <= i' /\ (i <= j + 1 -> i' <= j + 1)
    /\ (forall k, i <= k < i' -> key l k < key l a)
    /\ (i' <= j -> key l a <= key l i').
Proof.
  revert i. induction fuel as [|fuel IH]; intros i A I J F; [lia|].
  cbn [sort.scan_less].
  destruct (Z.leb_spec i j) as [Le|Gt].
  - rewrite Less_spec by lia. cbn [bind].
    destruct (Z.ltb_spec (key l i) (key l a)) as [Lk|Gk].
    + destruct (IH (i + 1)) as (i' & E & G1 & G2 & G3 & G4); [side..|].
      exists i'. split; [exact E|]. repeat split; try lia; try assumption.
      intros k K. destruct (Z.eq_dec k i) as [->|]; [assumption|]. apply G3. lia.
    + exists i. split; [reflexivity|]. repeat split; try lia.
  - exists i. split; [reflexivity|]. repeat split; try lia.
Qed.

Lemma scan_notless_spec (fuel : nat) (l : byFileNumber) (a i j : Z) :
  0 <= a < size l -> 0 <= i -> j < size l -> (Z.to_nat (j + 1 - i) < fuel)%nat ->
  exists j', sort.scan_notless fuel l a i j = Returns j'
    /\ j' <= j /\ (i <= j + 1 -> i - 1 <= j')
    /\ (forall k, j' < k <= j -> key l a <= key l k)
    /\ (i <= j' -> key l j' < key l a).
Proof.
  revert j. induction fuel as [|fuel IH]; intros j A I J F; [lia|].
  cbn [sort.scan_notless].
  destruct (Z.leb_spec i j) as [Le|Gt].
  - rewrite Less_spec by lia. cbn [bind].
    destruct (Z.ltb_spec (key l j) (key l a)) as [Lk|Gk].
    + exists j. split; [reflexivity|]. repeat split; try lia.
    + destruct (IH (j - 1)) as (j' & E & G1 & G2 & G3 & G4); [side..|].
      exists j'. split; [exact E|]. repeat split; try lia; try assumption.
      intros k K. destruct (Z.eq_dec k j) as [->|]; [assumption|]. apply G3. lia.
  - exists j. split; [reflexivity|]. repeat split; try lia.
Qed.

Lemma partition_loop_spec (fuel : nat) (l : byFileNumber) (a b i j : Z) :
  0 <= a -> a < i -> j < b -> b <= size l -> i <= j + 1 ->
  (Z.to_nat (j + 1 - i) < fuel)%nat ->
  (forall k, a < k < i -> key l k < key l a) ->
  (forall k, j < k < b -> key l a <= key l k) ->
  exists l' j', sort.partition_loop fuel l a i j = Returns (l', j')
    /\ swaps (a + 1) b l l' /\ a <= j' < b
    /\ (forall k, a < k <= j' -> key l' k < key l' a)
    /\ (forall k, j' < k < b -> key l' a <= key l' k).
Proof.
  revert l i j. induction fuel as [|fuel IH]; intros l i j A I J B IJ F P1 P2; [lia|].
  cbn [sort.partition_loop].
  destruct (scan_less_spec (Z.to_nat (j - i) + 2) l a i j)
    as (i1 & E1 & G1 & G2 & G3 & G4); [side..|].
  rewrite E1. cbn [bind].
  destruct (scan_notless_spec (Z.to_nat (j - i1) + 2) l a i1 j)
    as (j1 & E2 & H1 & H2 & H3 & H4); [side..|].
  rewrite E2. cbn [bind].
  destruct (Z.ltb_spec j1 i1) as [Lt|Ge].
  - exists l, j1. split; [reflexivity|]. split; [apply swaps_refl|].
    split; [lia|]. split.
    + intros k K. destruct (Z.lt_ge_cases k i); [apply P1; lia | apply G3; lia].
    + intros k K. destruct (Z.lt_ge_cases j k); [apply P2; lia | apply H3; lia].
  - rewrite Swap_spec by lia. cbn [bind].
    assert (i1 < j1).
    { destruct (Z.eq_dec i1 j1) as [->|]; [|lia].
      specialize (G4 ltac:(lia)). specialize (H4 ltac:(lia)). lia. }
    destruct (IH (swapped l i1 j1) (i1 + 1) (j1 - 1)) as (l' & j' & E & W & R & Q1 & Q2);
      [side..| | |].
    + specialize (H4 ltac:(lia)).
      intros k K. swapped_keys; destruct (Z.lt_ge_cases k i); by_order.
    + specialize (G4 ltac:(lia)).
      intros k K. swapped_keys; destruct (Z.lt_ge_cases j k); by_order.
    + exists l', j'. split; [exact E|]. split; [|auto].
      apply (swaps_step (a + 1) b l l' i1 j1); auto; lia.
Qed.

(** [partition]: the pivot ends at [mid], what is below it before
    [mid], what is not below it after [mid]. *)
Lemma partition_spec (l : byFileNumber) (a b pivot : Z) :
  0 <= a -> a <= pivot < b -> b <= size l ->
  exists l' mid alreadyPartitioned,
    sort.partition l a b pivot = Returns (l', mid, alreadyPartitioned)
    /\ swaps a b l l' /\ a <= mid < b
    /\ (forall k, a <= k < mid -> key l' k < key l' mid)
    /\ (forall k, mid < k < b -> key l' mid <= key l' k).
Proof.
  intros A P B. unfold sort.partition.
  rewrite Swap_spec by lia. cbn [bind].
  set (l0 := swapped l a pivot).
  assert (Z0 : size l0 = size l) by apply size_swapped.
  assert (W0 : swaps a b l l0) by (apply swaps_one; lia).
  destruct (scan_less_spec (Z.to_nat (b - 1 - (a + 1)) + 2) l0 a (a + 1) (b - 1))
    as (i1 & E1 & G1 & G2 & G3 & G4); [side..|].
  rewrite E1. cbn [bind].
  destruct (scan_notless_spec (Z.to_nat (b - 1 - i1) + 2) l0 a i1 (b - 1))
    as (j1 & E2 & H1 & H2 & H3 & H4); [side..|].
  rewrite E2. cbn [bind].
  destruct (Z.ltb_spec j1 i1) as [Lt|Ge].
  - rewrite Swap_spec by lia. cbn [bind].
    exists (swapped l0 j1 a), j1, true. split; [reflexivity|].
    split; [eapply swaps_trans; [exact W0 | apply swaps_one; lia]|].
    split; [lia|]. split.
    + intros k K. swapped_keys; by_order.
    + intros k K. swapped_keys; by_order.
  - rewrite Swap_spec by lia. cbn [bind].
    assert (i1 < j1).
    { destruct (Z.eq_dec i1 j1) as [->|]; [|lia].
      specialize (G4 ltac:(lia)). specialize (H4 ltac:(lia)). lia. }
    destruct (partition_loop_spec (Z.to_nat (j1 - i1) + 2)
                (swapped l0 i1 j1) a b (i1 + 1) (j1 - 1))
      as (l' & j' & E & W & R & Q1 & Q2); [side..| | |].
    + specialize (H4 ltac:(lia)).
      intros k K. swapped_keys; by_order.
    + specialize (G4 ltac:(lia)).
      intros k K. swapped_keys; by_order.
    + rewrite E. cbn [bind].
      assert (Z' := swaps_size _ _ _ _ W). rewrite size_swapped in Z'.
      rewrite Swap_spec by lia. cbn [bind].
      exists (swapped l' j' a), j', false. split; [reflexivity|].
      split.
      { eapply swaps_trans; [exact W0|].
        apply (swaps_step a b l0 _ i1 j1); [lia..|].
        eapply swaps_trans; [apply (swaps_weaken (a + 1) b); [lia | lia | exact W]|].
        apply swaps_one; lia. }
      split; [lia|]. split.
      * intros k K. swapped_keys; by_order.
      * intros k K. swapped_keys; by_order.
Qed.

(** *** [partitionEqual] *)

Lemma scan_notgreater_spec (fuel : nat) (l : byFileNumber) (a i j : Z) :
  0 <= a < size l -> 0 <= i -> j < size l -> (Z.to_nat (j + 1 - i) < fuel)%nat ->
  exists i', sort.scan_notgreater fuel l a i j = Returns i'
    /\ i <= i' /\ (i <= j + 1 -> i' <= j + 1)
    /\ (forall k, i <= k < i' -> key l k <= key l a)
    /\ (i' <= j -> key l a < key l i').
Proof.
  revert i. induction fuel as [|fuel IH]; intros i A I J F; [lia|].
  cbn [sort.scan_notgreater].
  destruct (Z.leb_spec i j) as [Le|Gt].
  - rewrite Less_spec by lia. cbn [bind].
    destruct (Z.ltb_spec (key l a) (key l i)) as [Lk|Gk].
    + exists i. split; [reflexivity|]. repeat split; try lia.
    + destruct (IH (i + 1)) as (i' & E & G1 & G2 & G3 & G4); [side..|].
      exists i'. split; [exact E|]. repeat split; try lia; try assumption.
      intros k K. destruct (Z.eq_dec k i) as [->|]; [assumption|]. apply G3. lia.
  - exists i. split; [reflexivity|]. repeat split; try lia.
Qed.

Lemma scan_greater_spec (fuel : nat) (l : byFileNumber) (a i j : Z) :
  0 <= a < size l -> 0 <= i -> j < size l -> (Z.to_nat (j + 1 - i) < fuel)%nat ->
  exists j', sort.scan_greater fuel l a i j = Returns j'
    /\ j' <= j /\ (i <= j + 1 -> i - 1 <= j')
    /\ (forall k, j' < k <= j -> key l a < key l k)
    /\ (i <= j' -> key l j' <= key l a).
Proof.
  revert j. induction fuel as [|fuel IH]; intros j A I J F; [lia|].
  cbn [sort.scan_greater].
  destruct (Z.leb_spec i j) as [Le|Gt].
  - rewrite Less_spec by lia. cbn [bind].
    destruct (Z.ltb_spec (key l a) (key l j)) as [Lk|Gk].
    + destruct (IH (j - 1)) as (j' & E & G1 & G2 & G3 & G4); [side..|].
      exists j'. split; [exact E|]. repeat split; try lia; try assumption.
      intros k K. destruct (Z.eq_dec k j) as [->|]; [assumption|]. apply G3. lia.
    + exists j. split; [reflexivity|]. repeat split; try lia.
  - exists j. split; [reflexivity|]. repeat split; try lia.
Qed.

Lemma partitionEqual_loop_spec (fuel : nat) (l : byFileNumber) (a b i j : Z) :
  0 <= a -> a < i -> j < b -> b <= size l -> i <= j + 1 ->
  (Z.to_nat (j + 1 - i) < fuel)%nat ->
  (forall k, a < k < i -> key l k <= key l a) ->
  (forall k, j < k < b -> key l a < key l k) ->
  exists l' mid, sort.partitionEqual_loop fuel l a i j = Returns (l', mid)
    /\ swaps (a + 1) b l l' /\ a < mid <= b
    /\ (forall k, a < k < mid -> key l' k <= key l' a)
    /\ (forall k, mid <= k < b -> key l' a < key l' k).
Proof.
  revert l i j. induction fuel as [|fuel IH]; intros l i j A I J B IJ F P1 P2; [lia|].
  cbn [sort.partitionEqual_loop].
  destruct (scan_notgreater_spec (Z.to_nat (j - i) + 2) l a i j)
    as (i1 & E1 & G1 & G2 & G3 & G4); [side..|].
  rewrite E1. cbn [bind].
  destruct (scan_greater_spec (Z.to_nat (j - i1) + 2) l a i1 j)
    as (j1 & E2 & H1 & H2 & H3 & H4); [side..|].
  rewrite E2. cbn [bind].
  destruct (Z.ltb_spec j1 i1) as [Lt|Ge].
  - exists l, i1. split; [reflexivity|]. split; [apply swaps_refl|].
    split; [lia|]. split.
    + intros k K. destruct (Z.lt_ge_cases k i); [apply P1; lia | apply G3; lia].
    + intros k K. destruct (Z.lt_ge_cases j k); [apply P2; lia | apply H3; lia].
  - rewrite Swap_spec by lia. cbn [bind].
    specialize (G4 ltac:(lia)). specialize (H4 ltac:(lia)).
    assert (i1 < j1) by (destruct (Z.eq_dec i1 j1) as [->|]; lia).
    destruct (IH (swapped l i1 j1) (i1 + 1) (j1 - 1)) as (l' & j' & E & W & R & Q1 & Q2);
      [side..| | |].
    + intros k K. swapped_keys; destruct (Z.lt_ge_cases k i); by_order.
    + intros k K. swapped_keys; destruct (Z.lt_ge_cases j k); by_order.
    + exists l', j'. split; [exact E|]. split; [|auto].
      apply (swaps_step (a + 1) b l l' i1 j1); auto; lia.
Qed.

(** [partitionEqual]: what is not above the pivot comes before [mid],
    what is above it from [mid] on. *)
Lemma partitionEqual_spec (l : byFileNumber) (a b pivot : Z) :
  0 <= a -> a <= pivot < b -> b <= size l ->
  exists l' mid,
    sort.partitionEqual l a b pivot = Returns (l', mid)
    /\ swaps a b l l' /\ a < mid <= b
    /\ (forall k, a <= k < mid -> key l' k <= key l pivot)
    /\ (forall k, mid <= k < b -> key l pivot < key l' k).
Proof.
  intros A P B. unfold sort.partitionEqual.
  rewrite Swap_spec by lia. cbn [bind].
  set (l0 := swapped l a pivot).
  assert (Z0 : size l0 = size l) by apply size_swapped.
  assert (W0 : swaps a b l l0) by (apply swaps_one; lia).
  assert (K0 : key l0 a = key l pivot).
  { unfold l0. swapped_keys. }
  destruct (partitionEqual_loop_spec (Z.to_nat (b - a) + 2) l0 a b (a + 1) (b - 1))
    as (l' & mid & E & W & R & Q1 & Q2); [side..|].
  rewrite E. exists l', mid. split; [reflexivity|].
  split; [eapply swaps_trans; [exact W0 | apply (swaps_weaken (a + 1) b); [lia | lia | exact W]]|].
  split; [lia|].
  assert (Ka : key l' a = key l pivot).
  { rewrite (swaps_frame_key _ _ _ _ W) by lia. exact K0. }
  rewrite <- Ka. split.
  - intros k K. destruct (Z.eq_dec k a) as [->|]; [lia | apply Q1; lia].
  - intros k K. apply Q2. lia.
Qed.

(** *** [reverseRange] and [breakPatterns] *)

Lemma reverseRange_loop_spec (fuel : nat) (l : byFileNumber) (a b i j : Z) :
  0 <= a -> a <= i -> j < b -> b <= size l -> (Z.to_nat (j + 1 - i) < fuel)%nat ->
  exists l', sort.reverseRange_loop fuel l i j = Returns l' /\ swaps a b l l'.
Proof.
  revert l i j. induction fuel as [|fuel IH]; intros l i j A I J B F; [lia|].
  cbn [sort.reverseRange_loop].
  destruct (Z.ltb_spec i j) as [Lt|Ge].
  - rewrite Swap_spec by lia. cbn [bind].
    destruct (IH (swapped l i j) (i + 1) (j - 1)) as (l' & E & W); [side..|].
    exists l'. split; [exact E|].
    apply (swaps_step a b l l' i j); auto; lia.
  - exists l. split; [reflexivity | apply swaps_refl].
Qed.

Lemma reverseRange_spec (l : byFileNumber) (a b : Z) :
  0 <= a -> b <= size l ->
  exists l', sort.reverseRange l a b = Returns l' /\ swaps a b l l'.
Proof.
  intros A B. unfold sort.reverseRange.
  apply reverseRange_loop_spec; side.
Qed.

Lemma nextPowerOfTwo_bounds (n : Z) :
  0 < n -> exists k, 0 <= k /\ sort.nextPowerOfTwo n = 2 ^ k /\ 2 ^ k <= 2 * n.
Proof.
  intros N. unfold sort.nextPowerOfTwo, sort.bits_Len.
  destruct (Z.leb_spec n 0) as [|_]; [lia|].
  exists (Z.log2 n + 1). assert (L := Z.log2_nonneg n).
  split; [lia|]. split.
  - rewrite Z.shiftl_1_l. reflexivity.
  - rewrite Z.pow_add_r by lia. destruct (Z.log2_spec n N) as [L1 _]. lia.
Qed.

Lemma breakPatterns_loop_spec (fuel : nat) (l : byFileNumber)
    (a b modulus idx random i : Z) :
  0 <= a -> b <= size l -> 0 < b - a ->
  (exists k, 0 <= k /\ modulus = 2 ^ k /\ 2 ^ k <= 2 * (b - a)) ->
  0 <= i -> a <= idx - 1 -> idx + 1 < b -> (Z.to_nat (3 - i) < fuel)%nat ->
  exists l', sort.breakPatterns_loop fuel l a (b - a) modulus idx random i = Returns l'
    /\ swaps a b l l'.
Proof.
  revert l random i. induction fuel as [|fuel IH];
    intros l random i A B L M I X1 X2 F; [lia|].
  cbn [sort.breakPatterns_loop].
  destruct (Z.ltb_spec i 3) as [Lt|Ge].
  - cbv zeta.
    set (other0 := Z.land (sort.xorshift_Next random) (modulus - 1)).
    assert (O : 0 <= other0 < modulus).
    { destruct M as (k & K & -> & _). unfold other0.
      replace (2 ^ k - 1) with (Z.ones k) by (rewrite Z.ones_equiv; lia).
      rewrite Z.land_ones by lia.
      apply Z.mod_pos_bound. apply Z.pow_pos_nonneg; lia. }
    set (other := if b - a <=? other0 then other0 - (b - a) else other0).
    assert (O' : 0 <= other < b - a).
    { unfold other. destruct M as (k & K & -> & M).
      destruct (Z.leb_spec (b - a) other0); lia. }
    rewrite Swap_spec by lia. cbn [bind].
    destruct (IH (swapped l (idx - 1 + i) (a + other)) (sort.xorshift_Next random) (i + 1))
      as (l' & E & W); [side..|].
    exists l'. split; [exact E|].
    apply (swaps_step a b l l' (idx - 1 + i) (a + other)); auto; lia.
  - exists l. split; [reflexivity | apply swaps_refl].
Qed.

Lemma breakPatterns_spec (l : byFileNumber) (a b : Z) :
  0 <= a -> b <= size l ->
  exists l', sort.breakPatterns l a b = Returns l' /\ swaps a b l l'.
Proof.
  intros A B. unfold sort.breakPatterns.
  destruct (Z.leb_spec 8 (b - a)) as [Le|Gt].
  - assert (Q : Z.quot (b - a) 4 = (b - a) / 4) by (apply Z.quot_div_nonneg; lia).
    rewrite Q.
    apply breakPatterns_loop_spec; try lia;
      try (Z.to_euclidean_division_equations; lia).
    apply nextPowerOfTwo_bounds. lia.
  - exists l. split; [reflexivity | apply swaps_refl].
Qed.

(** *** [choosePivot] *)

Lemma order2_eq (l : byFileNumber) (a b swaps : Z) :
  0 <= a < size l -> 0 <= b < size l ->
  sort.order2 l a b swaps
  = Returns (if key l b <? key l a then (b, a, swaps + 1) else (a, b, swaps)).
Proof.
  intros A B. unfold sort.order2. rewrite Less_spec by lia. cbn [bind].
  destruct (key l b <? key l a); reflexivity.
Qed.

Lemma median_spec (l : byFileNumber) (a b c swaps : Z) :
  0 <= a < size l -> 0 <= b < size l -> 0 <= c < size l ->
  exists m swaps', sort.median l a b c swaps = Returns (m, swaps')
    /\ (m = a \/ m = b \/ m = c).
Proof.
  intros A B C. unfold sort.median.
  rewrite order2_eq by lia. cbn [bind].
  destruct (key l b <? key l a); rewrite order2_eq by lia; cbn [bind].
  - destruct (key l c <? key l a); rewrite order2_eq by lia; cbn [bind].
    + destruct (key l c <? key l b); eexists _, _; split; try reflexivity; auto.
    + destruct (key l a <? key l b); eexists _, _; split; try reflexivity; auto.
  - destruct (key l c <? key l b); rewrite order2_eq by lia; cbn [bind].
    + destruct (key l c <? key l a); eexists _, _; split; try reflexivity; auto.
    + destruct (key l b <? key l a); eexists _, _; split; try reflexivity; auto.
Qed.

(** On keys in order the median is the middle index, and nothing is counted. *)
Lemma median_ordered (l : byFileNumber) (a b c swaps : Z) :
  0 <= a < size l -> 0 <= b < size l -> 0 <= c < size l ->
  key l a <= key l b -> key l b <= key l c ->
  sort.median l a b c swaps = Returns (b, swaps).
Proof.
  intros A B C K1 K2. unfold sort.median.
  rewrite order2_eq by lia. cbn [bind].
  destruct (Z.ltb_spec (key l b) (key l a)); [lia|].
  rewrite order2_eq by lia. cbn [bind].
  destruct (Z.ltb_spec (key l c) (key l b)); [lia|].
  rewrite order2_eq by lia. cbn [bind].
  destruct (Z.ltb_spec (key l b) (key l a)); [lia|].
  reflexivity.
Qed.

Lemma choosePivot_spec (l : byFileNumber) (a b : Z) :
  0 <= a -> b <= size l -> 8 <= b - a ->
  exists pivot hint, sort.choosePivot l a b = Returns (pivot, hint) /\ a <= pivot < b.
Proof.
  intros A B L. unfold sort.choosePivot.
  assert (Q : Z.quot (b - a) 4 = (b - a) / 4) by (apply Z.quot_div_nonneg; lia).
  rewrite Q. set (q := (b - a) / 4).
  assert (Hq : 2 <= q /\ 4 * q <= b - a) by (unfold q; Z.to_euclidean_division_equations; lia).
  destruct (Z.leb_spec 8 (b - a)) as [_|]; [|lia].
  destruct (Z.leb_spec 50 (b - a)) as [L50|S50].
  - assert (12 <= q) by (unfold q; Z.to_euclidean_division_equations; lia).
    unfold sort.medianAdjacent.
    destruct (median_spec l (a + q * 1 - 1) (a + q * 1) (a + q * 1 + 1) 0)
      as (i & s1 & E1 & R1); [lia..|].
    rewrite E1. cbn [bind].
    destruct (median_spec l (a + q * 2 - 1) (a + q * 2) (a + q * 2 + 1) s1)
      as (j & s2 & E2 & R2); [lia..|].
    rewrite E2. cbn [bind].
    destruct (median_spec l (a + q * 3 - 1) (a + q * 3) (a + q * 3 + 1) s2)
      as (k & s3 & E3 & R3); [lia..|].
    rewrite E3. cbn [bind].
    destruct (median_spec l i j k s3) as (m & s4 & E4 & R4); [lia..|].
    rewrite E4. cbn [bind].
    eexists _, _. split; [reflexivity | lia].
  - cbn [bind].
    destruct (median_spec l (a + q * 1) (a + q * 2) (a + q * 3) 0)
      as (m & s4 & E4 & R4); [lia..|].
    rewrite E4. cbn [bind].
    eexists _, _. split; [reflexivity | lia].
Qed.

(** On a sorted range [choosePivot] reports the increasing pattern. *)
Lemma choosePivot_sorted (l : byFileNumber) (a b : Z) :
  0 <= a -> b <= size l -> 8 <= b - a -> sorted_range l a b ->
  sort.choosePivot l a b = Returns (a + (b - a) / 4 * 2, sort.increasingHint).
Proof.
  intros A B L Srt. unfold sort.choosePivot.
  assert (Q : Z.quot (b - a) 4 = (b - a) / 4) by (apply Z.quot_div_nonneg; lia).
  rewrite Q. set (q := (b - a) / 4).
  assert (Hq : 2 <= q /\ 4 * q <= b - a) by (unfold q; Z.to_euclidean_division_equations; lia).
  destruct (Z.leb_spec 8 (b - a)) as [_|]; [|lia].
  destruct (Z.leb_spec 50 (b - a)) as [L50|S50].
  - assert (12 <= q) by (unfold q; Z.to_euclidean_division_equations; lia).
    unfold sort.medianAdjacent.
    rewrite median_ordered; [| lia.. | apply Srt; lia | apply Srt; lia]. cbn [bind].
    rewrite median_ordered; [| lia.. | apply Srt; lia | apply Srt; lia]. cbn [bind].
    rewrite median_ordered; [| lia.. | apply Srt; lia | apply Srt; lia]. cbn [bind].
    rewrite median_ordered; [| lia.. | apply Srt; lia | apply Srt; lia]. cbn [bind].
    reflexivity.
  - cbn [bind].
    rewrite median_ordered; [| lia.. | apply Srt; lia | apply Srt; lia]. cbn [bind].
    reflexivity.
Qed.

(** *** [partialInsertionSort] *)

Lemma scan_ordered_spec (fuel : nat) (l : byFileNumber) (i b : Z) :
  1 <= i -> b <= size l -> (Z.to_nat (b - i) < fuel)%nat ->
  exists i', sort.scan_ordered fuel l i b = Returns i'
    /\ i <= i' /\ (i <= b -> i' <= b)
    /\ (forall k, i <= k < i' -> key l (k - 1) <= key l k)
    /\ (i' < b -> key l i' < key l (i' - 1)).
Proof.
  revert i. induction fuel as [|fuel IH]; intros i I B F; [lia|].
  cbn [sort.scan_ordered].
  destruct (Z.ltb_spec i b) as [Lt|Ge].
  - rewrite Less_spec by lia. cbn [bind].
    destruct (Z.ltb_spec (key l i) (key l (i - 1))) as [Lk|Gk].
    + exists i. split; [reflexivity|]. repeat split; try lia.
    + destruct (IH (i + 1)) as (i' & E & G1 & G2 & G3 & G4); [side..|].
      exists i'. split; [exact E|]. repeat split; try lia; try assumption.
      intros k K. destruct (Z.eq_dec k i) as [->|]; [assumption|]. apply G3. lia.
  - exists i. split; [reflexivity|]. repeat split; try lia.
Qed.

Lemma scan_ordered_sorted (fuel : nat) (l : byFileNumber) (a i b : Z) :
  0 <= a -> a < i -> i <= b -> b <= size l -> (Z.to_nat (b - i) < fuel)%nat ->
  sorted_range l a b ->
  sort.scan_ordered fuel l i b = Returns b.
Proof.
  revert i. induction fuel as [|fuel IH]; intros i A I IB B F Srt; [lia|].
  cbn [sort.scan_ordered].
  destruct (Z.ltb_spec i b) as [Lt|Ge].
  - rewrite Less_spec by lia. cbn [bind].
    destruct (Z.ltb_spec (key l i) (key l (i - 1))) as [Lk|Gk].
    + specialize (Srt (i - 1) i). lia.
    + apply IH; side.
  - f_equal. lia.
Qed.

(** Ordered neighbours make a sorted range. *)
Lemma sorted_range_adjacent (l : list ddlFile) (a b : Z) :
  (forall k, a < k < b -> key l (k - 1) <= key l k) -> sorted_range l a b.
Proof.
  intros Adj i j I IJ J.
  assert (G : forall n : nat, i + Z.of_nat n < b -> key l i <= key l (i + Z.of_nat n)).
  { induction n as [|n IHn]; intros N.
    - replace (i + Z.of_nat 0) with i by lia. lia.
    - specialize (Adj (i + Z.of_nat (S n)) ltac:(lia)).
      replace (i + Z.of_nat (S n) - 1) with (i + Z.of_nat n) in Adj by lia.
      specialize (IHn ltac:(lia)). lia. }
  specialize (G (Z.to_nat (j - i))).
  replace (i + Z.of_nat (Z.to_nat (j - i))) with j in G by lia.
  apply G. lia.
Qed.

Lemma shift_left_spec (fuel : nat) (l : byFileNumber) (a t j : Z) :
  0 <= a -> a <= j <= t -> t < size l -> (Z.to_nat j < fuel)%nat ->
  sorted_range l a j -> sorted_range l j (t + 1) ->
  (forall x y, a <= x < j -> j < y <= t -> key l x <= key l y) ->
  lower_bound l a (t + 1) ->
  exists l', sort.shift_left fuel l j = Returns l'
    /\ swaps a (t + 1) l l' /\ sorted_range l' a (t + 1).
Proof.
  revert l j. induction fuel as [|fuel IH]; intros l j A J T F S1 S2 S3 LB; [lia|].
  cbn [sort.shift_left].
  assert (Done : sorted_range l a j -> (a < j -> key l (j - 1) <= key l j) ->
                 sorted_range l a (t + 1)).
  { intros _ Gk x y X Y Y'.
    destruct (Z.lt_ge_cases y j); [apply S1; lia|].
    destruct (Z.lt_ge_cases x j); [|apply S2; lia].
    destruct (Z.eq_dec y j) as [->|]; [|apply S3; lia].
    destruct (Z.eq_dec x (j - 1)) as [->|]; [lia|].
    specialize (S1 x (j - 1)). lia. }
  destruct (Z.leb_spec 1 j) as [Le|Gt].
  - rewrite Less_spec by lia. cbn [bind].
    destruct (Z.ltb_spec (key l j) (key l (j - 1))) as [Lk|Gk].
    + assert (a < j).
      { destruct (Z.eq_dec a j) as [->|]; [|lia].
        specialize (LB ltac:(lia) j ltac:(lia)). lia. }
      rewrite Swap_spec by lia. cbn [bind].
      destruct (IH (swapped l j (j - 1)) (j - 1)) as (l' & E & W & S); try side.
      * intros x y X Y Y'. swapped_keys; by_order.
      * intros x y X Y Y'. swapped_keys; by_order.
      * intros x y X Y. swapped_keys; by_order.
      * apply (swaps_lower_bound a (t + 1) a (t + 1) l); [|lia..|exact LB].
        apply swaps_one; lia.
      * exists l'. split; [exact E|]. split; [|exact S].
        apply (swaps_step a (t + 1) l l' j (j - 1)); auto; lia.
    + exists l. split; [reflexivity|]. split; [apply swaps_refl|].
      apply Done; [assumption | lia].
  - exists l. split; [reflexivity|]. split; [apply swaps_refl|].
    apply Done; [assumption | lia].
Qed.

Lemma shift_right_spec (fuel : nat) (l : byFileNumber) (i j b : Z) :
  0 <= i -> i < j -> b <= size l -> (Z.to_nat (b - j) < fuel)%nat ->
  exists l', sort.shift_right fuel l j b = Returns l' /\ swaps i b l l'.
Proof.
  revert l j. induction fuel as [|fuel IH]; intros l j I J B F; [lia|].
  cbn [sort.shift_right].
  destruct (Z.ltb_spec j b) as [Lt|Ge].
  - rewrite Less_spec by lia. cbn [bind].
    destruct (key l j <? key l (j - 1)).
    + rewrite Swap_spec by lia. cbn [bind].
      destruct (IH (swapped l j (j - 1)) (j + 1)) as (l' & E & W); [side..|].
      exists l'. split; [exact E|].
      apply (swaps_step i b l l' j (j - 1)); auto; lia.
    + exists l. split; [reflexivity | apply swaps_refl].
  - exists l. split; [reflexivity | apply swaps_refl].
Qed.

(** Swaps above [i] leave what is sorted below [i] sorted. *)
Lemma sorted_range_frame (l l' : list ddlFile) (a i c b : Z) :
  swaps c b l l' -> 0 <= a -> i <= c -> sorted_range l a i -> sorted_range l' a i.
Proof.
  intros W A C Srt x y X Y Y'.
  rewrite !(swaps_frame_key _ _ _ _ W) by lia. apply Srt; lia.
Qed.

Lemma partialInsertionSort_loop_spec (fuel : nat) (l : byFileNumber) (a b i j : Z) :
  0 <= a -> a < i -> i <= b -> b <= size l -> 0 <= j -> (Z.to_nat (5 - j) < fuel)%nat ->
  sorted_range l a i -> lower_bound l a b ->
  exists l' r, sort.partialInsertionSort_loop fuel l a b i j = Returns (l', r)
    /\ swaps a b l l' /\ (r = true -> sorted_range l' a b).
Proof.
  revert l i j. induction fuel as [|fuel IH]; intros l i j A I IB B J F Srt LB; [lia|].
  cbn [sort.partialInsertionSort_loop].
  destruct (Z.ltb_spec j 5) as [Lt|Ge].
  2:{ exists l, false. split; [reflexivity|]. split; [apply swaps_refl | discriminate]. }
  destruct (scan_ordered_spec (Z.to_nat (b - i) + 1) l i b)
    as (i1 & E1 & G1 & G2 & G3 & G4); [side..|].
  rewrite E1. cbn [bind].
  assert (Srt1 : sorted_range l a i1).
  { apply sorted_range_adjacent. intros k K.
    destruct (Z.lt_ge_cases k i); [apply Srt; lia | apply G3; lia]. }
  destruct (Z.eqb_spec i1 b) as [->|Ne].
  { exists l, true. split; [reflexivity|]. split; [apply swaps_refl | auto]. }
  destruct (Z.ltb_spec (b - a) 50) as [Short|Long].
  { exists l, false. split; [reflexivity|]. split; [apply swaps_refl | discriminate]. }
  rewrite Swap_spec by lia. cbn [bind].
  set (l1 := swapped l i1 (i1 - 1)).
  assert (Z1 : size l1 = size l) by apply size_swapped.
  assert (W1 : swaps a b l l1) by (apply swaps_one; lia).
  match goal with |- context [bind ?m _] =>
    assert (exists l2, m = Returns l2 /\ swaps a i1 l1 l2 /\ sorted_range l2 a i1)
      as (l2 & E2 & W2 & S2)
  end.
  { destruct (Z.leb_spec 2 (i1 - a)) as [Le2|Gt2].
    - destruct (shift_left_spec (Z.to_nat i1 + 1) l1 a (i1 - 1) (i1 - 1))
        as (l2 & E2 & W2 & S2); try side.
      + intros x y X Y Y'. unfold l1. swapped_keys; by_order.
      + assert (LB1 : lower_bound l1 a b)
          by (apply (swaps_lower_bound a b a b l); [exact W1 | lia.. | exact LB]).
        intros P k K. apply LB1; lia.
      + replace (i1 - 1 + 1) with i1 in * by lia. eauto.
    - exists l1. split; [reflexivity|]. split; [apply swaps_refl|].
      intros x y X Y Y'. lia. }
  rewrite E2. cbn [bind].
  assert (Z2 := swaps_size _ _ _ _ W2).
  match goal with |- context [bind ?m _] =>
    assert (exists l3, m = Returns l3 /\ swaps i1 b l2 l3) as (l3 & E3 & W3)
  end.
  { destruct (Z.leb_spec 2 (b - i1)) as [Le2|Gt2].
    - apply shift_right_spec; side.
    - exists l2. split; [reflexivity | apply swaps_refl]. }
  rewrite E3. cbn [bind].
  assert (Z3 := swaps_size _ _ _ _ W3).
  assert (W : swaps a b l l3).
  { eapply swaps_trans; [exact W1|].
    eapply swaps_trans; [apply (swaps_weaken a i1); [lia | lia | exact W2]|].
    apply (swaps_weaken i1 b); [lia | lia | exact W3]. }
  destruct (IH l3 i1 (j + 1)) as (l' & r & E & W' & R); try side.
  - apply (sorted_range_frame l2 l3 a i1 i1 b); auto; lia.
  - apply (swaps_lower_bound a b a b l); [exact W | lia.. | exact LB].
  - exists l', r. split; [exact E|]. split; [|exact R].
    eapply swaps_trans; eauto.
Qed.

Lemma partialInsertionSort_spec (l : byFileNumber) (a b : Z) :
  0 <= a -> a < b -> b <= size l -> lower_bound l a b ->
  exists l' r, sort.partialInsertionSort l a b = Returns (l', r)
    /\ swaps a b l l' /\ (r = true -> sorted_range l' a b).
Proof.
  intros A AB B LB. unfold sort.partialInsertionSort.
  apply partialInsertionSort_loop_spec; side.
Qed.

(** On a sorted range [partialInsertionSort] swaps nothing and says so. *)
Lemma partialInsertionSort_sorted (l : byFileNumber) (a b : Z) :
  0 <= a -> a < b -> b <= size l -> sorted_range l a b ->
  sort.partialInsertionSort l a b = Returns (l, true).
Proof.
  intros A AB B Srt. unfold sort.partialInsertionSort.
  cbn [sort.partialInsertionSort_loop].
  destruct (Z.ltb_spec 0 5) as [_|]; [|lia].
  rewrite (scan_ordered_sorted _ l a (a + 1) b) by side.
  cbn [bind]. now rewrite Z.eqb_refl.
Qed.

(** *** [heapSort] *)

Lemma siftDown_loop_spec (fuel : nat) (l : byFileNumber) (lo root hi first : Z) :
  0 <= first -> first + hi <= size l -> 0 <= lo <= root ->
  (Z.to_nat (hi - root) < fuel)%nat ->
  (forall r c, lo <= r -> r <> root -> c = 2 * r + 1 \/ c = 2 * r + 2 -> c < hi ->
     key l (first + c) <= key l (first + r)) ->
  (forall p c, lo <= p -> root = 2 * p + 1 \/ root = 2 * p + 2 ->
     c = 2 * root + 1 \/ c = 2 * root + 2 -> c < hi ->
     key l (first + c) <= key l (first + p)) ->
  exists l', sort.siftDown_loop fuel l root hi first = Returns l'
    /\ swaps (first + lo) (first + hi) l l' /\ heap_from l' first lo hi.
Proof.
  revert l root. induction fuel as [|fuel IH]; intros l root F0 H0 R F I1 I2; [lia|].
  cbn [sort.siftDown_loop]. cbv zeta.
  destruct (Z.leb_spec hi (2 * root + 1)) as [Leaf|Inner].
  { exists l. split; [reflexivity|]. split; [apply swaps_refl|].
    intros r c Lr C Ch. destruct (Z.eq_dec r root) as [->|]; [lia|]. apply I1; lia. }
  (* the larger child *)
  match goal with |- context [bind ?m _] =>
    assert (exists child, m = Returns child
              /\ (child = 2 * root + 1 \/ child = 2 * root + 2) /\ child < hi
              /\ (forall c, c = 2 * root + 1 \/ c = 2 * root + 2 -> c < hi ->
                    key l (first + c) <= key l (first + child)))
      as (child & E & C1 & C2 & C3)
  end.
  { destruct (Z.ltb_spec (2 * root + 1 + 1) hi) as [Two|One].
    - rewrite Less_spec by lia. cbn [bind].
      replace (first + (2 * root + 1) + 1) with (first + (2 * root + 2)) by lia.
      destruct (Z.ltb_spec (key l (first + (2 * root + 1))) (key l (first + (2 * root + 2)))).
      + exists (2 * root + 1 + 1). split; [reflexivity|].
        replace (2 * root + 1 + 1) with (2 * root + 2) by lia.
        split; [lia|]. split; [lia|]. intros c [-> | ->] Ch; lia.
      + exists (2 * root + 1). split; [reflexivity|].
        split; [lia|]. split; [lia|]. intros c [-> | ->] Ch; lia.
    - exists (2 * root + 1). split; [reflexivity|].
      split; [lia|]. split; [lia|]. intros c [-> | ->] Ch; lia. }
  rewrite E. cbn [bind].
  rewrite Less_spec by lia. cbn [bind].
  destruct (Z.ltb_spec (key l (first + root)) (key l (first + child))) as [Lk|Gk].
  - rewrite Swap_spec by lia. cbn [bind].
    destruct (IH (swapped l (first + root) (first + child)) child)
      as (l' & E' & W & Hp); try side.
    + intros r c Lr Nr C Ch.
      swapped_keys; first [apply C3; lia | apply (I2 r child); lia | apply I1; lia].
    + intros p c Lp P C Ch.
      swapped_keys; first [apply C3; lia | apply I1; lia].
    + exists l'. split; [exact E'|]. split; [|exact Hp].
      apply (swaps_step _ _ l l' (first + root) (first + child)); auto; lia.
  - exists l. split; [reflexivity|]. split; [apply swaps_refl|].
    intros r c Lr C Ch. destruct (Z.eq_dec r root) as [->|]; [|apply I1; lia].
    specialize (C3 c C Ch). lia.
Qed.

Lemma siftDown_spec (l : byFileNumber) (lo hi first : Z) :
  0 <= first -> first + hi <= size l -> 0 <= lo ->
  heap_from l first (lo + 1) hi ->
  exists l', sort.siftDown l lo hi first = Returns l'
    /\ swaps (first + lo) (first + hi) l l' /\ heap_from l' first lo hi.
Proof.
  intros F0 H0 L0 Hp. unfold sort.siftDown.
  apply siftDown_loop_spec; try side.
  intros r c Lr Nr C Ch. apply Hp; lia.
Qed.

Lemma heapSort_build_spec (fuel : nat) (l : byFileNumber) (i hi first : Z) :
  0 <= first -> first + hi <= size l -> -1 <= i -> (Z.to_nat (i + 1) < fuel)%nat ->
  heap_from l first (i + 1) hi ->
  exists l', sort.heapSort_build fuel l i hi first = Returns l'
    /\ swaps first (first + hi) l l' /\ heap_from l' first 0 hi.
Proof.
  revert l i. induction fuel as [|fuel IH]; intros l i F0 H0 I F Hp; [lia|].
  cbn [sort.heapSort_build].
  destruct (Z.leb_spec 0 i) as [Le|Gt].
  - destruct (siftDown_spec l i hi first) as (l1 & E1 & W1 & Hp1); try side.
    rewrite E1. cbn [bind].
    assert (Z1 := swaps_size _ _ _ _ W1).
    destruct (IH l1 (i - 1)) as (l' & E & W & Hp'); try side.
    + replace (i - 1 + 1) with i by lia. exact Hp1.
    + exists l'. split; [exact E|]. split; [|exact Hp'].
      eapply swaps_trans; [|exact W].
      apply (swaps_weaken (first + i) (first + hi)); [lia | lia | exact W1].
  - exists l. split; [reflexivity|]. split; [apply swaps_refl|].
    replace (i + 1) with 0 in Hp by lia. exact Hp.
Qed.

(** The root of a heap is its greatest element. *)
Lemma heap_max (l : list ddlFile) (first hi : Z) :
  heap_from l first 0 hi ->
  forall k, 0 <= k < hi -> key l (first + k) <= key l (first + 0).
Proof.
  intros Hp.
  assert (G : forall n : nat, forall k, 0 <= k < hi -> Z.to_nat k = n ->
                key l (first + k) <= key l (first + 0)).
  { induction n as [n IHn] using (well_founded_induction lt_wf).
    intros k K E. destruct (Z.eq_dec k 0) as [->|N]; [lia|].
    specialize (IHn (Z.to_nat ((k - 1) / 2))).
    assert (P : 0 <= (k - 1) / 2 < k) by (Z.to_euclidean_division_equations; lia).
    specialize (IHn ltac:(lia) ((k - 1) / 2) ltac:(lia) eq_refl).
    assert (C : k = 2 * ((k - 1) / 2) + 1 \/ k = 2 * ((k - 1) / 2) + 2)
      by (Z.to_euclidean_division_equations; lia).
    specialize (Hp ((k - 1) / 2) k ltac:(lia) C ltac:(lia)). lia. }
  intros k K. apply (G (Z.to_nat k)); auto.
Qed.

Lemma heapSort_pop_spec (fuel : nat) (l : byFileNumber) (i hi first : Z) :
  0 <= first -> first + hi <= size l -> -1 <= i < hi -> (Z.to_nat (i + 1) < fuel)%nat ->
  heap_from l first 0 (i + 1) ->
  sorted_range l (first + i + 1) (first + hi) ->
  (forall x y, 0 <= x <= i -> i < y < hi -> key l (first + x) <= key l (first + y)) ->
  exists l', sort.heapSort_pop fuel l i 0 first = Returns l'
    /\ swaps first (first + hi) l l' /\ sorted_range l' first (first + hi).
Proof.
  revert l i. induction fuel as [|fuel IH]; intros l i F0 H0 I F Hp Srt Cross; [lia|].
  cbn [sort.heapSort_pop].
  destruct (Z.leb_spec 0 i) as [Le|Gt].
  - rewrite Swap_spec by lia. cbn [bind].
    set (l1 := swapped l first (first + i)).
    assert (Z1 : size l1 = size l) by apply size_swapped.
    assert (Max := heap_max l first (i + 1) Hp).
    assert (K1 : forall k, 0 <= k ->
              key l1 (first + k)
              = if k =? i then key l (first + 0)
                else if k =? 0 then key l (first + i) else key l (first + k)).
    { intros k K. unfold l1. rewrite key_swapped by lia.
      replace (first + 0) with first by lia.
      destruct (Z.eqb_spec (first + k) (first + i)), (Z.eqb_spec k i); try lia;
        try reflexivity.
      destruct (Z.eqb_spec (first + k) first), (Z.eqb_spec k 0); try lia; reflexivity. }
    destruct (siftDown_spec l1 0 i first) as (l2 & E2 & W2 & Hp2); try side.
    { intros r c Lr C Ch. rewrite !K1 by lia.
      destruct (Z.eqb_spec c i); [lia|]. destruct (Z.eqb_spec c 0); [lia|].
      destruct (Z.eqb_spec r i); [lia|]. destruct (Z.eqb_spec r 0); [lia|].
      apply Hp; lia. }
    rewrite E2. cbn [bind].
    assert (Z2 := swaps_size _ _ _ _ W2).
    replace (first + 0) with first in W2 by lia.
    assert (Below : forall v, (forall k, 0 <= k <= i -> key l (first + k) <= v) ->
                    forall x, 0 <= x < i -> key l2 (first + x) <= v).
    { intros v V x X.
      apply (swaps_all_key first (first + i) l1 l2 (fun w => w <= v) W2 F0); [|lia].
      intros k K. replace k with (first + (k - first)) by lia.
      rewrite K1 by lia.
      destruct (Z.eqb_spec (k - first) i); [lia|].
      destruct (Z.eqb_spec (k - first) 0); apply V; lia. }
    assert (Above : forall y, i <= y < hi ->
              key l2 (first + y) = if y =? i then key l (first + 0) else key l (first + y)).
    { intros y Y. rewrite (swaps_frame_key _ _ _ _ W2) by lia.
      rewrite K1 by lia. destruct (Z.eqb_spec y i); [reflexivity|].
      destruct (Z.eqb_spec y 0); [lia | reflexivity]. }
    destruct (IH l2 (i - 1)) as (l' & E & W & Srt'); try side.
    + replace (i - 1 + 1) with i by lia. exact Hp2.
    + intros x y X Y Y'.
      replace x with (first + (x - first)) by lia.
      replace y with (first + (y - first)) by lia.
      rewrite !Above by lia.
      destruct (Z.eqb_spec (y - first) i); [lia|].
      destruct (Z.eqb_spec (x - first) i).
      * apply Cross; lia.
      * apply Srt; lia.
    + intros x y X Y. rewrite (Above y) by lia.
      destruct (Z.eqb_spec y i).
      * apply Below; [|lia]. intros k K. apply Max. lia.
      * apply Below; [|lia]. intros k K. apply Cross; lia.
    + exists l'. split; [exact E|]. split; [|exact Srt'].
      apply (swaps_step _ _ l l' first (first + i)); auto; try lia.
      eapply swaps_trans; [|exact W].
      apply (swaps_weaken first (first + i)); [lia | lia | exact W2].
  - exists l. split; [reflexivity|]. split; [apply swaps_refl|].
    replace (first + i + 1) with first in Srt by lia. exact Srt.
Qed.

(** [heapSort] sorts [data[a:b]]. *)
Lemma heapSort_spec (l : byFileNumber) (a b : Z) :
  0 <= a -> a < b -> b <= size l ->
  exists l', sort.heapSort l a b = Returns l'
    /\ swaps a b l l' /\ sorted_range l' a b.
Proof.
  intros A AB B. unfold sort.heapSort. cbv zeta.
  assert (Q : Z.quot (b - a - 1) 2 = (b - a - 1) / 2) by (apply Z.quot_div_nonneg; lia).
  rewrite Q.
  destruct (heapSort_build_spec (Z.to_nat (b - a) + 2) l ((b - a - 1) / 2) (b - a) a)
    as (l1 & E1 & W1 & Hp1); try side.
  { Z.to_euclidean_division_equations; lia. }
  { Z.to_euclidean_division_equations; lia. }
  { intros r c Lr C Ch. Z.to_euclidean_division_equations; lia. }
  rewrite E1. cbn [bind].
  assert (Z1 := swaps_size _ _ _ _ W1).
  replace (a + (b - a)) with b in * by lia.
  destruct (heapSort_pop_spec (Z.to_nat (b - a) + 1) l1 (b - a - 1) (b - a) a)
    as (l' & E & W & Srt); try side.
  { replace (b - a - 1 + 1) with (b - a) by lia. exact Hp1. }
  replace (a + (b - a)) with b in * by lia.
  exists l'. split; [exact E|]. split; [|exact Srt].
  eapply swaps_trans; eauto.
Qed.

(** *** [pdqsort] *)

Lemma split_at_swaps_left (l l' : list ddlFile) (a mid b v : Z) :
  swaps a mid l l' -> 0 <= a -> a <= mid -> split_at l a mid b v -> split_at l' a mid b v.
Proof.
  intros W A M (L & K & R). repeat split.
  - apply (swaps_all_key a mid l l' (fun w => w <= v) W A L).
  - rewrite (swaps_frame_key _ _ _ _ W) by lia. exact K.
  - intros k Hk. rewrite (swaps_frame_key _ _ _ _ W) by lia. now apply R.
Qed.

Lemma split_at_swaps_right (l l' : list ddlFile) (a mid b v : Z) :
  swaps (mid + 1) b l l' -> 0 <= a -> a <= mid -> split_at l a mid b v -> split_at l' a mid b v.
Proof.
  intros W A M (L & K & R). repeat split.
  - intros k Hk. rewrite (swaps_frame_key _ _ _ _ W) by lia. now apply L.
  - rewrite (swaps_frame_key _ _ _ _ W) by lia. exact K.
  - intros k Hk.
    apply (swaps_all_key (mid + 1) b l l' (fun w => v <= w) W ltac:(lia)); [|lia].
    intros k' Hk'. apply R. lia.
Qed.

Lemma sorted_range_join (l : list ddlFile) (a mid b v : Z) :
  split_at l a mid b v -> sorted_range l a mid -> sorted_range l (mid + 1) b ->
  sorted_range l a b.
Proof.
  intros (L & K & R) S1 S2 x y X Y Y'.
  destruct (Z.lt_trichotomy y mid) as [Hy | [-> | Hy]].
  - apply S1; lia.
  - rewrite K. apply L. lia.
  - destruct (Z.lt_trichotomy x mid) as [Hx | [-> | Hx]].
    + specialize (L x ltac:(lia)). specialize (R y ltac:(lia)). lia.
    + rewrite K. apply R. lia.
    + apply S2; lia.
Qed.

Lemma lower_bound_sub (l : list ddlFile) (a b b' : Z) :
  b' <= b -> lower_bound l a b -> lower_bound l a b'.
Proof. intros B LB P k K. apply LB; lia. Qed.

(** [pdqsort] sorts [data[a:b]], whatever the flags and the limit. *)
Lemma pdqsort_loop_spec (fuel : nat) (l : byFileNumber) (a b limit : Z)
    (wasBalanced wasPartitioned : bool) :
  0 <= a -> a <= b -> b <= size l -> 0 <= limit -> (Z.to_nat (b - a) < fuel)%nat ->
  lower_bound l a b ->
  exists l', sort.pdqsort_loop fuel l a b limit wasBalanced wasPartitioned = Returns l'
    /\ swaps a b l l' /\ sorted_range l' a b.
Proof.
  revert l a b limit wasBalanced wasPartitioned.
  induction fuel as [|fuel IH]; intros l a b limit wb wp A AB B Lim F LB; [lia|].
  cbn [sort.pdqsort_loop]. cbv zeta.
  destruct (Z.leb_spec (b - a) 12) as [Short|Long].
  { apply insertionSort_spec; lia. }
  destruct (Z.eqb_spec limit 0) as [->|Lim0].
  { apply heapSort_spec; lia. }
  (* breakPatterns *)
  match goal with |- context [bind ?m _] =>
    assert (exists l1 limit1, m = Returns (l1, limit1) /\ swaps a b l l1 /\ 0 <= limit1)
      as (l1 & limit1 & E1 & W1 & Lim1)
  end.
  { destruct wb; cbn [negb].
    - exists l, limit. split; [reflexivity|]. split; [apply swaps_refl | lia].
    - destruct (breakPatterns_spec l a b) as (l1 & E1 & W1); [lia..|].
      rewrite E1. cbn [bind]. exists l1, (limit - 1). split; [reflexivity|].
      split; [exact W1 | lia]. }
  rewrite E1. cbn [bind].
  assert (Z1 := swaps_size _ _ _ _ W1).
  (* choosePivot *)
  destruct (choosePivot_spec l1 a b) as (pivot & hint & E2 & P2); [lia..|].
  rewrite E2. cbn [bind].
  (* reverseRange *)
  match goal with |- context [bind ?m _] =>
    assert (exists l2 pivot2 hint2, m = Returns (l2, pivot2, hint2)
              /\ swaps a b l1 l2 /\ a <= pivot2 < b)
      as (l2 & pivot2 & hint2 & E3 & W2 & P3)
  end.
  { destruct (sort.sortedHint_eqb hint sort.decreasingHint).
    - destruct (reverseRange_spec l1 a b) as (l2 & E3 & W2); [lia..|].
      rewrite E3. cbn [bind]. eexists _, _, _. split; [reflexivity|].
      split; [exact W2 | lia].
    - eexists _, _, _. split; [reflexivity|]. split; [apply swaps_refl | lia]. }
  rewrite E3. cbn [bind].
  assert (Z2 := swaps_size _ _ _ _ W2).
  assert (W02 : swaps a b l l2) by (eapply swaps_trans; eauto).
  assert (LB2 : lower_bound l2 a b)
    by (apply (swaps_lower_bound a b a b l); [exact W02 | lia.. | exact LB]).
  (* partialInsertionSort *)
  match goal with |- context [bind ?m _] =>
    assert (exists l3 sorted, m = Returns (l3, sorted)
              /\ swaps a b l2 l3 /\ (sorted = true -> sorted_range l3 a b))
      as (l3 & sorted & E4 & W3 & S3)
  end.
  { destruct (wb && wp && sort.sortedHint_eqb hint2 sort.increasingHint).
    - apply partialInsertionSort_spec; try lia. exact LB2.
    - exists l2, false. split; [reflexivity|]. split; [apply swaps_refl | discriminate]. }
  rewrite E4. cbn [bind].
  assert (Z3 := swaps_size _ _ _ _ W3).
  assert (W03 : swaps a b l l3) by (eapply swaps_trans; eauto).
  assert (LB3 : lower_bound l3 a b)
    by (apply (swaps_lower_bound a b a b l); [exact W03 | lia.. | exact LB]).
  destruct sorted.
  { exists l3. split; [reflexivity|]. split; [exact W03 | auto]. }
  (* many duplicates? *)
  match goal with |- context [bind ?m _] =>
    assert (exists dups, m = Returns dups
              /\ (dups = true -> 0 < a /\ key l3 pivot2 <= key l3 (a - 1)))
      as (dups & E5 & D)
  end.
  { destruct (Z.ltb_spec 0 a) as [Pos|Zero].
    - rewrite Less_spec by lia. cbn [bind]. eexists. split; [reflexivity|].
      intros Hd. apply negb_true_iff in Hd. apply Z.ltb_ge in Hd. lia.
    - exists false. split; [reflexivity | discriminate]. }
  rewrite E5. cbn [bind].
  destruct dups.
  - (* partitionEqual *)
    destruct (D eq_refl) as [Pos Ple].
    destruct (partitionEqual_spec l3 a b pivot2) as (l4 & mid & E6 & W4 & M & Q1 & Q2); [lia..|].
    rewrite E6. cbn [bind].
    assert (Z4 := swaps_size _ _ _ _ W4).
    assert (LB4 : lower_bound l4 a b)
      by (apply (swaps_lower_bound a b a b l3); [exact W4 | lia.. | exact LB3]).
    assert (Kp : key l3 (a - 1) = key l3 pivot2).
    { specialize (LB3 Pos pivot2 ltac:(lia)). lia. }
    assert (Ka : key l4 (a - 1) = key l3 pivot2).
    { rewrite (swaps_frame_key _ _ _ _ W4) by lia. exact Kp. }
    assert (Eq : forall k, a <= k < mid -> key l4 k = key l3 pivot2).
    { intros k K. specialize (Q1 k K). specialize (LB4 Pos k ltac:(lia)). lia. }
    destruct (IH l4 mid b limit1 wb wp) as (l5 & E7 & W5 & S5); try lia.
    { intros _ k K. rewrite (Eq (mid - 1)) by lia. specialize (Q2 k K). lia. }
    exists l5. split; [exact E7|]. split.
    + eapply swaps_trans; [exact W03|]. eapply swaps_trans; [exact W4|].
      apply (swaps_weaken mid b); [lia | lia | exact W5].
    + intros x y X Y Y'.
      destruct (Z.lt_ge_cases x mid) as [Hx|Hx]; [|apply S5; lia].
      rewrite (swaps_frame_key _ _ _ _ W5 x) by lia. rewrite (Eq x) by lia.
      destruct (Z.lt_ge_cases y mid) as [Hy|Hy].
      * rewrite (swaps_frame_key _ _ _ _ W5 y) by lia. rewrite (Eq y) by lia. lia.
      * assert (G := swaps_all_key mid b l4 l5 (fun w => key l3 pivot2 < w) W5 ltac:(lia)).
        cbv beta in G. specialize (G Q2 y ltac:(lia)). lia.
  - (* partition *)
    destruct (partition_spec l3 a b pivot2) as (l4 & mid & ap & E6 & W4 & M & Q1 & Q2); [lia..|].
    rewrite E6. cbn [bind].
    assert (Z4 := swaps_size _ _ _ _ W4).
    assert (W04 : swaps a b l l4) by (eapply swaps_trans; eauto).
    assert (LB4 : lower_bound l4 a b)
      by (apply (swaps_lower_bound a b a b l); [exact W04 | lia.. | exact LB]).
    assert (Sp : split_at l4 a mid b (key l4 mid)).
    { repeat split; [|exact Q2]. intros k K. specialize (Q1 k K). lia. }
    destruct (Z.ltb_spec (mid - a) (b - mid)) as [Left|Right].
    + destruct (IH l4 a mid limit1 true true) as (l5 & E7 & W5 & S5); try lia.
      { apply (lower_bound_sub l4 a b); [lia | exact LB4]. }
      rewrite E7. cbn [bind].
      assert (Z5 := swaps_size _ _ _ _ W5).
      assert (Sp5 := split_at_swaps_left l4 l5 a mid b _ W5 A ltac:(lia) Sp).
      destruct (IH l5 (mid + 1) b limit1 (Z.quot (b - a) 8 <=? mid - a) ap)
        as (l6 & E8 & W6 & S6); try lia.
      { intros _ k K. replace (mid + 1 - 1) with mid by lia.
        destruct Sp5 as (_ & K5 & R5). rewrite K5. apply R5. lia. }
      exists l6. split; [exact E8|].
      assert (Sp6 := split_at_swaps_right l5 l6 a mid b _ W6 A ltac:(lia) Sp5).
      split.
      * eapply swaps_trans; [exact W04|].
        eapply swaps_trans; [apply (swaps_weaken a mid); [lia | lia | exact W5]|].
        apply (swaps_weaken (mid + 1) b); [lia | lia | exact W6].
      * apply (sorted_range_join l6 a mid b _ Sp6); [|exact S6].
        apply (sorted_range_frame l5 l6 a mid (mid + 1) b); auto; lia.
    + destruct (IH l4 (mid + 1) b limit1 true true) as (l5 & E7 & W5 & S5); try lia.
      { intros _ k K. replace (mid + 1 - 1) with mid by lia. apply Q2. lia. }
      rewrite E7. cbn [bind].
      assert (Z5 := swaps_size _ _ _ _ W5).
      assert (Sp5 := split_at_swaps_right l4 l5 a mid b _ W5 A ltac:(lia) Sp).
      destruct (IH l5 a mid limit1 (Z.quot (b - a) 8 <=? b - mid) ap)
        as (l6 & E8 & W6 & S6); try lia.
      { apply (lower_bound_sub l5 a b); [lia|].
        apply (swaps_lower_bound a b (mid + 1) b l4); [exact W5 | lia.. | exact LB4]. }
      exists l6. split; [exact E8|].
      assert (Sp6 := split_at_swaps_left l5 l6 a mid b _ W6 A ltac:(lia) Sp5).
      split.
      * eapply swaps_trans; [exact W04|].
        eapply swaps_trans; [apply (swaps_weaken (mid + 1) b); [lia | lia | exact W5]|].
        apply (swaps_weaken a mid); [lia | lia | exact W6].
      * apply (sorted_range_join l6 a mid b _ Sp6); [exact S6|].
        intros x y X Y Y'. rewrite !(swaps_frame_key _ _ _ _ W6) by lia.
        apply S5; lia.
Qed.

(** *** [sort.Sort] *)

Lemma bits_Len_nonneg (n : Z) : 0 <= sort.bits_Len n.
Proof.
  unfold sort.bits_Len. destruct (Z.leb_spec n 0); [lia|].
  assert (L := Z.log2_nonneg n). lia.
Qed.

(** [sort.Sort] returns: the result is the slice after swaps, and its
    keys do not decrease. *)
Lemma Sort_spec (l : byFileNumber) :
  exists l', sort.Sort l = Returns l'
    /\ swaps 0 (size l) l l' /\ sorted_range l' 0 (size l').
Proof.
  unfold sort.Sort. cbn [sort.Len byFileNumber_Interface].
  change (byFileNumber_Len l) with (size l).
  destruct (Z.leb_spec (size l) 1) as [Short|Long].
  - exists l. split; [reflexivity|]. split; [apply swaps_refl|].
    intros x y X Y Y'. lia.
  - unfold sort.pdqsort.
    destruct (pdqsort_loop_spec (Z.to_nat (size l - 0) + 1) l 0 (size l)
                (sort.bits_Len (size l)) true true) as (l' & E & W & Srt);
      try lia.
    + apply bits_Len_nonneg.
    + intros P. lia.
    + exists l'. split; [exact E|]. split; [exact W|].
      now rewrite (swaps_size _ _ _ _ W).
Qed.

(** On a slice whose keys do not decrease [sort.Sort] swaps nothing. *)
Lemma Sort_sorted (l : byFileNumber) :
  sorted_range l 0 (size l) -> sort.Sort l = Returns l.
Proof.
  intros Srt. unfold sort.Sort. cbn [sort.Len byFileNumber_Interface].
  change (byFileNumber_Len l) with (size l).
  destruct (Z.leb_spec (size l) 1) as [Short|Long]; [reflexivity|].
  unfold sort.pdqsort.
  replace (Z.to_nat (size l - 0) + 1)%nat with (S (Z.to_nat (size l))) by lia.
  cbn [sort.pdqsort_loop]. cbv zeta.
  replace (size l - 0) with (size l) by lia.
  destruct (Z.leb_spec (size l) 12) as [Le12|Gt12].
  { apply insertionSort_sorted; [lia | lia | exact Srt]. }
  assert (Lim : sort.bits_Len (size l) <> 0).
  { unfold sort.bits_Len. destruct (Z.leb_spec (size l) 0); [lia|].
    assert (L := Z.log2_nonneg (size l)). lia. }
  destruct (Z.eqb_spec (sort.bits_Len (size l)) 0) as [|_]; [contradiction|].
  cbn [negb bind].
  rewrite choosePivot_sorted by (lia || assumption). cbn [bind sort.sortedHint_eqb andb].
  rewrite partialInsertionSort_sorted by (lia || assumption).
  reflexivity.
Qed.

(** *** Sorted ranges and sorted lists of keys *)

Lemma key_cons_0 (x : ddlFile) (l : list ddlFile) : key (x :: l) 0 = fileNumber x.
Proof. reflexivity. Qed.

Lemma key_cons_succ (x : ddlFile) (l : list ddlFile) (k : Z) :
  0 <= k -> key (x :: l) (k + 1) = key l k.
Proof.
  intros K. unfold key, at_.
  replace (Z.to_nat (k + 1)) with (S (Z.to_nat k)) by lia. reflexivity.
Qed.

Lemma size_cons (x : ddlFile) (l : list ddlFile) : size (x :: l) = size l + 1.
Proof. unfold size. cbn [List.length]. lia. Qed.

Lemma In_key (l : list ddlFile) (v : Z) :
  In v (map fileNumber l) -> exists k, 0 <= k < size l /\ key l k = v.
Proof.
  intros I. apply in_map_iff in I as (f & <- & I).
  destruct (In_nth l f zeroFile I) as (n & N & E).
  exists (Z.of_nat n). unfold size, key, at_. rewrite Nat2Z.id, E. split; [lia | reflexivity].
Qed.

Lemma key_In (l : list ddlFile) (k : Z) :
  0 <= k < size l -> In (key l k) (map fileNumber l).
Proof.
  intros K. unfold key, at_. apply in_map. apply nth_In. unfold size in K. lia.
Qed.

Lemma sorted_range_StronglySorted (l : list ddlFile) :
  sorted_range l 0 (size l) -> StronglySorted Z.le (map fileNumber l).
Proof.
  induction l as [|x l IH]; intros Srt; cbn [map]; constructor.
  - apply IH. intros i j I IJ J.
    rewrite <- (key_cons_succ x l i), <- (key_cons_succ x l j) by lia.
    apply Srt; rewrite ?size_cons; lia.
  - apply Forall_forall. intros v V.
    destruct (In_key l v V) as (k & K & <-).
    rewrite <- (key_cons_0 x l), <- (key_cons_succ x l k) by lia.
    apply Srt; rewrite ?size_cons; lia.
Qed.

Lemma StronglySorted_sorted_range (l : list ddlFile) :
  StronglySorted Z.le (map fileNumber l) -> sorted_range l 0 (size l).
Proof.
  induction l as [|x l IH]; intros Srt i j I IJ J.
  - unfold size in J. cbn in J. lia.
  - cbn [map] in Srt. apply StronglySorted_inv in Srt as [Srt Fa].
    rewrite size_cons in J.
    replace j with (j - 1 + 1) by lia. rewrite key_cons_succ by lia.
    destruct (Z.eq_dec i 0) as [->|Ni].
    + rewrite key_cons_0. rewrite Forall_forall in Fa. apply Fa, key_In. lia.
    + replace i with (i - 1 + 1) by lia. rewrite key_cons_succ by lia.
      apply (IH Srt); lia.
Qed.

Lemma Sorted_sorted_range (l : list ddlFile) :
  Sorted Z.le (map fileNumber l) -> sorted_range l 0 (size l).
Proof.
  intros Srt. apply StronglySorted_sorted_range, Sorted_StronglySorted; [|exact Srt].
  intros x y z. apply Z.le_trans.
Qed.

Lemma sorted_range_Sorted (l : list ddlFile) :
  sorted_range l 0 (size l) -> Sorted Z.le (map fileNumber l).
Proof. intros Srt. apply StronglySorted_Sorted, sorted_range_StronglySorted, Srt. Qed.

(** [sort.Sort] on the files, in terms of lists. *)
Lemma Sort_sorts (l : byFileNumber) :
  exists l', sort.Sort l = Returns l'
    /\ Permutation l l' /\ Sorted Z.le (map fileNumber l').
Proof.
  destruct (Sort_spec l) as (l' & E & W & Srt).
  exists l'. split; [exact E|]. split.
  - apply (swaps_Permutation _ _ _ _ W).
  - apply sorted_range_Sorted, Srt.
Qed.

Lemma Sort_Sorted_id (l : byFileNumber) :
  Sorted Z.le (map fileNumber l) -> sort.Sort l = Returns l.
Proof. intros Srt. apply Sort_sorted, Sorted_sorted_range, Srt. Qed.

(** Sorting what [sort.Sort] returned changes nothing. *)
Lemma Sort_idempotent (l l' : byFileNumber) :
  sort.Sort l = Returns l' -> sort.Sort l' = Returns l'.
Proof.
  intros E. destruct (Sort_sorts l) as (l'' & E' & _ & Srt).
  rewrite E in E'. injection E' as <-. now apply Sort_Sorted_id.
Qed.

(** *** [sort.Sort] on some slices *)

(** Twenty files in descending order, above the size that insertion
    sort handles alone. *)
Example Sort_descending :
  sort.Sort (numbered (map (fun k => (k, "t")) [20; 19; 18; 17; 16; 15; 14; 13; 12; 11;
                                                10; 9; 8; 7; 6; 5; 4; 3; 2; 1])
             : byFileNumber)
  = Returns (numbered (map (fun k => (k, "t")) [1; 2; 3; 4; 5; 6; 7; 8; 9; 10;
                                                11; 12; 13; 14; 15; 16; 17; 18; 19; 20])).
Proof. vm_compute. reflexivity. Qed.

(** Fourteen files in order, two for each key: they stay as they are. *)
Example Sort_ties_unchanged :
  sort.Sort (numbered [(1, "a"); (1, "b"); (2, "c"); (2, "d"); (3, "e"); (3, "f"); (4, "g");
                       (4, "h"); (5, "i"); (5, "j"); (6, "k"); (6, "l"); (7, "m"); (7, "n")]
             : byFileNumber)
  = Returns (numbered [(1, "a"); (1, "b"); (2, "c"); (2, "d"); (3, "e"); (3, "f"); (4, "g");
                       (4, "h"); (5, "i"); (5, "j"); (6, "k"); (6, "l"); (7, "m"); (7, "n")]).
Proof. vm_compute. reflexivity. Qed.

(** The fall-back of [pdqsort] when the limit is used up. *)
Example heapSort_descending :
  sort.pdqsort (numbered (map (fun k => (k, "t")) [14; 13; 12; 11; 10; 9; 8; 7; 6; 5;
                                                   4; 3; 2; 1])
                : byFileNumber) 0 14 0
  = Returns (numbered (map (fun k => (k, "t")) [1; 2; 3; 4; 5; 6; 7; 8; 9; 10;
                                                11; 12; 13; 14])).
Proof. vm_compute. reflexivity. Qed.
(** * Facts about the program *)

(** ** [newDDLFile] on some names *)

Example newDDLFile_001 :
  newDDLFile "001-user.sql" = Returns (mkDdlFile "001-user.sql" 1).
Proof. reflexivity. Qed.

Example newDDLFile_abc :
  newDDLFile "abc-user.sql" = Fails (NumError "Atoi" "abc" ErrSyntax).
Proof. reflexivity. Qed.

Example newDDLFile_max :
  newDDLFile "9223372036854775807-user.sql"
  = Returns (mkDdlFile "9223372036854775807-user.sql" 9223372036854775807).
Proof. reflexivity. Qed.

Example newDDLFile_max1 :
  newDDLFile "9223372036854775808-user.sql"
  = Fails (NumError "Atoi" "9223372036854775808" ErrRange).
Proof. reflexivity. Qed.

(** ** The connection strings *)

Lemma KeywordValueConnectionString_eq (dsn : PostgreSQLDSN) :
  KeywordValueConnectionString dsn = keywordValueShape dsn.
Proof.
  unfold KeywordValueConnectionString, keywordValueShape.
  destruct (String.eqb (Password dsn) EmptyString), (String.eqb (SearchPath dsn) EmptyString).
  all: norm_string; reflexivity.
Qed.

Lemma URL_String_postgresql (user h path q : string) :
  url.URL_String
    {| url.Scheme := "postgresql";
       url.Opaque := EmptyString;
       url.URL_User := Some (url.User user);
       url.Host := h;
       url.Path := path;
       url.OmitHost := false;
       url.ForceQuery := false;
       url.RawQuery := q;
       url.Fragment := EmptyString |}
  = "postgresql://" ++ url.escape user url.encodeUserPassword ++ "@"
    ++ url.escape h url.encodeHost
    ++ pathSeparator h path ++ escapedName path
    ++ (if url.nonEmpty q then "?" ++ q else EmptyString).
Proof.
  unfold url.URL_String, pathSeparator.
  change (url.EscapedPath _) with (escapedName path).
  cbn [url.Scheme url.Opaque url.URL_User url.Host url.Path url.OmitHost
       url.ForceQuery url.RawQuery url.Fragment url.isSome url.User
       url.Userinfo_String url.passwordSet url.username].
  rewrite nonEmpty_escapedName, startsWithSlash_escapedName.
  destruct (url.nonEmpty h) eqn:Eh;
    [|assert (h = EmptyString) as -> by (destruct h; [reflexivity | discriminate Eh])];
    destruct (url.nonEmpty path); destruct (url.startsWithSlash path);
    destruct (url.nonEmpty q);
    norm_string; reflexivity.
Qed.

(** [ConnectionURI] on every datasource name. *)
Lemma ConnectionURI_eq (dsn : PostgreSQLDSN) :
  ConnectionURI dsn
  = "postgresql://" ++ url.escape (User dsn) url.encodeUserPassword ++ "@"
    ++ url.escape (Host dsn) url.encodeHost
    ++ (if Port dsn =? 0 then EmptyString else ":" ++ strconv.Itoa (Port dsn))
    ++ pathSeparator
         (if Port dsn =? 0 then Host dsn else Host dsn ++ ":" ++ strconv.Itoa (Port dsn))
         (DBName dsn)
    ++ escapedName (DBName dsn)
    ++ (if String.eqb (SearchPath dsn) EmptyString then EmptyString
        else "?options=-csearch_path%3D" ++ url.QueryEscape (SearchPath dsn)).
Proof.
  unfold ConnectionURI.
  assert (Q : forall u, url.RawQuery u = EmptyString -> url.Query u = []).
  { intros u E. unfold url.Query. now rewrite E. }
  rewrite nonEmpty_eqb.
  destruct (String.eqb (SearchPath dsn) EmptyString) eqn:ES; cbn [negb].
  - rewrite URL_String_postgresql. cbn [url.nonEmpty String.eqb negb].
    destruct (Port dsn =? 0); cbn [negb];
      rewrite ?escape_append, ?escape_host_Itoa; norm_string; reflexivity.
  - rewrite Q by reflexivity.
    unfold url.set_RawQuery.
    cbn [url.Scheme url.Opaque url.URL_User url.Host url.Path url.OmitHost
         url.ForceQuery url.RawQuery url.Fragment].
    rewrite URL_String_postgresql, Encode_options.
    replace (fmt.Sprintf "-csearch_path=%s" [fmt.Str (SearchPath dsn)])
      with ("-csearch_path=" ++ SearchPath dsn) by (norm_string; reflexivity).
    rewrite QueryEscape_search_path.
    destruct (Port dsn =? 0); cbn [negb];
      rewrite ?escape_append, ?escape_host_Itoa; norm_string; reflexivity.
Qed.


(** The password is no part of the URI. *)
Lemma ConnectionURI_withPassword (dsn : PostgreSQLDSN) (pw : string) :
  ConnectionURI (withPassword dsn pw) = ConnectionURI dsn.
Proof. reflexivity. Qed.

(** ** The argument list *)

Lemma PSQLArgs_loop_eq (dir : string) (files : list ddlFile) (args : list string) :
  PSQLArgs_loop dir files args = (args ++ fileArgs dir files)%list.
Proof.
  revert args. induction files as [|file files IH]; intros args; cbn.
  - now rewrite app_nil_r.
  - rewrite IH. unfold append. now rewrite <- !app_assoc.
Qed.

Lemma length_zero_iff (files : list ddlFile) :
  (Z.of_nat (List.length files) =? 0) = true <-> files = [].
Proof.
  destruct files; cbn; split; intros E; try reflexivity; try discriminate.
Qed.

(** ** [readDDLFiles] on a directory whose files all parse *)

Lemma readDDLFiles_parsed_sorted
    (os_ReadDir : string -> outcome (list DirEntry)) (dir : string)
    (entries : list DirEntry) (files : list ddlFile) :
  os_ReadDir dir = Returns entries ->
  parsedFiles entries = Some files ->
  exists sorted,
    readDDLFiles os_ReadDir dir = Returns sorted
    /\ Permutation files sorted
    /\ Sorted Z.le (map fileNumber sorted).
Proof.
  intros R P. unfold readDDLFiles. rewrite R. cbn [bind].
  rewrite (readDDLFiles_loop_parsed entries files [] P). cbn [bind app].
  apply Sort_sorts.
Qed.
(** * Further facts *)

(** ** [strconv.Atoi]: the value and the kind of error *)

Lemma len_String (c : ascii) (s : string) : len (String c s) = len s + 1.
Proof. unfold len. cbn [String.length]. lia. Qed.

Lemma len_nonneg (s : string) : 0 <= len s.
Proof. unfold len. lia. Qed.

(** Digits after the value [n] stay below the next multiple of the
    power of ten. *)
Lemma decimal_from_bound (s : string) (n : Z) :
  all_chars isDigit s = true -> 0 <= n ->
  decimal_from s n < (n + 1) * 10 ^ len s.
Proof.
  revert n. induction s as [|c s IH]; intros n A N.
  - cbn. lia.
  - cbn [all_chars] in A. apply andb_true_iff in A as [A1 A2].
    apply isDigit_range in A1.
    cbn [decimal_from]. rewrite len_String.
    rewrite Z.pow_add_r by (try apply len_nonneg; lia). change (10 ^ 1) with 10.
    specialize (IH (n * 10 + (strconv.byte_of c - 48)) A2 ltac:(lia)).
    assert (P : 0 < 10 ^ len s) by (apply Z.pow_pos_nonneg; [lia | apply len_nonneg]).
    nia.
Qed.

(** Fewer than 19 digits fit an [int]. *)
Lemma decimal_short (s : string) :
  all_chars isDigit s = true -> len s < 19 -> decimal s <= maxInt.
Proof.
  intros A L. assert (B := decimal_from_bound s 0 A ltac:(lia)).
  assert (P : 10 ^ len s <= 10 ^ 18)
    by (apply Z.pow_le_mono_r; [lia | lia]).
  unfold decimal, maxInt, strconv.intSize.
  change (2 ^ (64 - 1) - 1) with 9223372036854775807.
  change (10 ^ 18) with 1000000000000000000 in P. lia.
Qed.

(** On digits the loop of [ParseUint] ends with their value or with a
    range error. *)
Lemma parseUint_loop_cases (s : string) (n : Z) :
  all_chars isDigit s = true -> 0 <= n <= strconv.maxUint64 ->
  strconv.parseUint_loop s n = inl ErrRange
  \/ (strconv.parseUint_loop s n = inr (decimal_from s n)
      /\ decimal_from s n <= strconv.maxUint64).
Proof.
  revert n. induction s as [|c s IH]; intros n A N;
    cbn [strconv.parseUint_loop decimal_from]; [right; split; [reflexivity | lia]|].
  cbn [all_chars] in A. apply andb_true_iff in A as [A1 A2].
  fold (isDigit c). rewrite A1. apply isDigit_range in A1.
  unfold strconv.cutoff10, strconv.maxUint64 in *.
  change ((2 ^ 64 - 1) / 10 + 1) with 1844674407370955162.
  change (2 ^ 64 - 1) with 18446744073709551615 in *.
  change (2 ^ 64) with 18446744073709551616.
  destruct (Z.leb_spec 1844674407370955162 n) as [|C]; [now left|].
  cbv zeta.
  set (d := strconv.byte_of c - 48) in *.
  destruct (Z.ltb_spec ((n * 10 + d) mod 18446744073709551616) (n * 10)) as [|W1];
    [now left|].
  destruct (Z.ltb_spec 18446744073709551615 ((n * 10 + d) mod 18446744073709551616)) as [|W2];
    [now left|].
  cbn [orb].
  assert (E : (n * 10 + d) mod 18446744073709551616 = n * 10 + d)
    by (Z.to_euclidean_division_equations; lia).
  rewrite E. apply IH; [assumption | lia].
Qed.

(** Digits whose value is above the largest [int]: a range error,
    with or without a plus sign. *)
Lemma Atoi_digits_range (sign digits : string) :
  sign = EmptyString \/ sign = "+" ->
  all_chars isDigit digits = true -> maxInt < decimal digits ->
  strconv.Atoi (sign ++ digits) = Fails (NumError "Atoi" (sign ++ digits) ErrRange).
Proof.
  intros Sg A M.
  assert (L : 19 <= len digits).
  { destruct (Z.lt_ge_cases (len digits) 19) as [L|L]; [|exact L].
    assert (B := decimal_short digits A L). lia. }
  assert (NE : exists c s, digits = String c s).
  { destruct digits as [|c s]; [cbn in L; lia | eauto]. }
  destruct NE as (c & s & ->).
  assert (A' := A). cbn [all_chars] in A'. apply andb_true_iff in A' as [A1 A2].
  destruct (isDigit_not_sign c A1) as [S1 S2].
  assert (U : strconv.parseUint_loop (String c s) 0 = inl ErrRange
              \/ (strconv.parseUint_loop (String c s) 0 = inr (decimal (String c s))
                  /\ decimal (String c s) <= strconv.maxUint64)).
  { apply parseUint_loop_cases; [assumption|].
    unfold strconv.maxUint64. change (2 ^ 64 - 1) with 18446744073709551615. lia. }
  unfold maxInt, strconv.intSize in M.
  change (2 ^ (64 - 1) - 1) with 9223372036854775807 in M.
  unfold strconv.Atoi.
  destruct Sg as [-> | ->].
  - change (EmptyString ++ String c s) with (String c s).
    replace ((0 <? len (String c s)) && (len (String c s) <? 19)) with false
      by (symmetry; apply andb_false_iff; right; apply Z.ltb_ge; lia).
    unfold strconv.ParseInt10. rewrite S1, S2. cbn [orb negb andb].
    unfold strconv.ParseUint10.
    destruct U as [-> | [-> _]]; [reflexivity|].
    unfold strconv.intSize. change (2 ^ (64 - 1)) with 9223372036854775808.
    replace (9223372036854775808 <=? decimal (String c s)) with true
      by (symmetry; apply Z.leb_le; lia).
    reflexivity.
  - change ("+" ++ String c s) with (String "+" (String c s)).
    replace ((0 <? len (String "+" (String c s))) && (len (String "+" (String c s)) <? 19))
      with false
      by (symmetry; apply andb_false_iff; right; apply Z.ltb_ge;
          rewrite len_String; lia).
    unfold strconv.ParseInt10.
    change (("+" =? "-")%char) with false. change (("+" =? "+")%char) with true.
    cbn [orb negb andb].
    unfold strconv.ParseUint10.
    destruct U as [-> | [-> _]]; [reflexivity|].
    unfold strconv.intSize. change (2 ^ (64 - 1)) with 9223372036854775808.
    replace (9223372036854775808 <=? decimal (String c s)) with true
      by (symmetry; apply Z.leb_le; lia).
    reflexivity.
Qed.

(** A string without a minus sign that [strconv.Atoi] turns into a
    number: digits, after a plus sign or none, and the number is their
    value. *)
Lemma Atoi_Returns_unsigned (s : string) (v : Z) :
  all_chars notDash s = true -> strconv.Atoi s = Returns v ->
  exists sign digits,
    s = sign ++ digits
    /\ (sign = EmptyString \/ sign = "+")
    /\ digits <> EmptyString
    /\ all_chars isDigit digits = true
    /\ v = decimal digits
    /\ 0 <= v <= maxInt.
Proof.
  intros ND E.
  destruct (Atoi_Returns_isInteger s v E) as (sign & digits & -> & Sg & NE & D).
  assert (Sg' : sign = EmptyString \/ sign = "+").
  { destruct Sg as [-> | [-> | ->]]; auto. discriminate ND. }
  exists sign, digits. repeat split; auto.
  all: assert (G := decimal_from_ge digits 0 D ltac:(lia)); fold (decimal digits) in G.
  all: destruct (Z.le_gt_cases (decimal digits) maxInt) as [M|M];
    [|rewrite (Atoi_digits_range sign digits Sg' D ltac:(lia)) in E; discriminate E].
  all: assert (V : strconv.Atoi (sign ++ digits) = Returns (decimal digits))
    by (destruct Sg' as [-> | ->];
        [now apply Atoi_digits | now apply Atoi_plus_digits]).
  all: rewrite V in E; injection E as <-; lia || reflexivity.
Qed.

(** Below 19 bytes [strconv.Atoi] knows no error but the syntax error. *)
Lemma Atoi_short (s : string) :
  len s < 19 ->
  (exists v, strconv.Atoi s = Returns v)
  \/ strconv.Atoi s = Fails (NumError "Atoi" s ErrSyntax).
Proof.
  intros L. unfold strconv.Atoi.
  destruct ((0 <? len s) && (len s <? 19)) eqn:C.
  - destruct s as [|c s]; [now right|].
    destruct (((c =? "-")%char || (c =? "+")%char)
              && (len (if (c =? "-")%char || (c =? "+")%char then s else String c s) <? 1));
      [now right|].
    destruct (strconv.atoi_fast_loop _ 0); [left; eexists; reflexivity | now right].
  - apply andb_false_iff in C as [C | C].
    + apply Z.ltb_ge in C. destruct s as [|c s]; [now right|].
      rewrite len_String in C. assert (N := len_nonneg s). lia.
    + apply Z.ltb_ge in C. lia.
Qed.

(** Zeros before digits do not change their value. *)
Lemma decimal_zeros (k : nat) (digits : string) :
  decimal (zeros k ++ digits) = decimal digits.
Proof.
  induction k as [|k IH]; [reflexivity|].
  unfold decimal in *. cbn [zeros String.append decimal_from]. exact IH.
Qed.

Lemma zeros_digits (k : nat) : all_chars isDigit (zeros k) = true.
Proof. induction k as [|k IH]; [reflexivity | exact IH]. Qed.

(** ** [newDDLFile] *)

(** A name with the separator, of digits before it. *)
Lemma newDDLFile_digits (digits rest : string) :
  digits <> EmptyString -> all_chars isDigit digits = true -> decimal digits <= maxInt ->
  newDDLFile (digits ++ String "-" rest)
  = Returns (mkDdlFile (digits ++ String "-" rest) (decimal digits)).
Proof.
  intros NE D M. rewrite newDDLFile_split by now apply digits_notDash.
  now rewrite Atoi_digits.
Qed.

(** The file [newDDLFile] returns has the name it was given. *)
Lemma newDDLFile_filename (f : string) (df : ddlFile) :
  newDDLFile f = Returns df -> filename df = f.
Proof.
  unfold newDDLFile. intros E.
  destruct (slice_to f (strings.Index f "-")) as [pre| | |]; try discriminate E.
  cbn [bind] in E.
  destruct (strconv.Atoi pre) as [fn| | |]; try discriminate E.
  cbn [bind] in E. injection E as <-. reflexivity.
Qed.

(** ** The files of a listing *)

Lemma parsedFiles_filename (entries : list DirEntry) (files : list ddlFile) :
  parsedFiles entries = Some files ->
  map filename files = map Name (fileEntries entries).
Proof.
  revert files. induction entries as [|e entries IH]; intros files P; cbn in *.
  - injection P as <-. reflexivity.
  - destruct (IsDir e); cbn [negb]; [now apply IH|].
    destruct (newDDLFile (Name e)) as [df| | |] eqn:E; try discriminate.
    destruct (parsedFiles entries) as [dfs|]; [|discriminate].
    injection P as <-. cbn [map].
    now rewrite (newDDLFile_filename _ _ E), (IH dfs eq_refl).
Qed.

(** The loop of [readDDLFiles] steps over the subdirectories. *)
Lemma readDDLFiles_loop_fileEntries (entries : list DirEntry) (acc : list ddlFile) :
  readDDLFiles_loop (fileEntries entries) acc = readDDLFiles_loop entries acc.
Proof.
  revert acc. induction entries as [|e entries IH]; intros acc; [reflexivity|].
  cbn [fileEntries filter readDDLFiles_loop].
  destruct (IsDir e) eqn:D; cbn [negb]; [apply IH|].
  cbn [readDDLFiles_loop]. rewrite D.
  destruct (newDDLFile (Name e)); cbn [bind]; try reflexivity. apply IH.
Qed.

(** A listing in another order parses to the same files in another
    order. *)
Lemma parsedFiles_Permutation (e1 e2 : list DirEntry) :
  Permutation e1 e2 ->
  forall f1, parsedFiles e1 = Some f1 ->
  exists f2, parsedFiles e2 = Some f2 /\ Permutation f1 f2.
Proof.
  induction 1 as [|x l l' P IH|x y l|l l' l'' P1 IH1 P2 IH2]; intros f1 E.
  - exists f1. split; [exact E | reflexivity].
  - cbn [parsedFiles] in *. destruct (IsDir x); [now apply IH|].
    destruct (newDDLFile (Name x)) as [df| | |]; try discriminate.
    destruct (parsedFiles l) as [dfs|]; [|discriminate].
    injection E as <-.
    destruct (IH dfs eq_refl) as (f2 & -> & Pf).
    exists (df :: f2). split; [reflexivity | now constructor].
  - cbn [parsedFiles] in *.
    destruct (IsDir x), (IsDir y);
      try (exists f1; split; [exact E | reflexivity]).
    destruct (newDDLFile (Name y)) as [dy| | |]; try discriminate;
      destruct (newDDLFile (Name x)) as [dx| | |]; try discriminate;
      destruct (parsedFiles l) as [dfs|]; try discriminate.
    injection E as <-.
    exists (dx :: dy :: dfs). split; [reflexivity | apply perm_swap].
  - destruct (IH1 f1 E) as (f2 & E2 & Pa).
    destruct (IH2 f2 E2) as (f3 & E3 & Pb).
    exists f3. split; [exact E3 | now transitivity f2].
Qed.

(** ** Sorted lists with distinct keys *)

(** Two arrangements of the same files with distinct keys, both in
    the order of the keys, are one. *)
Lemma Sorted_Permutation_unique (l1 l2 : list ddlFile) :
  NoDup (map fileNumber l1) ->
  Sorted Z.le (map fileNumber l1) -> Sorted Z.le (map fileNumber l2) ->
  Permutation l1 l2 -> l1 = l2.
Proof.
  intros ND S1 S2.
  apply Sorted_StronglySorted in S1; [|intros a b c; lia].
  apply Sorted_StronglySorted in S2; [|intros a b c; lia].
  revert l2 S2. induction l1 as [|x t1 IH]; intros l2 S2 P.
  - now apply Permutation_nil in P.
  - destruct l2 as [|y t2]; [apply Permutation_sym, Permutation_nil in P; discriminate|].
    cbn [map] in *.
    inversion S1 as [|k1 ks1 T1 F1]; subst.
    inversion S2 as [|k2 ks2 T2 F2]; subst.
    inversion ND as [|k ks NI ND' E]; subst.
    assert (X : x = y).
    { assert (Ix : In x (y :: t2)) by (apply (Permutation_in _ P); now left).
      assert (Iy : In y (x :: t1))
        by (apply (Permutation_in _ (Permutation_sym P)); now left).
      destruct Ix as [-> | Ix]; [reflexivity|].
      destruct Iy as [-> | Iy]; [reflexivity|].
      exfalso. apply NI.
      rewrite Forall_forall in F1, F2.
      assert (A := F1 _ (in_map fileNumber _ _ Iy)).
      assert (B := F2 _ (in_map fileNumber _ _ Ix)).
      replace (fileNumber x) with (fileNumber y) by lia.
      now apply in_map. }
    subst y. f_equal. apply IH; auto.
    now apply Permutation_cons_inv in P.
Qed.

(** ** [Less] and [Swap] of [byFileNumber] outside the slice *)

Lemma index_out_of_range (l : list ddlFile) (i : Z) :
  ~ 0 <= i < size l -> index l i = Panics (indexOutOfRange i (size l)).
Proof.
  intros R. unfold index, size in *.
  destruct (Z.ltb_spec i 0) as [|N]; [reflexivity|].
  destruct (nth_error l (Z.to_nat i)) as [x|] eqn:E; [|reflexivity].
  exfalso. apply R. split; [lia|].
  assert (L : (Z.to_nat i < List.length l)%nat)
    by (apply nth_error_Some; congruence).
  lia.
Qed.

(** Two elements changed places twice are back where they were. *)
Lemma swapped_swapped (l : list ddlFile) (i j : Z) :
  0 <= i < size l -> 0 <= j < size l -> swapped (swapped l i j) i j = l.
Proof.
  intros I J.
  assert (Sz := size_swapped l i j).
  apply (nth_ext _ _ zeroFile zeroFile).
  - assert (Sz2 := size_swapped (swapped l i j) i j). unfold size in *. lia.
  - intros n L.
    assert (Sz2 := size_swapped (swapped l i j) i j).
    assert (K : 0 <= Z.of_nat n) by lia.
    assert (E := at_swapped (swapped l i j) i j (Z.of_nat n)
                   ltac:(lia) ltac:(lia) K).
    unfold at_ in E at 1. rewrite Nat2Z.id in E. rewrite E.
    rewrite !at_swapped by lia.
    rewrite !Z.eqb_refl.
    destruct (Z.eqb_spec (Z.of_nat n) j) as [<-|N1].
    + destruct (Z.eqb_spec i (Z.of_nat n)) as [->|N2];
        unfold at_; now rewrite Nat2Z.id.
    + destruct (Z.eqb_spec (Z.of_nat n) i) as [<-|N2].
      * destruct (Z.eqb_spec j (Z.of_nat n)); unfold at_; now rewrite Nat2Z.id.
      * unfold at_; now rewrite Nat2Z.id.
Qed.

(** ** Escaping *)

(** What holds of the escape of every single byte holds of the escape
    of every string. *)
Lemma escape_all_chars (p : ascii -> bool) (mode : url.encoding) :
  (forall c, all_chars p (url.escape (String c EmptyString) mode) = true) ->
  forall s, all_chars p (url.escape s mode) = true.
Proof.
  intros B. induction s as [|c s IH]; [reflexivity|].
  change (String c s) with (String c EmptyString ++ s).
  now rewrite escape_append, all_chars_append, B, IH.
Qed.


(** In a query component no [&], [=], [#], [?], [/], [;] is left, nor
    a space. *)
Lemma QueryEscape_safe (s : string) :
  noneOf "&=#?/; " (url.QueryEscape s) = true.
Proof.
  apply escape_all_chars. intros c.
  destruct c as [[] [] [] [] [] [] [] []]; reflexivity.
Qed.



(** ** Strings with a common end, and with different ends *)


(** ** The shell *)

Lemma andThen_pure_Returns {A B : Type} (a : A) (k : A -> sh.shell B)
    (ran : list sh.command) :
  sh.andThen (sh.pure (Returns a)) k ran = k a ran.
Proof. reflexivity. Qed.

(** A command and what comes after it. *)
Lemma andThen_Run {B : Type} (exec : list sh.command -> sh.command -> outcome unit)
    (cmd : string) (args : list string) (k : unit -> sh.shell B) (ran : list sh.command) :
  sh.andThen (sh.Run exec cmd args) k ran
  = match exec ran (sh.mkCommand cmd args) with
    | Returns x => k x (ran ++ [sh.mkCommand cmd args])%list
    | Fails e => ((ran ++ [sh.mkCommand cmd args])%list, Fails e)
    | Panics p => ((ran ++ [sh.mkCommand cmd args])%list, Panics p)
    | OutOfFuel => ((ran ++ [sh.mkCommand cmd args])%list, OutOfFuel)
    end.
Proof. reflexivity. Qed.

(** The last command of a target: its outcome is the outcome of the
    target. *)
Lemma Run_last (exec : list sh.command -> sh.command -> outcome unit)
    (cmd : string) (args : list string) (ran : list sh.command) :
  sh.andThen (sh.Run exec cmd args) (fun _ => sh.pure (Returns tt)) ran
  = ((ran ++ [sh.mkCommand cmd args])%list, exec ran (sh.mkCommand cmd args)).
Proof.
  unfold sh.andThen, sh.Run, sh.pure, append.
  destruct (exec ran (sh.mkCommand cmd args)) as [[]| | |]; reflexivity.
Qed.

(** ** Integers, decided *)

Lemma isInteger_isIntegerb (s : string) : isInteger s -> isIntegerb s = true.
Proof.
  intros (sign & digits & -> & Sg & NE & D).
  destruct digits as [|c digits]; [congruence|].
  destruct Sg as [-> | [-> | ->]].
  - change (EmptyString ++ String c digits) with (String c digits).
    assert (D' := D). cbn [all_chars] in D'. apply andb_true_iff in D' as [D1 _].
    destruct (isDigit_not_sign c D1) as [S1 S2].
    unfold isIntegerb. rewrite S1, S2. exact D.
  - cbn. exact D.
  - cbn. exact D.
Qed.

(** ** [strconv.Itoa] *)

Lemma Itoa_injective (n m : Z) : strconv.Itoa n = strconv.Itoa m -> n = m.
Proof.
  unfold strconv.Itoa. intros E.
  assert (N : forall z, Z.to_int z <> Decimal.Pos Decimal.Nil
                        /\ Z.to_int z <> Decimal.Neg Decimal.Nil).
  { intros [|p|p]; cbn; split; try discriminate;
      intros [= C]; apply (DecimalPos.Unsigned.to_uint_nonnil p C). }
  apply (f_equal NilZero.int_of_string) in E.
  rewrite !NilZero.isi in E by apply N.
  injection E as E. apply (f_equal Z.of_int) in E.
  now rewrite !DecimalZ.of_to in E.
Qed.

Lemma Itoa_no_space (n : Z) :
  all_chars (fun c => negb (Ascii.eqb c " ")) (strconv.Itoa n) = true.
Proof.
  apply (all_chars_impl (fun c => isDigit c || Ascii.eqb c "-")); [|apply Itoa_chars].
  intros c H. apply orb_true_iff in H as [D | M].
  - destruct (Ascii.eqb_spec c " ") as [->|]; [discriminate D | reflexivity].
  - apply Ascii.eqb_eq in M. now subst c.
Qed.

(** A name, a colon, a space and a word without a space: the name and
    the word can be read off. *)
Lemma colon_space_split (f1 f2 t1 t2 : string) :
  all_chars (fun c => negb (Ascii.eqb c " ")) t1 = true ->
  all_chars (fun c => negb (Ascii.eqb c " ")) t2 = true ->
  f1 ++ ": " ++ t1 = f2 ++ ": " ++ t2 -> f1 = f2 /\ t1 = t2.
Proof.
  intros T1 T2.
  assert (X : forall f t t', all_chars (fun c => negb (Ascii.eqb c " ")) t = true ->
              ": " ++ t = String.append (String.append f ": ") t' -> f = EmptyString).
  { intros [|c [|d f]] t t' T E; [reflexivity | |]; cbn in E.
    - discriminate E.
    - injection E as _ _ E. subst t.
      rewrite !all_chars_append in T. cbn in T.
      rewrite andb_false_r in T. discriminate T. }
  revert f2. induction f1 as [|c f1 IH]; intros [|d f2] E.
  - cbn in E. injection E as E. auto.
  - change (": " ++ t1 = String d f2 ++ ": " ++ t2) in E.
    rewrite <- (append_assoc (String d f2)) in E.
    apply X in E; [discriminate E | exact T1].
  - symmetry in E. change (": " ++ t2 = String c f1 ++ ": " ++ t1) in E.
    rewrite <- (append_assoc (String c f1)) in E.
    apply X in E; [discriminate E | exact T2].
  - cbn in E. injection E as -> E. destruct (IH f2 E) as [-> ->]. auto.
Qed.

(** ** [PSQLArgs] on a directory whose files all parse *)

Lemma PSQLArgs_dir (f : ConfigFile.t) (up : bool) :
  (if up then ConfigFile.MigrationScriptsDir (ConfigFile.config f) ++ "/up"
   else ConfigFile.MigrationScriptsDir (ConfigFile.config f) ++ "/down")
  = migrationDir f up.
Proof. unfold migrationDir. now destruct up. Qed.

Lemma PSQLArgs_parsed_sorted
    (os_ReadFile : string -> outcome string)
    (os_ReadDir : string -> outcome (list DirEntry))
    (json_Unmarshal : string -> outcome ConfigFile.t)
    (up : bool) (profile : string) (f : ConfigFile.t)
    (entries : list DirEntry) (files : list ddlFile) :
  NewConfigFile os_ReadFile json_Unmarshal ("./config/" ++ profile ++ ".json") = Returns f ->
  os_ReadDir (migrationDir f up) = Returns entries ->
  parsedFiles entries = Some files ->
  files <> [] ->
  exists sorted,
    Permutation files sorted
    /\ Sorted Z.le (map fileNumber sorted)
    /\ PSQLArgs os_ReadFile os_ReadDir json_Unmarshal up profile
       = Returns (["-w"; "-d"; ConnectionURI (newPostgreSQLDSN f); "-c";
                   "select current_database(), current_user, version()"]
                  ++ fileArgs (migrationDir f up) sorted)%list.
Proof.
  intros C R P NE.
  destruct (readDDLFiles_parsed_sorted os_ReadDir (migrationDir f up) entries files R P)
    as (sorted & E & Perm & Srt).
  exists sorted. split; [exact Perm|]. split; [exact Srt|].
  unfold PSQLArgs. rewrite C. cbn [bind]. rewrite PSQLArgs_dir, E. cbn [bind].
  destruct (Z.of_nat (List.length sorted) =? 0) eqn:Z0.
  - apply length_zero_iff in Z0. subst sorted.
    apply Permutation_sym, Permutation_nil in Perm. contradiction.
  - now rewrite PSQLArgs_loop_eq.
Qed.

Lemma fileArgs_names (dir : string) (files : list ddlFile) :
  fileArgs dir files
  = flat_map (fun name => ["-f"; dir ++ "/" ++ name]) (map filename files).
Proof.
  unfold fileArgs. induction files as [|file files IH]; [reflexivity|].
  cbn [flat_map map]. now rewrite IH.
Qed.

(** ** [PSQLArgs] on a directory without files *)

Lemma PSQLArgs_no_files
    (os_ReadFile : string -> outcome string)
    (os_ReadDir : string -> outcome (list DirEntry))
    (json_Unmarshal : string -> outcome ConfigFile.t)
    (up : bool) (profile : string) (f : ConfigFile.t) (entries : list DirEntry) :
  NewConfigFile os_ReadFile json_Unmarshal ("./config/" ++ profile ++ ".json") = Returns f ->
  os_ReadDir (migrationDir f up) = Returns entries ->
  fileEntries entries = [] ->
  PSQLArgs os_ReadFile os_ReadDir json_Unmarshal up profile
  = Fails (errorString ("there are no DDL files to process in " ++ migrationDir f up)).
Proof.
  intros C R D.
  unfold PSQLArgs. rewrite C. cbn [bind]. rewrite PSQLArgs_dir.
  unfold readDDLFiles. rewrite R. cbn [bind].
  rewrite <- readDDLFiles_loop_fileEntries, D. cbn [readDDLFiles_loop bind].
  rewrite Sort_short by (cbn; lia). cbn [bind List.length Z.of_nat Z.eqb].
  unfold fmt.Errorf. f_equal. f_equal. norm_string. reflexivity.
Qed.

(** * The claims of the specification *)

(** ** C5: the keyword/value connection string *)

(** C5.  For every datasource name the keyword/value connection
    string is exactly [host=<host> port=<port> dbname=<name>
    user=<user>], then [ password=<password>] if and only if the
    password is not empty, then [ sslmode=disable], then
    [ search_path=<searchPath>] if and only if the search path is not
    empty; on the configuration of the specification it is
    [host=localhost port=5432 dbname=mydb user=alice sslmode=disable
    search_path=public]. *)
Theorem KeywordValueConnectionString_shape :
  (forall dsn : PostgreSQLDSN,
     KeywordValueConnectionString dsn
     = "host=" ++ Host dsn ++ " port=" ++ strconv.Itoa (Port dsn)
       ++ " dbname=" ++ DBName dsn ++ " user=" ++ User dsn
       ++ (if String.eqb (Password dsn) EmptyString then EmptyString
           else " password=" ++ Password dsn)
       ++ " sslmode=disable"
       ++ (if String.eqb (SearchPath dsn) EmptyString then EmptyString
           else " search_path=" ++ SearchPath dsn))
  /\ KeywordValueConnectionString localDSN
     = "host=localhost port=5432 dbname=mydb user=alice sslmode=disable search_path=public"
  /\ KeywordValueConnectionString (withPassword localDSN "secret")
     = "host=localhost port=5432 dbname=mydb user=alice password=secret sslmode=disable search_path=public".
Proof.
  split; [|split; reflexivity].
  intros dsn. apply KeywordValueConnectionString_eq.
Qed.

(** ** C10: the port in the keyword/value connection string *)

(** C10.  For every datasource name the keyword/value connection
    string has the segment [port=<port>] after the host, also when the
    port is zero: with port 0 it reads [port=0], where the URI has no
    port at all. *)
Theorem KeywordValueConnectionString_port :
  (forall dsn : PostgreSQLDSN,
     exists rest : string,
       KeywordValueConnectionString dsn
       = "host=" ++ Host dsn ++ " port=" ++ strconv.Itoa (Port dsn) ++ " dbname=" ++ rest)
  /\ KeywordValueConnectionString
       (mkPostgreSQLDSN "localhost" 0 "mydb" "public" "alice" EmptyString)
     = "host=localhost port=0 dbname=mydb user=alice sslmode=disable search_path=public"
  /\ ConnectionURI (mkPostgreSQLDSN "localhost" 0 "mydb" "public" "alice" EmptyString)
     = "postgresql://alice@localhost/mydb?options=-csearch_path%3Dpublic".
Proof.
  split; [|split; reflexivity].
  intros dsn. rewrite KeywordValueConnectionString_eq. unfold keywordValueShape.
  eexists. reflexivity.
Qed.

(** ** C6: the connection URI *)




(** ** C7: the ordering key of a numbered file name *)

(** C7, as stated, fails: a decimal number that does not fit an [int]
    is refused by [strconv.Atoi] with a range error. *)
Lemma newDDLFile_key_counterexample :
  newDDLFile "99999999999999999999-big.sql"
  = Fails (NumError "Atoi" "99999999999999999999" ErrRange).
Proof. reflexivity. Qed.

(** C7 (amended).  For every file name [<int>-<rest>] whose prefix
    before the first [-] is a base-10 integer (decimal digits, with or
    without a leading [+]) that fits an [int] (at most
    9223372036854775807), [newDDLFile] returns that integer as the
    ordering key and the whole name as the file name. *)
Theorem newDDLFile_key (sign digits rest : string) :
  sign = EmptyString \/ sign = "+" ->
  digits <> EmptyString ->
  all_chars isDigit digits = true ->
  decimal digits <= maxInt ->
  newDDLFile (sign ++ digits ++ "-" ++ rest)
  = Returns {| filename := sign ++ digits ++ "-" ++ rest; fileNumber := decimal digits |}.
Proof.
  intros Sg NE D M.
  assert (ND := digits_notDash digits D).
  rewrite <- append_assoc.
  change ("-" ++ rest) with (String "-" rest).
  rewrite newDDLFile_split.
  - destruct Sg as [-> | ->].
    + change (EmptyString ++ digits) with digits.
      now rewrite Atoi_digits.
    + change ("+" ++ digits) with (String "+" digits).
      now rewrite Atoi_plus_digits.
  - rewrite all_chars_append, ND. destruct Sg as [-> | ->]; reflexivity.
Qed.

Lemma newDDLFile_key_witness :
  newDDLFile "001-user.sql" = Returns {| filename := "001-user.sql"; fileNumber := 1 |}.
Proof.
  apply (newDDLFile_key EmptyString "001" "user.sql");
    [left; reflexivity | discriminate | reflexivity | vm_compute; discriminate].
Defined.

(** ** C2: file names that do not parse *)

(** C2: the code at a name without the separator.  [strings.Index]
    answers -1 and the slice expression [f[:i]] panics; no error is
    returned. *)
Theorem newDDLFile_without_separator_panics :
  newDDLFile "README.md" = Panics (sliceBoundsOutOfRange (-1) 9).
Proof. reflexivity. Qed.

(** ** C8: the first file that does not parse *)



(** ** C4: a directory without files *)

(** C4, as stated, fails: on a directory without files [readDDLFiles]
    returns the empty collection and no error. *)
Lemma readDDLFiles_empty_counterexample :
  readDDLFiles (local_ReadDir []) "migrations/up" = Returns []
  /\ forall err, readDDLFiles (local_ReadDir []) "migrations/up" <> Fails err.
Proof. split; [reflexivity | intros err; vm_compute; discriminate]. Qed.

(** C4 (amended).  For every directory that can be read and has no
    file (only subdirectories, or nothing), [readDDLFiles] returns the
    empty collection without an error, and it is its caller [PSQLArgs]
    that returns the error [there are no DDL files to process in
    <dir>]. *)
Theorem PSQLArgs_empty_directory
    (os_ReadFile : string -> outcome string)
    (os_ReadDir : string -> outcome (list DirEntry))
    (json_Unmarshal : string -> outcome ConfigFile.t)
    (up : bool) (profile : string) (f : ConfigFile.t) (entries : list DirEntry) :
  NewConfigFile os_ReadFile json_Unmarshal ("./config/" ++ profile ++ ".json") = Returns f ->
  os_ReadDir (migrationDir f up) = Returns entries ->
  (forall e, In e entries -> IsDir e = true) ->
  readDDLFiles os_ReadDir (migrationDir f up) = Returns []
  /\ PSQLArgs os_ReadFile os_ReadDir json_Unmarshal up profile
     = Fails (errorString ("there are no DDL files to process in " ++ migrationDir f up)).
Proof.
  intros C R D.
  assert (L : readDDLFiles os_ReadDir (migrationDir f up) = Returns []).
  { unfold readDDLFiles. rewrite R. cbn [bind].
    rewrite (readDDLFiles_loop_parsed entries [] [] (parsedFiles_all_dirs entries D)).
    cbn [bind app]. apply Sort_short. cbn. lia. }
  split; [exact L|].
  unfold PSQLArgs. rewrite C. cbn [bind].
  replace (if up then _ else _) with (migrationDir f up)
    by (unfold migrationDir; destruct up; reflexivity).
  rewrite L. cbn [bind List.length Z.of_nat Z.eqb].
  unfold fmt.Errorf. f_equal. f_equal. norm_string. reflexivity.
Qed.

Lemma PSQLArgs_empty_directory_witness :
  readDDLFiles (local_ReadDir [subdirectory "archive"]) "migrations/up" = Returns []
  /\ PSQLArgs local_ReadFile (local_ReadDir [subdirectory "archive"]) local_Unmarshal
       true "local"
     = Fails (errorString "there are no DDL files to process in migrations/up").
Proof.
  apply (PSQLArgs_empty_directory local_ReadFile (local_ReadDir [subdirectory "archive"])
           local_Unmarshal true "local" localConfig [subdirectory "archive"]).
  - reflexivity.
  - reflexivity.
  - intros e [<- | []]. reflexivity.
Defined.

(** ** C3: the files come back sorted *)

(** C3.  For every directory that can be read and whose files all
    parse, [readDDLFiles] returns the parsed files, rearranged so that
    the ordering keys do not decrease. *)
Theorem readDDLFiles_sorted
    (os_ReadDir : string -> outcome (list DirEntry)) (dir : string)
    (entries : list DirEntry) (files : list ddlFile) :
  os_ReadDir dir = Returns entries ->
  parsedFiles entries = Some files ->
  exists sorted,
    readDDLFiles os_ReadDir dir = Returns sorted
    /\ Permutation files sorted
    /\ Sorted Z.le (map fileNumber sorted).
Proof. apply readDDLFiles_parsed_sorted. Qed.

Lemma readDDLFiles_sorted_witness :
  exists sorted,
    readDDLFiles
      (local_ReadDir [file "003-c.sql"; file "001-a.sql"; subdirectory "old"; file "002-b.sql"])
      "migrations/up" = Returns sorted
    /\ Permutation
         [mkDdlFile "003-c.sql" 3; mkDdlFile "001-a.sql" 1; mkDdlFile "002-b.sql" 2] sorted
    /\ Sorted Z.le (map fileNumber sorted).
Proof.
  apply (readDDLFiles_sorted
           (local_ReadDir [file "003-c.sql"; file "001-a.sql"; subdirectory "old";
                           file "002-b.sql"])
           "migrations/up"
           [file "003-c.sql"; file "001-a.sql"; subdirectory "old"; file "002-b.sql"]);
    reflexivity.
Defined.

(** ** C9: files that are sorted already *)

(** C9.  For every list of files whose ordering keys do not decrease,
    equal keys included, [sort.Sort] returns the list as it is, and so
    does [readDDLFiles] on a directory whose parsed files are that
    list.  ([sort.Sort] promises no stable order in general; on keys
    in order its algorithm makes no swap at all.) *)
Theorem readDDLFiles_sorted_unchanged (files : list ddlFile) :
  Sorted Z.le (map fileNumber files) ->
  sort.Sort (files : byFileNumber) = Returns files
  /\ forall (os_ReadDir : string -> outcome (list DirEntry)) (dir : string)
            (entries : list DirEntry),
       os_ReadDir dir = Returns entries ->
       parsedFiles entries = Some files ->
       readDDLFiles os_ReadDir dir = Returns files.
Proof.
  intros Srt. split; [now apply Sort_Sorted_id|].
  intros os_ReadDir dir entries R P. unfold readDDLFiles. rewrite R. cbn [bind].
  rewrite (readDDLFiles_loop_parsed entries files [] P). cbn [bind app].
  now apply Sort_Sorted_id.
Qed.

Lemma readDDLFiles_sorted_unchanged_witness :
  sort.Sort ([mkDdlFile "01-b.sql" 1; mkDdlFile "1-a.sql" 1; mkDdlFile "2-c.sql" 2]
             : byFileNumber)
  = Returns [mkDdlFile "01-b.sql" 1; mkDdlFile "1-a.sql" 1; mkDdlFile "2-c.sql" 2]
  /\ forall (os_ReadDir : string -> outcome (list DirEntry)) (dir : string)
            (entries : list DirEntry),
       os_ReadDir dir = Returns entries ->
       parsedFiles entries
       = Some [mkDdlFile "01-b.sql" 1; mkDdlFile "1-a.sql" 1; mkDdlFile "2-c.sql" 2] ->
       readDDLFiles os_ReadDir dir
       = Returns [mkDdlFile "01-b.sql" 1; mkDdlFile "1-a.sql" 1; mkDdlFile "2-c.sql" 2].
Proof.
  apply (readDDLFiles_sorted_unchanged
           [mkDdlFile "01-b.sql" 1; mkDdlFile "1-a.sql" 1; mkDdlFile "2-c.sql" 2]).
  cbn [map fileNumber]. repeat constructor; lia.
Defined.

(** ** C1: the argument list *)

(** C1, as stated, fails: on a directory without files no argument
    list is returned, and two files with one ordering key follow each
    other without the key going up. *)
Lemma PSQLArgs_counterexample :
  parsedFiles [] = Some []
  /\ PSQLArgs local_ReadFile (local_ReadDir []) local_Unmarshal true "local"
     = Fails (errorString "there are no DDL files to process in migrations/up")
  /\ parsedFiles [file "01-b.sql"; file "1-a.sql"]
     = Some [mkDdlFile "01-b.sql" 1; mkDdlFile "1-a.sql" 1]
  /\ PSQLArgs local_ReadFile (local_ReadDir [file "01-b.sql"; file "1-a.sql"])
       local_Unmarshal true "local"
     = Returns ["-w"; "-d";
                "postgresql://alice@localhost:5432/mydb?options=-csearch_path%3Dpublic";
                "-c"; "select current_database(), current_user, version()";
                "-f"; "migrations/up/01-b.sql"; "-f"; "migrations/up/1-a.sql"].
Proof. repeat split; reflexivity. Qed.

(** C1 (amended).  For every configuration that loads and every
    migration directory that can be read, has at least one file and
    whose files all parse, [PSQLArgs] returns the five arguments [-w],
    [-d], the connection URI, [-c], [select current_database(),
    current_user, version()], followed by one pair [-f],
    [<dir>/<filename>] for each of the files, in an order in which the
    ordering keys do not decrease. *)
Theorem PSQLArgs_arguments
    (os_ReadFile : string -> outcome string)
    (os_ReadDir : string -> outcome (list DirEntry))
    (json_Unmarshal : string -> outcome ConfigFile.t)
    (up : bool) (profile : string) (f : ConfigFile.t)
    (entries : list DirEntry) (files : list ddlFile) :
  NewConfigFile os_ReadFile json_Unmarshal ("./config/" ++ profile ++ ".json") = Returns f ->
  os_ReadDir (migrationDir f up) = Returns entries ->
  parsedFiles entries = Some files ->
  files <> [] ->
  exists sorted,
    Permutation files sorted
    /\ Sorted Z.le (map fileNumber sorted)
    /\ PSQLArgs os_ReadFile os_ReadDir json_Unmarshal up profile
       = Returns (["-w"; "-d"; ConnectionURI (newPostgreSQLDSN f); "-c";
                   "select current_database(), current_user, version()"]
                  ++ flat_map
                       (fun file =>
                          ["-f"; (migrationDir f up ++ "/" ++ filename file)%string])
                       sorted)%list.
Proof.
  intros C R P NE.
  destruct (readDDLFiles_parsed_sorted os_ReadDir (migrationDir f up) entries files R P)
    as (sorted & E & Perm & Srt).
  exists sorted. split; [exact Perm|]. split; [exact Srt|].
  unfold PSQLArgs. rewrite C. cbn [bind].
  replace (if up then _ else _) with (migrationDir f up)
    by (unfold migrationDir; destruct up; reflexivity).
  rewrite E. cbn [bind].
  destruct (Z.of_nat (List.length sorted) =? 0) eqn:Z0.
  - apply length_zero_iff in Z0. subst sorted.
    apply Permutation_sym, Permutation_nil in Perm. contradiction.
  - now rewrite PSQLArgs_loop_eq.
Qed.

Lemma PSQLArgs_arguments_witness :
  exists sorted,
    Permutation
      [mkDdlFile "003-c.sql" 3; mkDdlFile "001-a.sql" 1; mkDdlFile "002-b.sql" 2] sorted
    /\ Sorted Z.le (map fileNumber sorted)
    /\ PSQLArgs local_ReadFile
         (local_ReadDir [file "003-c.sql"; file "001-a.sql"; file "002-b.sql"])
         local_Unmarshal true "local"
       = Returns (["-w"; "-d"; ConnectionURI (newPostgreSQLDSN localConfig); "-c";
                   "select current_database(), current_user, version()"]
                  ++ flat_map
                       (fun file =>
                          ["-f"; (migrationDir localConfig true ++ "/" ++ filename file)%string])
                       sorted)%list.
Proof.
  apply (PSQLArgs_arguments local_ReadFile
           (local_ReadDir [file "003-c.sql"; file "001-a.sql"; file "002-b.sql"])
           local_Unmarshal true "local" localConfig
           [file "003-c.sql"; file "001-a.sql"; file "002-b.sql"]);
    [reflexivity | reflexivity | reflexivity | discriminate].
Defined.

(** The example of the specification: the files [003-c.sql],
    [001-a.sql], [002-b.sql] in the "up" direction. *)
Example PSQLArgs_up :
  PSQLArgs local_ReadFile
    (local_ReadDir [file "003-c.sql"; file "001-a.sql"; file "002-b.sql"])
    local_Unmarshal true "local"
  = Returns ["-w"; "-d";
             "postgresql://alice@localhost:5432/mydb?options=-csearch_path%3Dpublic";
             "-c"; "select current_database(), current_user, version()";
             "-f"; "migrations/up/001-a.sql";
             "-f"; "migrations/up/002-b.sql";
             "-f"; "migrations/up/003-c.sql"].
Proof. reflexivity. Qed.
(** * Further properties of the code *)

(** ** [newDDLFile] *)

(** X1.  Whenever [newDDLFile] returns a file, the name it was given
    has a [-], the part before the first [-] is decimal digits, at
    least one, with or without a leading [+], the file carries the
    whole name, and its ordering key is the value of the digits, a
    number from 0 to the largest [int]: no key is negative. *)
Theorem newDDLFile_returns_numbered (f : string) (df : ddlFile) :
  newDDLFile f = Returns df ->
  exists sign digits rest,
    f = sign ++ digits ++ "-" ++ rest
    /\ (sign = EmptyString \/ sign = "+")
    /\ digits <> EmptyString
    /\ all_chars isDigit digits = true
    /\ df = {| filename := f; fileNumber := decimal digits |}
    /\ 0 <= fileNumber df <= maxInt.
Proof.
  intros E. destruct (split_at_dash f) as [A | (pre & rest & -> & A)].
  - rewrite newDDLFile_no_separator in E by assumption. discriminate E.
  - rewrite newDDLFile_split in E by assumption.
    destruct (strconv.Atoi pre) as [v| | |] eqn:EA; try discriminate E.
    cbn [bind] in E. injection E as <-.
    destruct (Atoi_Returns_unsigned pre v A EA)
      as (sign & digits & -> & Sg & NE & D & -> & R).
    exists sign, digits, rest. rewrite append_assoc.
    change ("-" ++ rest) with (String "-" rest).
    repeat split; auto; apply R.
Qed.

Lemma newDDLFile_returns_numbered_witness :
  exists sign digits rest,
    "001-user.sql" = sign ++ digits ++ "-" ++ rest
    /\ (sign = EmptyString \/ sign = "+")
    /\ digits <> EmptyString
    /\ all_chars isDigit digits = true
    /\ mkDdlFile "001-user.sql" 1
       = {| filename := "001-user.sql"; fileNumber := decimal digits |}
    /\ 0 <= fileNumber (mkDdlFile "001-user.sql" 1) <= maxInt.
Proof.
  apply (newDDLFile_returns_numbered "001-user.sql" (mkDdlFile "001-user.sql" 1)).
  reflexivity.
Defined.

(** X2.  Zeros in front of the number do not change the ordering key:
    for digits that fit an [int], the name with any number of zeros
    before them and any name with the digits alone before the first
    [-] get the same key. *)
Theorem newDDLFile_leading_zeros (k : nat) (digits rest rest' : string) :
  digits <> EmptyString ->
  all_chars isDigit digits = true ->
  decimal digits <= maxInt ->
  exists n,
    newDDLFile (zeros k ++ digits ++ "-" ++ rest)
    = Returns {| filename := zeros k ++ digits ++ "-" ++ rest; fileNumber := n |}
    /\ newDDLFile (digits ++ "-" ++ rest')
       = Returns {| filename := digits ++ "-" ++ rest'; fileNumber := n |}.
Proof.
  intros NE D M. exists (decimal digits). split.
  - rewrite <- append_assoc. change ("-" ++ rest) with (String "-" rest).
    rewrite <- (decimal_zeros k digits).
    apply newDDLFile_digits.
    + destruct k; [exact NE | discriminate].
    + now rewrite all_chars_append, zeros_digits.
    + now rewrite decimal_zeros.
  - now apply newDDLFile_digits.
Qed.

Lemma newDDLFile_leading_zeros_witness :
  exists n,
    newDDLFile "0012-user.sql" = Returns {| filename := "0012-user.sql"; fileNumber := n |}
    /\ newDDLFile "12-role.sql" = Returns {| filename := "12-role.sql"; fileNumber := n |}.
Proof.
  apply (newDDLFile_leading_zeros 2 "12" "user.sql" "role.sql");
    [discriminate | reflexivity | vm_compute; discriminate].
Defined.

(** X3.  Every number from 0 to the largest [int], written by
    [strconv.Itoa] in front of [-], is read back by [newDDLFile] as
    the ordering key. *)
Theorem newDDLFile_Itoa (n : Z) (rest : string) :
  0 <= n <= maxInt ->
  newDDLFile (strconv.Itoa n ++ "-" ++ rest)
  = Returns {| filename := strconv.Itoa n ++ "-" ++ rest; fileNumber := n |}.
Proof.
  intros R. destruct (Itoa_digits n ltac:(lia)) as [NE D].
  change ("-" ++ rest) with (String "-" rest).
  rewrite newDDLFile_digits; rewrite ?decimal_Itoa by lia; auto; lia.
Qed.

Lemma newDDLFile_Itoa_witness :
  newDDLFile (strconv.Itoa 42 ++ "-" ++ "user.sql")
  = Returns {| filename := strconv.Itoa 42 ++ "-" ++ "user.sql"; fileNumber := 42 |}.
Proof.
  apply (newDDLFile_Itoa 42 "user.sql"). split; [lia | vm_compute; discriminate].
Defined.

(** X4.  A number above the largest [int] before the first [-], with
    or without a leading [+], is refused with the range error of
    [strconv.Atoi] on that prefix. *)
Theorem newDDLFile_out_of_range (sign digits rest : string) :
  sign = EmptyString \/ sign = "+" ->
  all_chars isDigit digits = true ->
  maxInt < decimal digits ->
  newDDLFile (sign ++ digits ++ "-" ++ rest)
  = Fails (NumError "Atoi" (sign ++ digits) ErrRange).
Proof.
  intros Sg D M. rewrite <- append_assoc.
  change ("-" ++ rest) with (String "-" rest).
  rewrite newDDLFile_split.
  - now rewrite Atoi_digits_range.
  - rewrite all_chars_append, (digits_notDash digits D).
    destruct Sg as [-> | ->]; reflexivity.
Qed.

Lemma newDDLFile_out_of_range_witness :
  newDDLFile ("+" ++ "9223372036854775808" ++ "-" ++ "big.sql")
  = Fails (NumError "Atoi" ("+" ++ "9223372036854775808") ErrRange).
Proof.
  apply (newDDLFile_out_of_range "+" "9223372036854775808" "big.sql");
    [right; reflexivity | reflexivity | reflexivity].
Defined.

(** X5.  A part before the first [-] that is shorter than 19 bytes and
    is no base-10 integer, the empty one included, is refused with the
    syntax error of [strconv.Atoi] on that part. *)
Theorem newDDLFile_syntax_error (pre rest : string) :
  all_chars notDash pre = true ->
  len pre < 19 ->
  isIntegerb pre = false ->
  newDDLFile (pre ++ "-" ++ rest) = Fails (NumError "Atoi" pre ErrSyntax).
Proof.
  intros A L N. change ("-" ++ rest) with (String "-" rest).
  rewrite newDDLFile_split by assumption.
  destruct (Atoi_short pre L) as [[v E] | E].
  - apply Atoi_Returns_isInteger, isInteger_isIntegerb in E. congruence.
  - now rewrite E.
Qed.

Lemma newDDLFile_syntax_error_witness :
  newDDLFile (EmptyString ++ "-" ++ "user.sql")
  = Fails (NumError "Atoi" EmptyString ErrSyntax).
Proof.
  apply (newDDLFile_syntax_error EmptyString "user.sql");
    [reflexivity | unfold len; simpl; lia | reflexivity].
Defined.

(** X6.  [newDDLFile] panics on exactly the names without a [-]: on
    each of them the slice expression [f[:-1]] panics, and on no name
    with a [-] is there a panic. *)
Theorem newDDLFile_panics_iff (f : string) :
  (all_chars notDash f = true
   /\ newDDLFile f = Panics (sliceBoundsOutOfRange (-1) (len f)))
  \/ (all_chars notDash f = false
      /\ forall p, newDDLFile f <> Panics p).
Proof.
  destruct (split_at_dash f) as [A | (pre & rest & -> & A)].
  - left. split; [exact A | now apply newDDLFile_no_separator].
  - right. split.
    + rewrite all_chars_append, A. reflexivity.
    + intros p. rewrite newDDLFile_split by assumption.
      destruct (Atoi_total pre) as [[v E] | [k E]]; rewrite E; discriminate.
Qed.

(** ** [ddlFile.String] *)

(** X7.  The string of a file is its name, a colon, a space and its
    ordering key in base 10, and it tells the file: two files with one
    string are the same file. *)
Theorem ddlFile_String_injective (df1 df2 : ddlFile) :
  ddlFile_String df1 = filename df1 ++ ": " ++ strconv.Itoa (fileNumber df1)
  /\ (ddlFile_String df1 = ddlFile_String df2 -> df1 = df2).
Proof.
  assert (E : forall df,
             ddlFile_String df = filename df ++ ": " ++ strconv.Itoa (fileNumber df)).
  { intros df. unfold ddlFile_String. norm_string. reflexivity. }
  split; [apply E|].
  rewrite !E. intros H.
  apply colon_space_split in H; try apply Itoa_no_space.
  destruct H as [F N]. apply Itoa_injective in N.
  destruct df1, df2. cbn in *. congruence.
Qed.

(** ** [byFileNumber] *)

Ltac by_keys :=
  repeat match goal with
         | H : Returns _ = Returns _ |- _ => injection H as H
         | H : context [?a <? ?b] |- _ => destruct (Z.ltb_spec a b)
         | |- context [?a <? ?b] => destruct (Z.ltb_spec a b)
         end;
  try discriminate; try reflexivity; try lia.

(** X8.  On indices of the slice [Less] is the strict weak order
    [sort.Sort] asks for: no element is less than itself, of two
    elements at most one is less than the other, less is transitive,
    and so is being neither less nor greater. *)
Theorem byFileNumber_Less_strict_weak_order (bfn : byFileNumber) (i j k : Z) :
  inRange bfn i -> inRange bfn j -> inRange bfn k ->
  byFileNumber_Less bfn i i = Returns false
  /\ (byFileNumber_Less bfn i j = Returns true ->
      byFileNumber_Less bfn j i = Returns false)
  /\ (byFileNumber_Less bfn i j = Returns true ->
      byFileNumber_Less bfn j k = Returns true ->
      byFileNumber_Less bfn i k = Returns true)
  /\ (byFileNumber_Less bfn i j = Returns false ->
      byFileNumber_Less bfn j i = Returns false ->
      byFileNumber_Less bfn j k = Returns false ->
      byFileNumber_Less bfn k j = Returns false ->
      byFileNumber_Less bfn i k = Returns false
      /\ byFileNumber_Less bfn k i = Returns false).
Proof.
  unfold inRange. change (byFileNumber_Len bfn) with (size bfn).
  intros I J K. unfold byFileNumber_Less.
  rewrite !index_spec by assumption. cbn [bind].
  repeat split; intros; by_keys.
Qed.

Lemma byFileNumber_Less_strict_weak_order_witness :
  byFileNumber_Less [mkDdlFile "1-a.sql" 1; mkDdlFile "2-b.sql" 2; mkDdlFile "3-c.sql" 3] 0 0
  = Returns false
  /\ (byFileNumber_Less [mkDdlFile "1-a.sql" 1; mkDdlFile "2-b.sql" 2; mkDdlFile "3-c.sql" 3] 0 1
      = Returns true ->
      byFileNumber_Less [mkDdlFile "1-a.sql" 1; mkDdlFile "2-b.sql" 2; mkDdlFile "3-c.sql" 3] 1 0
      = Returns false)
  /\ (byFileNumber_Less [mkDdlFile "1-a.sql" 1; mkDdlFile "2-b.sql" 2; mkDdlFile "3-c.sql" 3] 0 1
      = Returns true ->
      byFileNumber_Less [mkDdlFile "1-a.sql" 1; mkDdlFile "2-b.sql" 2; mkDdlFile "3-c.sql" 3] 1 2
      = Returns true ->
      byFileNumber_Less [mkDdlFile "1-a.sql" 1; mkDdlFile "2-b.sql" 2; mkDdlFile "3-c.sql" 3] 0 2
      = Returns true)
  /\ (byFileNumber_Less [mkDdlFile "1-a.sql" 1; mkDdlFile "2-b.sql" 2; mkDdlFile "3-c.sql" 3] 0 1
      = Returns false ->
      byFileNumber_Less [mkDdlFile "1-a.sql" 1; mkDdlFile "2-b.sql" 2; mkDdlFile "3-c.sql" 3] 1 0
      = Returns false ->
      byFileNumber_Less [mkDdlFile "1-a.sql" 1; mkDdlFile "2-b.sql" 2; mkDdlFile "3-c.sql" 3] 1 2
      = Returns false ->
      byFileNumber_Less [mkDdlFile "1-a.sql" 1; mkDdlFile "2-b.sql" 2; mkDdlFile "3-c.sql" 3] 2 1
      = Returns false ->
      byFileNumber_Less [mkDdlFile "1-a.sql" 1; mkDdlFile "2-b.sql" 2; mkDdlFile "3-c.sql" 3] 0 2
      = Returns false
      /\ byFileNumber_Less [mkDdlFile "1-a.sql" 1; mkDdlFile "2-b.sql" 2; mkDdlFile "3-c.sql" 3] 2 0
         = Returns false).
Proof.
  apply (byFileNumber_Less_strict_weak_order
           [mkDdlFile "1-a.sql" 1; mkDdlFile "2-b.sql" 2; mkDdlFile "3-c.sql" 3] 0 1 2);
    unfold inRange, byFileNumber_Len; simpl; lia.
Defined.

(** X9.  On indices of the slice [Swap] returns the slice with the two
    elements in each other's place and every other element where it
    was: the same length, the same files, and a second [Swap] of the
    same indices gives the slice back. *)
Theorem byFileNumber_Swap_involution (bfn : byFileNumber) (i j : Z) :
  inRange bfn i -> inRange bfn j ->
  exists bfn',
    byFileNumber_Swap bfn i j = Returns bfn'
    /\ byFileNumber_Len bfn' = byFileNumber_Len bfn
    /\ Permutation bfn bfn'
    /\ index bfn' i = index bfn j
    /\ index bfn' j = index bfn i
    /\ (forall k, k <> i -> k <> j -> index bfn' k = index bfn k)
    /\ byFileNumber_Swap bfn' i j = Returns bfn.
Proof.
  unfold inRange. change (byFileNumber_Len bfn) with (size bfn).
  intros I J. exists (swapped bfn i j).
  assert (Sz := size_swapped bfn i j).
  split; [apply (Swap_spec bfn i j I J)|].
  split; [exact Sz|].
  split; [now apply Permutation_swapped|].
  split; [|split; [|split]].
  - rewrite !index_spec by lia. rewrite at_swapped by lia.
    rewrite Z.eqb_refl. now destruct (Z.eqb_spec i j) as [->|].
  - rewrite !index_spec by lia. rewrite at_swapped by lia.
    now rewrite Z.eqb_refl.
  - intros k Ki Kj.
    assert (C : 0 <= k < size bfn \/ ~ 0 <= k < size bfn) by lia.
    destruct C as [C | C].
    + rewrite !index_spec by lia. rewrite at_swapped by lia.
      destruct (Z.eqb_spec k j); [lia|]. destruct (Z.eqb_spec k i); [lia|]. reflexivity.
    + rewrite !index_out_of_range by lia. now rewrite Sz.
  - rewrite <- (swapped_swapped bfn i j I J) at 2.
    apply (Swap_spec (swapped bfn i j) i j); lia.
Qed.

Lemma byFileNumber_Swap_involution_witness :
  exists bfn',
    byFileNumber_Swap [mkDdlFile "1-a.sql" 1; mkDdlFile "2-b.sql" 2; mkDdlFile "3-c.sql" 3] 0 2
    = Returns bfn'
    /\ byFileNumber_Len bfn'
       = byFileNumber_Len [mkDdlFile "1-a.sql" 1; mkDdlFile "2-b.sql" 2; mkDdlFile "3-c.sql" 3]
    /\ Permutation [mkDdlFile "1-a.sql" 1; mkDdlFile "2-b.sql" 2; mkDdlFile "3-c.sql" 3] bfn'
    /\ index bfn' 0
       = index [mkDdlFile "1-a.sql" 1; mkDdlFile "2-b.sql" 2; mkDdlFile "3-c.sql" 3] 2
    /\ index bfn' 2
       = index [mkDdlFile "1-a.sql" 1; mkDdlFile "2-b.sql" 2; mkDdlFile "3-c.sql" 3] 0
    /\ (forall k, k <> 0 -> k <> 2 ->
        index bfn' k
        = index [mkDdlFile "1-a.sql" 1; mkDdlFile "2-b.sql" 2; mkDdlFile "3-c.sql" 3] k)
    /\ byFileNumber_Swap bfn' 0 2
       = Returns [mkDdlFile "1-a.sql" 1; mkDdlFile "2-b.sql" 2; mkDdlFile "3-c.sql" 3].
Proof.
  apply (byFileNumber_Swap_involution
           [mkDdlFile "1-a.sql" 1; mkDdlFile "2-b.sql" 2; mkDdlFile "3-c.sql" 3] 0 2);
    unfold inRange, byFileNumber_Len; simpl; lia.
Defined.

(** X10.  With an index outside the slice [Less] and [Swap] panic with
    the index-out-of-range error of one of the two indices, one that
    is outside; they do not return. *)
Theorem byFileNumber_out_of_range (bfn : byFileNumber) (i j : Z) :
  ~ (inRange bfn i /\ inRange bfn j) ->
  (exists k, (k = i \/ k = j) /\ ~ inRange bfn k
             /\ byFileNumber_Less bfn i j
                = Panics (indexOutOfRange k (byFileNumber_Len bfn)))
  /\ (exists k, (k = i \/ k = j) /\ ~ inRange bfn k
                /\ byFileNumber_Swap bfn i j
                   = Panics (indexOutOfRange k (byFileNumber_Len bfn))).
Proof.
  unfold inRange. change (byFileNumber_Len bfn) with (size bfn).
  intros N. unfold byFileNumber_Less, byFileNumber_Swap.
  assert (Ci : 0 <= i < size bfn \/ ~ 0 <= i < size bfn) by lia.
  assert (Cj : 0 <= j < size bfn \/ ~ 0 <= j < size bfn) by lia.
  split.
  - destruct Ci as [I | I].
    + exists j. split; [now right|]. split; [lia|].
      rewrite (index_spec bfn i I). cbn [bind].
      rewrite index_out_of_range by lia. reflexivity.
    + exists i. split; [now left|]. split; [exact I|].
      rewrite index_out_of_range by exact I. reflexivity.
  - destruct Cj as [J | J].
    + exists i. split; [now left|]. split; [lia|].
      rewrite (index_spec bfn j J). cbn [bind].
      rewrite index_out_of_range by lia. reflexivity.
    + exists j. split; [now right|]. split; [exact J|].
      rewrite index_out_of_range by exact J. reflexivity.
Qed.

Lemma byFileNumber_out_of_range_witness :
  (exists k, (k = 0 \/ k = 1) /\ ~ inRange [mkDdlFile "1-a.sql" 1] k
             /\ byFileNumber_Less [mkDdlFile "1-a.sql" 1] 0 1
                = Panics (indexOutOfRange k (byFileNumber_Len [mkDdlFile "1-a.sql" 1])))
  /\ (exists k, (k = 0 \/ k = 1) /\ ~ inRange [mkDdlFile "1-a.sql" 1] k
                /\ byFileNumber_Swap [mkDdlFile "1-a.sql" 1] 0 1
                   = Panics (indexOutOfRange k (byFileNumber_Len [mkDdlFile "1-a.sql" 1]))).
Proof.
  apply (byFileNumber_out_of_range [mkDdlFile "1-a.sql" 1] 0 1).
  unfold inRange, byFileNumber_Len. simpl. lia.
Defined.

(** ** [readDDLFiles] *)

(** X11.  Subdirectories do not count: [readDDLFiles] does on a
    directory what it does on a directory with the same file entries
    in the same order and no subdirectory, whatever the names of the
    subdirectories are. *)
Theorem readDDLFiles_skips_subdirectories
    (os_ReadDir os_ReadDir' : string -> outcome (list DirEntry)) (dir dir' : string)
    (entries : list DirEntry) :
  os_ReadDir dir = Returns entries ->
  os_ReadDir' dir' = Returns (fileEntries entries) ->
  readDDLFiles os_ReadDir dir = readDDLFiles os_ReadDir' dir'.
Proof.
  intros R R'. unfold readDDLFiles. rewrite R, R'. cbn [bind].
  now rewrite readDDLFiles_loop_fileEntries.
Qed.

Lemma readDDLFiles_skips_subdirectories_witness :
  readDDLFiles
    (local_ReadDir [file "002-b.sql"; subdirectory "README"; file "001-a.sql"])
    "migrations/up"
  = readDDLFiles (any_ReadDir [file "002-b.sql"; file "001-a.sql"]) "elsewhere".
Proof.
  apply (readDDLFiles_skips_subdirectories
           (local_ReadDir [file "002-b.sql"; subdirectory "README"; file "001-a.sql"])
           (any_ReadDir [file "002-b.sql"; file "001-a.sql"])
           "migrations/up" "elsewhere"
           [file "002-b.sql"; subdirectory "README"; file "001-a.sql"]);
    reflexivity.
Defined.

(** X12.  When the files of a directory all parse and no two of them
    have the same ordering key, what [readDDLFiles] returns does not
    depend on the order in which [os.ReadDir] lists the entries. *)
Theorem readDDLFiles_listing_order
    (os_ReadDir os_ReadDir' : string -> outcome (list DirEntry)) (dir dir' : string)
    (entries entries' : list DirEntry) (files : list ddlFile) :
  os_ReadDir dir = Returns entries ->
  os_ReadDir' dir' = Returns entries' ->
  Permutation entries entries' ->
  parsedFiles entries = Some files ->
  NoDup (map fileNumber files) ->
  readDDLFiles os_ReadDir dir = readDDLFiles os_ReadDir' dir'.
Proof.
  intros R R' P F ND.
  destruct (parsedFiles_Permutation entries entries' P files F) as (files' & F' & Pf).
  destruct (readDDLFiles_parsed_sorted os_ReadDir dir entries files R F)
    as (sorted & E & P1 & S1).
  destruct (readDDLFiles_parsed_sorted os_ReadDir' dir' entries' files' R' F')
    as (sorted' & E' & P2 & S2).
  rewrite E, E'. f_equal.
  apply Sorted_Permutation_unique; auto.
  - apply (Permutation_NoDup (l := map fileNumber files)); [|exact ND].
    now apply Permutation_map.
  - transitivity files; [now symmetry|]. now transitivity files'.
Qed.

Lemma readDDLFiles_listing_order_witness :
  readDDLFiles (local_ReadDir [file "003-c.sql"; file "001-a.sql"; file "002-b.sql"])
    "migrations/up"
  = readDDLFiles (local_ReadDir [file "001-a.sql"; file "003-c.sql"; file "002-b.sql"])
      "migrations/up".
Proof.
  apply (readDDLFiles_listing_order
           (local_ReadDir [file "003-c.sql"; file "001-a.sql"; file "002-b.sql"])
           (local_ReadDir [file "001-a.sql"; file "003-c.sql"; file "002-b.sql"])
           "migrations/up" "migrations/up"
           [file "003-c.sql"; file "001-a.sql"; file "002-b.sql"]
           [file "001-a.sql"; file "003-c.sql"; file "002-b.sql"]
           [mkDdlFile "003-c.sql" 3; mkDdlFile "001-a.sql" 1; mkDdlFile "002-b.sql" 2]).
  - reflexivity.
  - reflexivity.
  - apply perm_swap.
  - reflexivity.
  - simpl. repeat (constructor; [simpl; intuition discriminate|]). constructor.
Defined.

(** ** [PSQLArgs] *)

(** X13.  When the configuration file cannot be read, or its contents
    cannot be decoded, [NewConfigFile] and [PSQLArgs] return that
    error as it is, whatever the migration directories hold. *)
Theorem PSQLArgs_config_error
    (os_ReadFile : string -> outcome string)
    (os_ReadDir : string -> outcome (list DirEntry))
    (json_Unmarshal : string -> outcome ConfigFile.t)
    (up : bool) (profile : string) (err : error) :
  os_ReadFile ("./config/" ++ profile ++ ".json") = Fails err
  \/ (exists b, os_ReadFile ("./config/" ++ profile ++ ".json") = Returns b
                /\ json_Unmarshal b = Fails err) ->
  NewConfigFile os_ReadFile json_Unmarshal ("./config/" ++ profile ++ ".json") = Fails err
  /\ PSQLArgs os_ReadFile os_ReadDir json_Unmarshal up profile = Fails err.
Proof.
  intros H.
  assert (C : NewConfigFile os_ReadFile json_Unmarshal ("./config/" ++ profile ++ ".json")
              = Fails err).
  { unfold NewConfigFile. destruct H as [-> | (b & -> & E)]; [reflexivity | exact E]. }
  split; [exact C|]. unfold PSQLArgs. now rewrite C.
Qed.

Lemma PSQLArgs_config_error_witness :
  NewConfigFile full_ReadFile local_Unmarshal ("./config/" ++ "test" ++ ".json")
  = Fails (jsonError "invalid character")
  /\ PSQLArgs full_ReadFile (any_ReadDir [file "001-a.sql"]) local_Unmarshal true "test"
     = Fails (jsonError "invalid character").
Proof.
  apply (PSQLArgs_config_error full_ReadFile (any_ReadDir [file "001-a.sql"])
           local_Unmarshal true "test").
  right. exists "{}". split; reflexivity.
Defined.

(** X14.  When the configuration loads and the migration directory of
    the direction cannot be read, [readDDLFiles] and [PSQLArgs] return
    the error of [os.ReadDir] as it is. *)
Theorem PSQLArgs_directory_error
    (os_ReadFile : string -> outcome string)
    (os_ReadDir : string -> outcome (list DirEntry))
    (json_Unmarshal : string -> outcome ConfigFile.t)
    (up : bool) (profile : string) (f : ConfigFile.t) (err : error) :
  NewConfigFile os_ReadFile json_Unmarshal ("./config/" ++ profile ++ ".json") = Returns f ->
  os_ReadDir (migrationDir f up) = Fails err ->
  readDDLFiles os_ReadDir (migrationDir f up) = Fails err
  /\ PSQLArgs os_ReadFile os_ReadDir json_Unmarshal up profile = Fails err.
Proof.
  intros C R.
  assert (E : readDDLFiles os_ReadDir (migrationDir f up) = Fails err)
    by (unfold readDDLFiles; now rewrite R).
  split; [exact E|].
  unfold PSQLArgs. rewrite C. cbn [bind]. now rewrite PSQLArgs_dir, E.
Qed.

Lemma PSQLArgs_directory_error_witness :
  readDDLFiles (local_ReadDir [file "001-a.sql"]) (migrationDir localConfig false)
  = Fails (PathError "open" "migrations/down")
  /\ PSQLArgs local_ReadFile (local_ReadDir [file "001-a.sql"]) local_Unmarshal false "local"
     = Fails (PathError "open" "migrations/down").
Proof.
  apply (PSQLArgs_directory_error local_ReadFile (local_ReadDir [file "001-a.sql"])
           local_Unmarshal false "local" localConfig);
    reflexivity.
Defined.

(** X15.  When the configuration loads and the directory has a file
    that does not parse, [PSQLArgs] ends with what [newDDLFile] did on
    the first such file, its error or its panic, and returns no
    argument list, whatever comes after that file. *)
Theorem PSQLArgs_first_bad_file
    (os_ReadFile : string -> outcome string)
    (os_ReadDir : string -> outcome (list DirEntry))
    (json_Unmarshal : string -> outcome ConfigFile.t)
    (up : bool) (profile : string) (f : ConfigFile.t)
    (l1 : list DirEntry) (bad : DirEntry) (l2 : list DirEntry) :
  NewConfigFile os_ReadFile json_Unmarshal ("./config/" ++ profile ++ ".json") = Returns f ->
  os_ReadDir (migrationDir f up) = Returns (l1 ++ bad :: l2)%list ->
  Forall parses l1 ->
  failsToParse bad ->
  (exists err, newDDLFile (Name bad) = Fails err
               /\ PSQLArgs os_ReadFile os_ReadDir json_Unmarshal up profile = Fails err)
  \/ (exists p, newDDLFile (Name bad) = Panics p
                /\ PSQLArgs os_ReadFile os_ReadDir json_Unmarshal up profile = Panics p).
Proof.
  intros C R F [B1 B2].
  destruct (readDDLFiles_loop_first_failure l1 bad l2 [] F B1) as [G1 G2].
  unfold PSQLArgs. rewrite C. cbn [bind]. rewrite PSQLArgs_dir.
  unfold readDDLFiles. rewrite R. cbn [bind].
  destruct (newDDLFile_outcomes (Name bad)) as [[df E] | [[err E] | [p E]]].
  - exfalso. now apply (B2 df).
  - left. exists err. split; [exact E|]. now rewrite (G1 err E).
  - right. exists p. split; [exact E|]. now rewrite (G2 p E).
Qed.

Lemma PSQLArgs_first_bad_file_witness :
  (exists err, newDDLFile (Name (file "README.md")) = Fails err
     /\ PSQLArgs local_ReadFile
          (local_ReadDir [file "001-a.sql"; file "README.md"; file "x-b.sql"])
          local_Unmarshal true "local" = Fails err)
  \/ (exists p, newDDLFile (Name (file "README.md")) = Panics p
     /\ PSQLArgs local_ReadFile
          (local_ReadDir [file "001-a.sql"; file "README.md"; file "x-b.sql"])
          local_Unmarshal true "local" = Panics p).
Proof.
  apply (PSQLArgs_first_bad_file local_ReadFile
           (local_ReadDir [file "001-a.sql"; file "README.md"; file "x-b.sql"])
           local_Unmarshal true "local" localConfig
           [file "001-a.sql"] (file "README.md") [file "x-b.sql"]).
  - reflexivity.
  - reflexivity.
  - constructor; [right; eexists; reflexivity | constructor].
  - split; [reflexivity | intros df; vm_compute; discriminate].
Defined.

(** X16.  The password of the configuration is no part of the
    argument list: two configurations that differ in the password
    only give the same outcome of [PSQLArgs]. *)
Theorem PSQLArgs_without_password
    (os_ReadFile os_ReadFile' : string -> outcome string)
    (os_ReadDir : string -> outcome (list DirEntry))
    (json_Unmarshal json_Unmarshal' : string -> outcome ConfigFile.t)
    (up : bool) (profile : string) (f : ConfigFile.t) (pw : string) :
  NewConfigFile os_ReadFile json_Unmarshal ("./config/" ++ profile ++ ".json") = Returns f ->
  NewConfigFile os_ReadFile' json_Unmarshal' ("./config/" ++ profile ++ ".json")
  = Returns (withConfigPassword f pw) ->
  PSQLArgs os_ReadFile' os_ReadDir json_Unmarshal' up profile
  = PSQLArgs os_ReadFile os_ReadDir json_Unmarshal up profile.
Proof.
  intros C C'. unfold PSQLArgs. rewrite C, C'. cbn [bind].
  change (newPostgreSQLDSN (withConfigPassword f pw))
    with (withPassword (newPostgreSQLDSN f) pw).
  rewrite ConnectionURI_withPassword. reflexivity.
Qed.

Lemma PSQLArgs_without_password_witness :
  PSQLArgs local_ReadFile (local_ReadDir [file "001-a.sql"]) secret_Unmarshal true "local"
  = PSQLArgs local_ReadFile (local_ReadDir [file "001-a.sql"]) local_Unmarshal true "local".
Proof.
  apply (PSQLArgs_without_password local_ReadFile local_ReadFile
           (local_ReadDir [file "001-a.sql"]) local_Unmarshal secret_Unmarshal
           true "local" localConfig "secret");
    reflexivity.
Defined.

(** X17.  When the configuration loads and the files of the directory
    all parse, each file entry of the directory is passed to [psql]
    once, under its own name: after the five leading arguments come
    the pairs [-f], [<dir>/<name>] for the names of the file entries
    in some order, and nothing else. *)
Theorem PSQLArgs_every_file_once
    (os_ReadFile : string -> outcome string)
    (os_ReadDir : string -> outcome (list DirEntry))
    (json_Unmarshal : string -> outcome ConfigFile.t)
    (up : bool) (profile : string) (f : ConfigFile.t)
    (entries : list DirEntry) (files : list ddlFile) :
  NewConfigFile os_ReadFile json_Unmarshal ("./config/" ++ profile ++ ".json") = Returns f ->
  os_ReadDir (migrationDir f up) = Returns entries ->
  parsedFiles entries = Some files ->
  files <> [] ->
  exists names,
    Permutation (map Name (fileEntries entries)) names
    /\ PSQLArgs os_ReadFile os_ReadDir json_Unmarshal up profile
       = Returns (["-w"; "-d"; ConnectionURI (newPostgreSQLDSN f); "-c";
                   "select current_database(), current_user, version()"]
                  ++ flat_map
                       (fun name => ["-f"; (migrationDir f up ++ "/" ++ name)%string])
                       names)%list.
Proof.
  intros C R P NE.
  destruct (PSQLArgs_parsed_sorted os_ReadFile os_ReadDir json_Unmarshal up profile f
              entries files C R P NE) as (sorted & Perm & _ & E).
  exists (map filename sorted). split.
  - rewrite <- (parsedFiles_filename entries files P). now apply Permutation_map.
  - now rewrite E, fileArgs_names.
Qed.

Lemma PSQLArgs_every_file_once_witness :
  exists names,
    Permutation
      (map Name (fileEntries [file "003-c.sql"; subdirectory "old"; file "001-a.sql"])) names
    /\ PSQLArgs local_ReadFile
         (local_ReadDir [file "003-c.sql"; subdirectory "old"; file "001-a.sql"])
         local_Unmarshal true "local"
       = Returns (["-w"; "-d"; ConnectionURI (newPostgreSQLDSN localConfig); "-c";
                   "select current_database(), current_user, version()"]
                  ++ flat_map
                       (fun name =>
                          ["-f"; (migrationDir localConfig true ++ "/" ++ name)%string])
                       names)%list.
Proof.
  apply (PSQLArgs_every_file_once local_ReadFile
           (local_ReadDir [file "003-c.sql"; subdirectory "old"; file "001-a.sql"])
           local_Unmarshal true "local" localConfig
           [file "003-c.sql"; subdirectory "old"; file "001-a.sql"]
           [mkDdlFile "003-c.sql" 3; mkDdlFile "001-a.sql" 1]);
    [reflexivity | reflexivity | reflexivity | discriminate].
Defined.

(** X18.  [PSQLArgs] reads one file, the file [CUEPaths] names as the
    output for the profile, and one directory, the migration directory
    of the direction: two file systems that agree on these give the
    same outcome. *)
Theorem PSQLArgs_reads
    (os_ReadFile os_ReadFile' : string -> outcome string)
    (os_ReadDir os_ReadDir' : string -> outcome (list DirEntry))
    (json_Unmarshal : string -> outcome ConfigFile.t)
    (up : bool) (profile : string) :
  os_ReadFile (Output (CUEPaths profile)) = os_ReadFile' (Output (CUEPaths profile)) ->
  (forall f,
     NewConfigFile os_ReadFile json_Unmarshal (Output (CUEPaths profile)) = Returns f ->
     os_ReadDir (migrationDir f up) = os_ReadDir' (migrationDir f up)) ->
  PSQLArgs os_ReadFile os_ReadDir json_Unmarshal up profile
  = PSQLArgs os_ReadFile' os_ReadDir' json_Unmarshal up profile.
Proof.
  cbn [CUEPaths Output]. intros F D. unfold PSQLArgs.
  destruct (NewConfigFile os_ReadFile json_Unmarshal ("./config/" ++ profile ++ ".json"))
    as [f| | |] eqn:C.
  all: assert (C' := C); unfold NewConfigFile in C'; rewrite F in C';
    fold (NewConfigFile os_ReadFile' json_Unmarshal ("./config/" ++ profile ++ ".json")) in C';
    rewrite C'; cbn [bind]; try reflexivity.
  rewrite PSQLArgs_dir. unfold readDDLFiles. now rewrite (D f eq_refl).
Qed.

Lemma PSQLArgs_reads_witness :
  PSQLArgs local_ReadFile (local_ReadDir [file "001-a.sql"]) local_Unmarshal true "local"
  = PSQLArgs full_ReadFile (any_ReadDir [file "001-a.sql"]) local_Unmarshal true "local".
Proof.
  apply (PSQLArgs_reads local_ReadFile full_ReadFile
           (local_ReadDir [file "001-a.sql"]) (any_ReadDir [file "001-a.sql"])
           local_Unmarshal true "local").
  - reflexivity.
  - intros f C. vm_compute in C. injection C as <-. reflexivity.
Defined.

(** ** [ConnectionURI] *)

(** X19.  For every datasource name the connection URI is
    [postgresql://], the escaped user, [@], the escaped host, the port
    after a colon when it is not zero, the escaped database name and
    the [options] parameter when the search path is not empty; a slash
    stands before the database name exactly when the name is not
    empty, does not start with a slash itself, and a host or a port is
    there. *)
Theorem ConnectionURI_every_dsn (dsn : PostgreSQLDSN) :
  ConnectionURI dsn
  = "postgresql://" ++ url.escape (User dsn) url.encodeUserPassword ++ "@"
    ++ url.escape (Host dsn) url.encodeHost
    ++ (if Port dsn =? 0 then EmptyString else ":" ++ strconv.Itoa (Port dsn))
    ++ (if url.nonEmpty (DBName dsn) && negb (url.startsWithSlash (DBName dsn))
           && (url.nonEmpty (Host dsn) || negb (Port dsn =? 0))
        then "/" else EmptyString)
    ++ escapedName (DBName dsn)
    ++ (if String.eqb (SearchPath dsn) EmptyString then EmptyString
        else "?options=-csearch_path%3D" ++ url.QueryEscape (SearchPath dsn)).
Proof.
  rewrite ConnectionURI_eq. do 4 f_equal. f_equal.
  unfold pathSeparator.
  destruct (Port dsn =? 0); cbn [negb].
  - now rewrite orb_false_r.
  - rewrite orb_true_r.
    replace (url.nonEmpty (Host dsn ++ ":" ++ strconv.Itoa (Port dsn))) with true;
      [reflexivity|].
    destruct (Host dsn); reflexivity.
Qed.

(** X20.  A search path that is not empty adds the [options]
    parameter at the end of the URI and changes nothing before it, and
    as it is written there the search path has no [&], [=], [#], [?],
    [/], [;] or space of its own: it cannot end the parameter or start
    another. *)
Theorem ConnectionURI_search_path_delimited (dsn : PostgreSQLDSN) :
  SearchPath dsn <> EmptyString ->
  ConnectionURI dsn
  = ConnectionURI (withSearchPath dsn EmptyString)
    ++ "?options=-csearch_path%3D" ++ url.QueryEscape (SearchPath dsn)
  /\ noneOf "&=#?/; " (url.QueryEscape (SearchPath dsn)) = true.
Proof.
  intros NE. split; [|apply QueryEscape_safe].
  rewrite !ConnectionURI_eq.
  cbn [withSearchPath Host Port DBName SearchPath User Password].
  destruct (String.eqb_spec (SearchPath dsn) EmptyString) as [E|_]; [contradiction|].
  cbn [String.eqb].
  rewrite !append_nil_r.
  change ("postgresql://" ++ ?x) with (String.append "postgresql://" x).
  rewrite !append_assoc. reflexivity.
Qed.

Lemma ConnectionURI_search_path_delimited_witness :
  ConnectionURI localDSN
  = ConnectionURI (withSearchPath localDSN EmptyString)
    ++ "?options=-csearch_path%3D" ++ url.QueryEscape (SearchPath localDSN)
  /\ noneOf "&=#?/; " (url.QueryEscape (SearchPath localDSN)) = true.
Proof.
  apply (ConnectionURI_search_path_delimited localDSN). discriminate.
Defined.


(** ** [CUEPaths] *)


(** ** The targets of the magefile *)

(** X23.  [CueGenConfig] runs [cue vet], [cue fmt] and [cue export] on
    the schema and the CUE file of the profile, in this order, and
    stops at the first of them that does not succeed, with its error:
    [cue fmt] runs only after [cue vet] succeeded, [cue export], which
    writes the JSON file of the profile, only after both did, and the
    outcome of the target is the outcome of the last command it ran. *)
Theorem CueGenConfig_vet_fmt_export
    (exec : list sh.command -> sh.command -> outcome unit)
    (profile : string) (ran : list sh.command) :
  let vet := exec ran (cueVet profile) in
  let fmt := exec (ran ++ [cueVet profile])%list (cueFmt profile) in
  let export := exec (ran ++ [cueVet profile; cueFmt profile])%list (cueExport profile) in
  (vet <> Returns tt
   /\ magefile.CueGenConfig exec profile ran = ((ran ++ [cueVet profile])%list, vet))
  \/ (vet = Returns tt /\ fmt <> Returns tt
      /\ magefile.CueGenConfig exec profile ran
         = ((ran ++ [cueVet profile; cueFmt profile])%list, fmt))
  \/ (vet = Returns tt /\ fmt = Returns tt
      /\ magefile.CueGenConfig exec profile ran
         = ((ran ++ [cueVet profile; cueFmt profile; cueExport profile])%list, export)).
Proof.
  cbv zeta. unfold magefile.CueGenConfig, cueVet, cueFmt, cueExport.
  cbn [CUEPaths Input Output app].
  rewrite andThen_Run.
  match goal with
  | |- context [exec ran ?c] => destruct (exec ran c) as [[]| | |]
  end; try (left; split; [discriminate | reflexivity]).
  right. rewrite andThen_Run.
  match goal with
  | |- context [exec (ran ++ [?v])%list ?c] =>
      destruct (exec (ran ++ [v])%list c) as [[]| | |]
  end; rewrite <- ?app_assoc; cbn [app];
    try (left; split; [reflexivity | split; [discriminate | reflexivity]]).
  right. split; [reflexivity | split; [reflexivity|]].
  rewrite Run_last. now rewrite <- !app_assoc.
Qed.

(** A run in which [cue fmt] fails: [cue export] is not started. *)
Example CueGenConfig_fmt_fails :
  magefile.CueGenConfig (failsAt "fmt") "local" []
  = ([cueVet "local"; cueFmt "local"], Fails (errorString "exit status 1")).
Proof. reflexivity. Qed.

(** X24.  [Up] and [Down] run at most one command: when [PSQLArgs]
    returns an argument list for the direction, [psql] is run once
    with exactly that list and its outcome is the outcome of the
    target; when [PSQLArgs] returns an error (or panics), nothing is
    run and that error is the outcome. *)
Theorem Up_Down_run_psql_once
    (os_ReadFile : string -> outcome string)
    (os_ReadDir : string -> outcome (list DirEntry))
    (json_Unmarshal : string -> outcome ConfigFile.t)
    (exec : list sh.command -> sh.command -> outcome unit)
    (up : bool) (profile : string) (ran : list sh.command) :
  let target :=
    if up then magefile.Up os_ReadFile os_ReadDir json_Unmarshal exec
    else magefile.Down os_ReadFile os_ReadDir json_Unmarshal exec in
  match PSQLArgs os_ReadFile os_ReadDir json_Unmarshal up profile with
  | Returns args => target profile ran = ((ran ++ [psql args])%list, exec ran (psql args))
  | Fails err => target profile ran = (ran, Fails err)
  | Panics p => target profile ran = (ran, Panics p)
  | OutOfFuel => target profile ran = (ran, OutOfFuel)
  end.
Proof.
  cbv zeta. destruct up; unfold magefile.Up, magefile.Down.
  all: match goal with
       | |- match ?m with _ => _ end => destruct m as [args| | |]
       end; try reflexivity.
  all: rewrite andThen_pure_Returns; apply Run_last.
Qed.

(** X25.  When the configuration loads and the migration directory of
    the direction has files that all parse, [Up] (for the directory
    [up]) and [Down] (for [down]) run one command, [psql] with the
    five leading arguments and then [-f <dir>/<filename>] for each
    file with the ordering keys never going down, and return what
    [psql] returned. *)
Theorem Up_Down_files_in_order
    (os_ReadFile : string -> outcome string)
    (os_ReadDir : string -> outcome (list DirEntry))
    (json_Unmarshal : string -> outcome ConfigFile.t)
    (exec : list sh.command -> sh.command -> outcome unit)
    (up : bool) (profile : string) (f : ConfigFile.t)
    (entries : list DirEntry) (files : list ddlFile) (ran : list sh.command) :
  NewConfigFile os_ReadFile json_Unmarshal ("./config/" ++ profile ++ ".json") = Returns f ->
  os_ReadDir (migrationDir f up) = Returns entries ->
  parsedFiles entries = Some files ->
  files <> [] ->
  exists sorted,
    Permutation files sorted
    /\ Sorted Z.le (map fileNumber sorted)
    /\ (if up then magefile.Up os_ReadFile os_ReadDir json_Unmarshal exec
        else magefile.Down os_ReadFile os_ReadDir json_Unmarshal exec) profile ran
       = ((ran ++ [psql (["-w"; "-d"; ConnectionURI (newPostgreSQLDSN f); "-c";
                          "select current_database(), current_user, version()"]
                         ++ fileArgs (migrationDir f up) sorted)])%list,
          exec ran
            (psql (["-w"; "-d"; ConnectionURI (newPostgreSQLDSN f); "-c";
                    "select current_database(), current_user, version()"]
                   ++ fileArgs (migrationDir f up) sorted)%list)).
Proof.
  intros C R P NE.
  destruct (PSQLArgs_parsed_sorted os_ReadFile os_ReadDir json_Unmarshal up profile f
              entries files C R P NE) as (sorted & Perm & Srt & E).
  exists sorted. split; [exact Perm|]. split; [exact Srt|].
  destruct up; unfold magefile.Up, magefile.Down; rewrite E;
    rewrite andThen_pure_Returns; apply Run_last.
Qed.

Lemma Up_Down_files_in_order_witness :
  exists sorted,
    Permutation [mkDdlFile "002-b.sql" 2; mkDdlFile "001-a.sql" 1] sorted
    /\ Sorted Z.le (map fileNumber sorted)
    /\ magefile.Up local_ReadFile (local_ReadDir [file "002-b.sql"; file "001-a.sql"])
         local_Unmarshal allSucceed "local" []
       = (([] ++ [psql (["-w"; "-d"; ConnectionURI (newPostgreSQLDSN localConfig); "-c";
                         "select current_database(), current_user, version()"]
                        ++ fileArgs (migrationDir localConfig true) sorted)])%list,
          allSucceed []
            (psql (["-w"; "-d"; ConnectionURI (newPostgreSQLDSN localConfig); "-c";
                    "select current_database(), current_user, version()"]
                   ++ fileArgs (migrationDir localConfig true) sorted)%list)).
Proof.
  apply (Up_Down_files_in_order local_ReadFile
           (local_ReadDir [file "002-b.sql"; file "001-a.sql"])
           local_Unmarshal allSucceed true "local" localConfig
           [file "002-b.sql"; file "001-a.sql"]
           [mkDdlFile "002-b.sql" 2; mkDdlFile "001-a.sql" 1] []);
    [reflexivity | reflexivity | reflexivity | discriminate].
Defined.

(** X26.  When the configuration loads and the migration directory of
    the direction has no file, [Up] and [Down] run nothing: [psql] is
    not started, and the error [there are no DDL files to process in
    <dir>] is the outcome. *)
Theorem Up_Down_no_files
    (os_ReadFile : string -> outcome string)
    (os_ReadDir : string -> outcome (list DirEntry))
    (json_Unmarshal : string -> outcome ConfigFile.t)
    (exec : list sh.command -> sh.command -> outcome unit)
    (up : bool) (profile : string) (f : ConfigFile.t)
    (entries : list DirEntry) (ran : list sh.command) :
  NewConfigFile os_ReadFile json_Unmarshal ("./config/" ++ profile ++ ".json") = Returns f ->
  os_ReadDir (migrationDir f up) = Returns entries ->
  fileEntries entries = [] ->
  (if up then magefile.Up os_ReadFile os_ReadDir json_Unmarshal exec
   else magefile.Down os_ReadFile os_ReadDir json_Unmarshal exec) profile ran
  = (ran, Fails (errorString ("there are no DDL files to process in " ++ migrationDir f up))).
Proof.
  intros C R D.
  assert (E := PSQLArgs_no_files os_ReadFile os_ReadDir json_Unmarshal up profile f
                 entries C R D).
  destruct up; unfold magefile.Up, magefile.Down; rewrite E; reflexivity.
Qed.

Lemma Up_Down_no_files_witness :
  magefile.Up local_ReadFile (local_ReadDir [subdirectory "archive"]) local_Unmarshal
    allSucceed "local" []
  = ([], Fails (errorString ("there are no DDL files to process in "
                             ++ migrationDir localConfig true))).
Proof.
  apply (Up_Down_no_files local_ReadFile (local_ReadDir [subdirectory "archive"])
           local_Unmarshal allSucceed true "local" localConfig [subdirectory "archive"] []);
    reflexivity.
Defined.
